(** * threading.c: a launcher that starts worker threads and joins them

    The program of [src/threading.c] is embedded as a labelled transition
    system.  A state holds the program counter of [main], the two arrays
    of [main]'s frame ([thread_id] and [threads]), the pool of threads the
    process has created, and the history of library calls made so far.
    A schedule picks, step by step, which thread of the process runs
    next; with the step for [main] comes what the operating system would
    answer to [pthread_create] at that point.  [launch] is the process
    until [main] returns; [process] goes on from there with the threads
    [main] has left behind, until the process ends. *)

From Stdlib Require Import ZArith String Ascii List Lia Permutation.
From Stdlib Require Import DecimalString DecimalPos DecimalZ.
From stdpp Require Import base option list.
Import ListNotations.

Local Open Scope string_scope.
Local Open Scope Z_scope.

(** ** Machine integers *)

(** [uint16_t] and [uint8_t] arithmetic wraps around. *)
Definition wrap16 (x : Z) : Z := x mod 65536.
Definition wrap8 (x : Z) : Z := x mod 256.

(** ** Text written by [printf] *)

Definition nl : string := String "010"%char EmptyString.

(** The [%d] conversion: a decimal numeral, with a sign when negative. *)
Definition format_d (v : Z) : string := NilZero.string_of_int (Z.to_int v).

(** The number a decimal numeral stands for. *)
Definition read_d (numeral : string) : option Z :=
  option_map Z.of_int (NilZero.int_of_string numeral).

Definition creating_line : string := ("Creating threads" ++ nl)%string.
Definition waiting_line : string :=
  ("main(): threads created, waiting for finish..." ++ nl)%string.
Definition all_finished_line : string := ("All threads finished" ++ nl)%string.
Definition perror_msg : string := ("error creating thread" ++ nl)%string.

(** [printf("Thread: %d running\n", thread_num)] *)
Definition running_line (thread_num : Z) : string :=
  ("Thread: " ++ format_d thread_num ++ " running" ++ nl)%string.

(** [printf("Thread: %d finished\n", thread_num)] *)
Definition finished_line (thread_num : Z) : string :=
  ("Thread: " ++ format_d thread_num ++ " finished" ++ nl)%string.

Arguments running_line : simpl never.
Arguments finished_line : simpl never.

Local Close Scope string_scope.

(** ** Library calls and memory accesses, as recorded in the history *)

Inductive actor : Type :=
| Main
| Thr (slot : nat).

Inductive action : Type :=
| Printf (text : string)             (* [printf] of a line *)
| Perror (msg : string) (err : Z)    (* [perror(msg)] with the current errno *)
| Sleep (secs : Z)                   (* [sleep(secs)] *)
| StoreId (idx v : Z)                (* [thread_id[idx] = v] *)
| LoadId (idx v : Z)                 (* [*(uint16_t* )arg], arg = &thread_id[idx] *)
| Create (idx ret : Z)               (* [pthread_create(&threads[idx], ...)] returned [ret] *)
| Join (idx : Z)                     (* [pthread_join(threads[idx], NULL)] returned *)
| Return (v : Z).                    (* [return v] *)

Definition event : Type := actor * action.

Global Instance actor_eq_dec : EqDecision actor.
Proof. solve_decision. Defined.

(** ** Program counters *)

(** Where [main] stands.  The loop counters are the [uint16_t] locals
    [thread_num] and [join_num]. *)
Inductive main_pc : Type :=
| M_start                      (* before line 25 *)
| M_spawn (thread_num : Z)     (* head of the loop of line 27 *)
| M_create (thread_num : Z)    (* before the call of line 30 *)
| M_perror                     (* before line 32 *)
| M_return (rc : Z)            (* before [return rc] *)
| M_join (join_num : Z)        (* head of the loop of line 39 *)
| M_exit (rc : Z).             (* [main] has returned [rc] *)

(** Where a worker stands in [thread_func]. *)
Inductive worker_pc : Type :=
| W_entry (arg : Z)                (* before line 9; [arg] is [&thread_id[arg]] *)
| W_loop (thread_num i : Z)        (* head of the loop of line 11 *)
| W_sleep (thread_num i : Z)       (* before line 14 *)
| W_ret                            (* before line 17 *)
| W_done (ret : Z).                (* [thread_func] has returned [ret] *)

Definition NULL : Z := 0.

(** ** C arrays with uninitialised cells *)

Definition in_bounds {A} (a : list A) (i : Z) : bool :=
  (0 <=? i) && (i <? Z.of_nat (length a)).

(** [a[i] = v]; writing outside the array is undefined and modelled as
    stuck. *)
Definition store {A} (a : list (option A)) (i : Z) (v : A)
  : option (list (option A)) :=
  if in_bounds a i then Some (<[Z.to_nat i := Some v]> a) else None.

(** Reading [a[i]]; a read outside the array or of a cell never written
    is undefined and modelled as stuck. *)
Definition load {A} (a : list (option A)) (i : Z) : option A :=
  if in_bounds a i then mjoin (a !! Z.to_nat i) else None.

(** ** The worker: [thread_func] *)

Definition worker_step (thread_id : list (option Z)) (w : worker_pc)
  : option (worker_pc * action) :=
  match w with
  | W_entry arg =>
      match load thread_id arg with
      | Some v => Some (W_loop v 0, LoadId arg v)
      | None => None
      end
  | W_loop thread_num i =>
      if i <? 5
      then Some (W_sleep thread_num i, Printf (running_line thread_num))
      else Some (W_ret, Printf (finished_line thread_num))
  | W_sleep thread_num i => Some (W_loop thread_num (wrap8 (i + 1)), Sleep 1)
  | W_ret => Some (W_done NULL, Return NULL)
  | W_done _ => None
  end.

(** [thread_func] run on its own for at most [fuel] steps: the calls it
    makes, and where it stands afterwards. *)
Fixpoint worker_run (fuel : nat) (thread_id : list (option Z)) (w : worker_pc)
  : list action * worker_pc :=
  match fuel with
  | O => ([], w)
  | S fuel' =>
      match worker_step thread_id w with
      | Some (w', a) =>
          let '(acts, w'') := worker_run fuel' thread_id w' in (a :: acts, w'')
      | None => ([], w)
      end
  end.

(** [thread_func(arg)], run for at most [fuel] steps. *)
Definition thread_func (fuel : nat) (thread_id : list (option Z)) (arg : Z)
  : list action * worker_pc :=
  worker_run fuel thread_id (W_entry arg).

(** ** The process *)

Record state : Type := State {
  pc : main_pc;
  errno : Z;                        (* errno of the thread running [main] *)
  thread_id : list (option Z);      (* [uint16_t thread_id[num_threads]] *)
  threads : list (option nat);      (* [pthread_t threads[num_threads]] *)
  pool : list worker_pc;            (* the threads created so far *)
  trace : list event                (* history, oldest first *)
}.

(** What the operating system answers to one [pthread_create]: the value
    the call returns (0 for success) and the errno it leaves behind when
    it fails. *)
Record os_reply : Type := Reply { create_ret : Z; create_errno : Z }.

Inductive choice : Type :=
| Run_main (r : os_reply)
| Run_thread (slot : nat).

Definition goto (p : main_pc) (a : action) (s : state) : state :=
  {| pc := p; errno := errno s; thread_id := thread_id s;
     threads := threads s; pool := pool s;
     trace := trace s ++ [(Main, a)] |}.

(** One statement of [main]; [num_threads] is the local of line 22. *)
Definition main_step (num_threads : Z) (r : os_reply) (s : state)
  : option state :=
  match pc s with
  | M_start => Some (goto (M_spawn 0) (Printf creating_line) s)
  | M_spawn thread_num =>
      if thread_num <? num_threads then
        let v := wrap16 (thread_num + 1) in
        match store (thread_id s) thread_num v with
        | Some ids =>
            Some {| pc := M_create thread_num; errno := errno s;
                    thread_id := ids; threads := threads s; pool := pool s;
                    trace := trace s ++ [(Main, StoreId thread_num v)] |}
        | None => None
        end
      else Some (goto (M_join 0) (Printf waiting_line) s)
  | M_create thread_num =>
      if create_ret r =? 0 then
        match store (threads s) thread_num (length (pool s)) with
        | Some hs =>
            Some {| pc := M_spawn (wrap16 (thread_num + 1)); errno := errno s;
                    thread_id := thread_id s; threads := hs;
                    pool := pool s ++ [W_entry thread_num];
                    trace := trace s ++ [(Main, Create thread_num 0)] |}
        | None => None
        end
      else
        Some {| pc := M_perror; errno := create_errno r;
                thread_id := thread_id s; threads := threads s;
                pool := pool s;
                trace := trace s ++ [(Main, Create thread_num (create_ret r))] |}
  | M_perror => Some (goto (M_return (-1)) (Perror perror_msg (errno s)) s)
  | M_return rc => Some (goto (M_exit rc) (Return rc) s)
  | M_join join_num =>
      if join_num <? num_threads then
        match load (threads s) join_num with
        | Some h =>
            match pool s !! h with
            | Some (W_done _) =>
                Some (goto (M_join (wrap16 (join_num + 1))) (Join join_num) s)
            | _ => None               (* the call blocks *)
            end
        | None => None
        end
      else Some (goto (M_return 0) (Printf all_finished_line) s)
  | M_exit _ => None
  end.

(** One statement of the worker in [slot]. *)
Definition thread_step (slot : nat) (s : state) : option state :=
  match pool s !! slot with
  | Some w =>
      match worker_step (thread_id s) w with
      | Some (w', a) =>
          Some {| pc := pc s; errno := errno s; thread_id := thread_id s;
                  threads := threads s; pool := <[slot := w']> (pool s);
                  trace := trace s ++ [(Thr slot, a)] |}
      | None => None
      end
  | None => None
  end.

Definition exited (s : state) : bool :=
  match pc s with M_exit _ => true | _ => false end.

(** One step of the process while [main] runs.  A schedule of [main] and
    its threads ends where [main] returns; what the threads [main] has
    left behind do from then on is [orphan_step], further down. *)
Definition step (num_threads : Z) (c : choice) (s : state) : option state :=
  if exited s then None
  else match c with
       | Run_main r => main_step num_threads r s
       | Run_thread slot => thread_step slot s
       end.

Fixpoint run (num_threads : Z) (sch : list choice) (s : state) : option state :=
  match sch with
  | [] => Some s
  | c :: sch' =>
      match step num_threads c s with
      | Some s' => run num_threads sch' s'
      | None => None
      end
  end.

(** The frame of [main] after line 24: two arrays of [num_threads]
    uninitialised cells. *)
Definition init (num_threads : Z) : state :=
  {| pc := M_start; errno := 0;
     thread_id := replicate (Z.to_nat num_threads) None;
     threads := replicate (Z.to_nat num_threads) None;
     pool := []; trace := [] |}.

(** [launch n sch]: the body of [main] with [num_threads = n], run under
    the schedule [sch]. *)
Definition launch (num_threads : Z) (sch : list choice) : option state :=
  run num_threads sch (init num_threads).

(** Line 22: [uint16_t num_threads = 3]. *)
Definition num_threads_main : Z := 3.

Definition main (sch : list choice) : option state :=
  launch num_threads_main sch.

(** ** Observations on a history *)

Definition acts_of (a : actor) (t : list event) : list action :=
  omap (fun e : event => if decide (e.1 = a) then Some e.2 else None) t.

Definition printed (x : action) : option string :=
  match x with Printf text => Some text | _ => None end.

(** The texts handed to [printf], one entry per call, in the order of
    the calls.  When [main] returns 0 every thread has been joined before
    [exit] flushes the stream, and this is what the standard output
    holds.  What reaches the file descriptor when [exit] runs beside
    threads that still print is not described by it. *)
Definition stdout (t : list event) : list string :=
  omap (fun e : event => printed e.2) t.

Definition diagnosed (x : action) : option (string * Z) :=
  match x with Perror msg err => Some (msg, err) | _ => None end.

(** What reached the error stream. *)
Definition stderr (t : list event) : list (string * Z) :=
  omap (fun e : event => diagnosed e.2) t.

(** ** Runs and reachable states *)

Definition reachable (n : Z) (s : state) : Prop :=
  exists sch, launch n sch = Some s.

(** ** What holds of every reachable state *)

(** The worker of [slot] was handed [&thread_id[slot]], has read
    [slot + 1] from it, and its loop counter is in range. *)
Definition worker_ok (slot : nat) (w : worker_pc) : Prop :=
  match w with
  | W_entry arg => arg = Z.of_nat slot
  | W_loop thread_num i => thread_num = Z.of_nat slot + 1 /\ 0 <= i <= 5
  | W_sleep thread_num i => thread_num = Z.of_nat slot + 1 /\ 0 <= i < 5
  | W_ret => True
  | W_done ret => ret = NULL
  end.

Definition all_done (p : list worker_pc) : Prop :=
  forall i w, p !! i = Some w -> w = W_done NULL.

(** How far [main] has got, against how many threads exist. *)
Definition main_ok (n : Z) (s : state) : Prop :=
  let created := Z.of_nat (length (pool s)) in
  match pc s with
  | M_start => created = 0
  | M_spawn k => created = k /\ k <= n
  | M_create k =>
      created = k /\ k < n /\ load (thread_id s) k = Some (k + 1)
  | M_perror => created < n
  | M_return rc | M_exit rc =>
      (rc = -1 /\ created < n) \/
      (rc = 0 /\ created = n /\ all_done (pool s))
  | M_join j =>
      created = n /\ 0 <= j <= n /\
      forall i, (i < Z.to_nat j)%nat -> pool s !! i = Some (W_done NULL)
  end.

Record state_inv (n : Z) (s : state) : Prop := StateInv {
  ids_len : Z.of_nat (length (thread_id s)) = n;
  handles_len : Z.of_nat (length (threads s)) = n;
  slots_ok : forall i, (i < length (pool s))%nat ->
    thread_id s !! i = Some (Some (Z.of_nat i + 1)) /\
    threads s !! i = Some (Some i);
  workers_ok : forall i w, pool s !! i = Some w -> worker_ok i w;
  pc_ok : main_ok n s
}.

(** ** Histories *)

(** One turn of the loop of [thread_func]. *)
Definition iteration (id : Z) : list action :=
  [Printf (running_line id); Sleep 1].

Definition iterations (k : nat) (id : Z) : list action :=
  concat (replicate k (iteration id)).

(** Everything [thread_func] does when handed [&thread_id[idx]] holding
    [id]. *)
Definition thread_func_calls (idx id : Z) : list action :=
  LoadId idx id :: iterations 5 id ++ [Printf (finished_line id); Return NULL].

(** What the worker of [slot] has done when it stands at [w]. *)
Definition worker_hist (slot : nat) (w : worker_pc) : list action :=
  let idx := Z.of_nat slot in
  let id := idx + 1 in
  match w with
  | W_entry _ => []
  | W_loop _ i => LoadId idx id :: iterations (Z.to_nat i) id
  | W_sleep _ i =>
      LoadId idx id :: iterations (Z.to_nat i) id ++ [Printf (running_line id)]
  | W_ret => LoadId idx id :: iterations 5 id ++ [Printf (finished_line id)]
  | W_done _ => thread_func_calls idx id
  end.

(** One successful turn of the loop of line 27. *)
Definition spawn (k : nat) : list action :=
  [StoreId (Z.of_nat k) (Z.of_nat k + 1); Create (Z.of_nat k) 0].

Definition spawns (k : nat) : list action := flat_map spawn (seq 0 k).

Definition joins (j : nat) : list action :=
  map (fun i => Join (Z.of_nat i)) (seq 0 j).

Definition launched (k : nat) : list action :=
  Printf creating_line :: spawns k.

Definition failing (k : nat) (ret : Z) : list action :=
  launched k ++ [StoreId (Z.of_nat k) (Z.of_nat k + 1); Create (Z.of_nat k) ret].

Definition joined (k j : nat) : list action :=
  launched k ++ Printf waiting_line :: joins j.

Arguments launched : simpl never.
Arguments failing : simpl never.
Arguments joined : simpl never.

(** What [main] has done when it stands at [p], [k] threads exist and
    its errno is [err]. *)
Definition main_hist (p : main_pc) (k : nat) (err : Z) (h : list action)
  : Prop :=
  match p with
  | M_start => h = []
  | M_spawn _ => h = launched k
  | M_create _ => h = launched k ++ [StoreId (Z.of_nat k) (Z.of_nat k + 1)]
  | M_perror => exists ret, ret <> 0 /\ h = failing k ret
  | M_return rc =>
      if rc =? 0 then h = joined k k ++ [Printf all_finished_line]
      else exists ret, ret <> 0 /\ h = failing k ret ++ [Perror perror_msg err]
  | M_join j => h = joined k (Z.to_nat j)
  | M_exit rc =>
      if rc =? 0 then h = joined k k ++ [Printf all_finished_line; Return rc]
      else exists ret, ret <> 0 /\
             h = failing k ret ++ [Perror perror_msg err; Return rc]
  end.

Record hist_inv (s : state) : Prop := HistInv {
  main_acts :
    main_hist (pc s) (length (pool s)) (errno s) (acts_of Main (trace s));
  worker_acts : forall i w, pool s !! i = Some w ->
    acts_of (Thr i) (trace s) = worker_hist i w;
  no_acts : forall i, (length (pool s) <= i)%nat ->
    acts_of (Thr i) (trace s) = []
}.

(** The thread a choice of the schedule runs. *)
Definition actor_of (c : choice) : actor :=
  match c with Run_main _ => Main | Run_thread slot => Thr slot end.

(** ** Termination *)

(** Steps a worker still has to take. *)
Definition worker_fuel (w : worker_pc) : nat :=
  match w with
  | W_entry _ => 13
  | W_loop _ i => 2 * Z.to_nat (5 - i) + 2
  | W_sleep _ i => 2 * Z.to_nat (5 - i) + 1
  | W_ret => 1
  | W_done _ => 0
  end.

(** Steps [main] still has to take when nothing fails. *)
Definition main_fuel (n : Z) (p : main_pc) : nat :=
  match p with
  | M_start => 3 * Z.to_nat n + 4
  | M_spawn k => 2 * Z.to_nat (n - k) + Z.to_nat n + 3
  | M_create k => 2 * Z.to_nat (n - k) + Z.to_nat n + 2
  | M_perror => 2
  | M_return _ => 1
  | M_join j => Z.to_nat (n - j) + 2
  | M_exit _ => 0
  end.

Definition measure (n : Z) (s : state) : nat :=
  main_fuel n (pc s) + sum_list_with worker_fuel (pool s)
  + 13 * (Z.to_nat n - length (pool s)).

(** ** Counting lines on the standard output *)

(** The three lines of [main]. *)
Definition main_lines : list string :=
  [creating_line; waiting_line; all_finished_line].

Definition count_line (x : string) (l : list string) : nat :=
  count_occ string_dec l x.

Arguments count_line : simpl never.

(** The lines [main] has printed when it stands at [p]. *)
Definition main_printed (p : main_pc) : list string :=
  match p with
  | M_start => []
  | M_spawn _ | M_create _ | M_perror => [creating_line]
  | M_join _ => [creating_line; waiting_line]
  | M_return rc | M_exit rc => if rc =? 0 then main_lines else [creating_line]
  end.

(** How many "running" and "finished" lines a worker at [w] has printed. *)
Definition worker_runs (w : worker_pc) : nat :=
  match w with
  | W_entry _ => 0
  | W_loop _ i => Z.to_nat i
  | W_sleep _ i => S (Z.to_nat i)
  | W_ret | W_done _ => 5
  end.

Definition worker_fins (w : worker_pc) : nat :=
  match w with W_ret | W_done _ => 1 | _ => 0 end.

(** What one step adds to a stream: nothing or one entry. *)
Definition option_list' {A} (o : option A) : list A :=
  match o with Some x => [x] | None => [] end.

Record count_inv (s : state) : Prop := CountInv {
  cnt_main : forall x, In x main_lines ->
    count_line x (stdout (trace s)) = count_line x (main_printed (pc s));
  cnt_worker : forall slot w, pool s !! slot = Some w ->
    count_line (running_line (Z.of_nat slot + 1)) (stdout (trace s))
      = worker_runs w /\
    count_line (finished_line (Z.of_nat slot + 1)) (stdout (trace s))
      = worker_fins w;
  cnt_none : forall id, ~ (1 <= id <= Z.of_nat (length (pool s))) ->
    count_line (running_line id) (stdout (trace s)) = 0%nat /\
    count_line (finished_line id) (stdout (trace s)) = 0%nat
}.

(** ** How often the loops run *)

Definition is_store (x : action) : bool :=
  match x with StoreId _ _ => true | _ => false end.
Definition is_create (x : action) : bool :=
  match x with Create _ _ => true | _ => false end.
Definition is_join (x : action) : bool :=
  match x with Join _ => true | _ => false end.
Definition is_sleep (x : action) : bool :=
  match x with Sleep _ => true | _ => false end.

(** How many calls of one kind an actor made in a history. *)
Definition calls (f : action -> bool) (a : actor) (t : list event) : nat :=
  length (List.filter f (acts_of a t)).

Definition tally (f : action -> bool) (h : list action) : nat :=
  length (List.filter f h).

(** ** The shape of a successful run *)

(** Every line on the standard output is one of main's three lines or a
    line of a worker that exists. *)
Definition allowed (k : nat) (x : string) : Prop :=
  In x main_lines \/
  exists slot, (slot < k)%nat /\
    (x = running_line (Z.of_nat slot + 1) \/
     x = finished_line (Z.of_nat slot + 1)).


(** ** A failing [pthread_create] *)

(** Where [main] can stand once a [pthread_create] has failed. *)
Definition failing_pc (p : main_pc) : bool :=
  match p with M_perror | M_return _ | M_exit _ => true | _ => false end.

(** ** The two arrays of [main] *)

(** How many cells of an array have been written. *)
Definition populated {A} (a : list (option A)) : nat :=
  length (List.filter (fun c => match c with Some _ => true | None => false end) a).

(** Assignments of line 29 that are not yet matched by a started thread:
    one between line 29 and a successful line 30, and after a failed
    line 30. *)
Definition in_flight (p : main_pc) : nat :=
  match p with
  | M_create _ | M_perror => 1
  | M_return rc | M_exit rc => if rc =? 0 then 0 else 1
  | _ => 0
  end.

Record array_inv (n : Z) (s : state) : Prop := ArrayInv {
  handles_fresh : forall i, (length (pool s) <= i < Z.to_nat n)%nat ->
    threads s !! i = Some None;
  ids_fresh : forall i,
    (length (pool s) + in_flight (pc s) <= i < Z.to_nat n)%nat ->
    thread_id s !! i = Some None;
  ids_stored : forall i, (i < length (pool s) + in_flight (pc s))%nat ->
    thread_id s !! i = Some (Some (Z.of_nat i + 1))
}.


(** ** No worker at all *)




(** ** Worked runs of [main] *)

(** The answer to a [pthread_create] that succeeds. *)
Definition ok : os_reply := Reply 0 0.

(** [main] starts the three threads, the workers then take turns until
    all have returned, and [main] joins them and returns. *)
Definition sched_round_robin : list choice :=
  [Run_main ok] ++ concat (replicate 3 [Run_main ok; Run_main ok])
  ++ concat (replicate 13 [Run_thread 0; Run_thread 1; Run_thread 2])
  ++ replicate 6 (Run_main ok).

Definition final_round_robin : state :=
  Eval vm_compute in
    match main sched_round_robin with Some s => s | None => init 3 end.

(** A run of [main] in which [main] goes first, as far as it can: it
    then waits in [pthread_join] for the first worker. *)
Definition sched_main_first : list choice := replicate 8 (Run_main ok).

Definition waiting_state : state :=
  Eval vm_compute in
    match main sched_main_first with Some s => s | None => init 3 end.

(** A run of [main] in which the second [pthread_create] fails with
    EAGAIN (11) while the first worker is already running. *)
Definition sched_second_create_fails : list choice :=
  [Run_main ok; Run_main ok; Run_main ok; Run_thread 0; Run_thread 0;
   Run_main ok; Run_main (Reply 11 11); Run_thread 0; Run_main ok;
   Run_main ok].

Definition final_second_create_fails : state :=
  Eval vm_compute in
    match main sched_second_create_fails with
    | Some s => s
    | None => init 3
    end.

(** From [waiting_state] on the workers take turns until all have
    returned, and [main] joins them and returns. *)
Definition sched_workers_then_joins : list choice :=
  concat (replicate 13 [Run_thread 0; Run_thread 1; Run_thread 2])
  ++ replicate 5 (Run_main ok).

Definition final_main_first : state :=
  Eval vm_compute in
    match run 3 sched_workers_then_joins waiting_state with
    | Some s => s
    | None => init 3
    end.

(** The schedule in which only [main] runs and the operating system
    answers [r] to the [pthread_create] of index [k], having accepted the
    ones before. *)
Definition sched_fail_at (k : nat) (r : os_reply) : list choice :=
  (Run_main ok :: concat (replicate k [Run_main ok; Run_main ok]))
  ++ [Run_main ok; Run_main r; Run_main ok; Run_main ok].

(** ** After [main] has returned *)

(** When [main] returns, the C runtime calls [exit]; until [exit] has
    ended the process, the threads that were started and not joined go on
    running.  This happens only after a failed [pthread_create]: line 33
    returns without joining.  By then the arrays of [main] no longer
    exist.  A worker that comes to line 9 only now still dereferences the
    address it was handed; reading an object whose lifetime has ended is
    undefined in C, and what is modelled here is what the machine does:
    the load yields whatever that memory holds by then.  [mem] is the
    memory where [thread_id] was, cell by cell, as the environment has
    left it ([None] for a cell that cannot be read); the value read is a
    [uint16_t] whatever it is.  A worker past line 9 works on its own
    copy [thread_num] and is not affected. *)
Definition orphan_step (slot : nat) (mem : list (option Z)) (s : state)
  : option state :=
  if exited s then
    match pool s !! slot with
    | Some w =>
        match worker_step (map (option_map wrap16) mem) w with
        | Some (w', a) =>
            Some {| pc := pc s; errno := errno s; thread_id := thread_id s;
                    threads := threads s; pool := <[slot := w']> (pool s);
                    trace := trace s ++ [(Thr slot, a)] |}
        | None => None
        end
    | None => None
    end
  else None.

(** The steps the threads left behind make while [exit] runs: which
    thread, and what memory it finds. *)
Fixpoint orphans (l : list (nat * list (option Z))) (s : state)
  : option state :=
  match l with
  | [] => Some s
  | (slot, mem) :: l' =>
      match orphan_step slot mem s with
      | Some s' => orphans l' s'
      | None => None
      end
  end.

(** The whole life of the process: [main] and its threads run under
    [sch], and once [main] has returned the threads left run under [l]
    until the process ends. *)
Definition process (num_threads : Z) (sch : list choice)
    (l : list (nat * list (option Z))) : option state :=
  match launch num_threads sch with
  | Some s => orphans l s
  | None => None
  end.

(** What the worker of [slot] has done when it stands at [w], if [v] is
    what it read from its cell. *)
Definition worker_hist_read (slot : nat) (v : Z) (w : worker_pc)
  : list action :=
  let idx := Z.of_nat slot in
  match w with
  | W_entry _ => []
  | W_loop _ i => LoadId idx v :: iterations (Z.to_nat i) v
  | W_sleep _ i =>
      LoadId idx v :: iterations (Z.to_nat i) v ++ [Printf (running_line v)]
  | W_ret => LoadId idx v :: iterations 5 v ++ [Printf (finished_line v)]
  | W_done _ => thread_func_calls idx v
  end.

(** Where a worker that read [v] can stand. *)
Definition worker_read_ok (slot : nat) (v : Z) (w : worker_pc) : Prop :=
  match w with
  | W_entry arg => arg = Z.of_nat slot
  | W_loop thread_num i => thread_num = v /\ 0 <= i <= 5
  | W_sleep thread_num i => thread_num = v /\ 0 <= i < 5
  | W_ret => True
  | W_done ret => ret = NULL
  end.

(** The second [pthread_create] fails before the first worker has run;
    [main] returns, and the worker then reads its identifier where
    [thread_id] was, finds 0 there, and prints. *)
Definition late_reader : state :=
  Eval vm_compute in
    match process 3 (sched_fail_at 1 (Reply 11 11))
            [(0%nat, [Some 0]); (0%nat, [])] with
    | Some s => s
    | None => init 3
    end.

(** [main] has written [thread_id[0]] and not yet called
    [pthread_create]. *)
Definition first_id_stored : state :=
  Eval vm_compute in
    match launch 3 [Run_main ok; Run_main ok] with
    | Some s => s
    | None => init 3
    end.

(** Every thread that exists has read one value, a [uint16_t], unless it
    is still at its entry, and has gone through [thread_func] with that
    value. *)
Definition read_inv (s : state) : Prop :=
  (forall slot w, pool s !! slot = Some w ->
     exists v, 0 <= v < 65536 /\ worker_read_ok slot v w /\
       acts_of (Thr slot) (trace s) = worker_hist_read slot v w) /\
  (forall slot, (length (pool s) <= slot)%nat ->
     acts_of (Thr slot) (trace s) = []).

(** [main] has returned -1 after the second [pthread_create] failed, and
    the first worker has not run yet. *)
Definition returned_early : state :=
  Eval vm_compute in
    match launch 3 (sched_fail_at 1 (Reply 11 11)) with
    | Some s => s
    | None => init 3
    end.

(** ** Further observations *)

(** [main] has not met a failing [pthread_create]. *)
Definition not_failed (p : main_pc) : bool :=
  match p with
  | M_perror => false
  | M_return rc | M_exit rc => rc =? 0
  | _ => true
  end.

(** Lines a worker at [w] has printed. *)
Definition worker_lines (w : worker_pc) : nat :=
  (worker_runs w + worker_fins w)%nat.

(** Lines the process has printed, by where its threads stand. *)
Definition lines_printed (s : state) : nat :=
  (length (main_printed (pc s)) + sum_list_with worker_lines (pool s))%nat.

(** Everything [main] does when all [k] threads start. *)
Definition success_calls (k : nat) : list action :=
  joined k k ++ [Printf all_finished_line; Return 0].

(** Everything [main] does when the [pthread_create] of index [k] fails
    with [ret], leaving errno [err]. *)
Definition failure_calls (k : nat) (ret err : Z) : list action :=
  failing k ret ++ [Perror perror_msg err; Return (-1)].

(** What a thread can have printed. *)
Definition prints (k : nat) (a : actor) (x : string) : Prop :=
  match a with
  | Main => In x main_lines
  | Thr slot =>
      (slot < k)%nat /\
      (x = running_line (Z.of_nat slot + 1) \/
       x = finished_line (Z.of_nat slot + 1))
  end.

(** * Properties *)

(** ** Runs and reachable states *)

Lemma run_app n sch1 sch2 s :
  run n (sch1 ++ sch2) s =
  match run n sch1 s with Some s' => run n sch2 s' | None => None end.
Proof.
  revert s. induction sch1 as [|c sch1 IH]; intros s; simpl; [reflexivity|].
  destruct (step n c s); [apply IH | reflexivity].
Qed.

Lemma run_snoc n sch c s s1 s2 :
  run n sch s = Some s1 -> step n c s1 = Some s2 ->
  run n (sch ++ [c]) s = Some s2.
Proof. intros H1 H2. rewrite run_app, H1. simpl. now rewrite H2. Qed.

Lemma reachable_init n : reachable n (init n).
Proof. now exists []. Qed.

Lemma reachable_step n c s s' :
  reachable n s -> step n c s = Some s' -> reachable n s'.
Proof. intros [sch H] Hs. exists (sch ++ [c]). eapply run_snoc; eauto. Qed.

(** Induction over the runs of the process, last step first. *)
Lemma reachable_ind' n (P : state -> Prop) :
  P (init n) ->
  (forall c s s', reachable n s -> P s -> step n c s = Some s' -> P s') ->
  forall s, reachable n s -> P s.
Proof.
  intros H0 HS s [sch Hrun]. revert s Hrun.
  induction sch as [|c sch IH] using rev_ind; intros s Hrun.
  - injection Hrun as <-. exact H0.
  - unfold launch in Hrun. rewrite run_app in Hrun.
    destruct (run n sch (init n)) as [s1|] eqn:E1; [|discriminate].
    simpl in Hrun. destruct (step n c s1) as [s2|] eqn:E2; [|discriminate].
    injection Hrun as <-. eapply HS; [exists sch; exact E1 | | exact E2].
    now apply IH.
Qed.

(** ** Arrays *)

Lemma store_Some {A} (a a' : list (option A)) i v :
  store a i v = Some a' ->
  0 <= i < Z.of_nat (length a) /\ a' = <[Z.to_nat i := Some v]> a.
Proof.
  unfold store, in_bounds. intros H.
  destruct (0 <=? i) eqn:E1; destruct (i <? Z.of_nat (length a)) eqn:E2;
    simpl in H; try discriminate.
  injection H as <-. split; [lia | reflexivity].
Qed.

Lemma store_in_bounds {A} (a : list (option A)) i v :
  0 <= i < Z.of_nat (length a) ->
  store a i v = Some (<[Z.to_nat i := Some v]> a).
Proof.
  intros H. unfold store, in_bounds.
  destruct (0 <=? i) eqn:E1; destruct (i <? Z.of_nat (length a)) eqn:E2;
    simpl; try reflexivity; lia.
Qed.

Lemma load_Some {A} (a : list (option A)) i v :
  load a i = Some v <-> 0 <= i /\ a !! Z.to_nat i = Some (Some v).
Proof.
  unfold load, in_bounds. split.
  - intros H.
    destruct (0 <=? i) eqn:E1; destruct (i <? Z.of_nat (length a)) eqn:E2;
      simpl in H; try discriminate.
    split; [lia|]. destruct (a !! Z.to_nat i) as [[x|]|]; simpl in H; congruence.
  - intros [H0 H]. pose proof (lookup_lt_Some _ _ _ H) as Hlt.
    destruct (0 <=? i) eqn:E1; destruct (i <? Z.of_nat (length a)) eqn:E2;
      simpl; try lia.
    now rewrite H.
Qed.

(** ** What holds of every reachable state *)

Lemma wrap16_small x : 0 <= x < 65536 -> wrap16 x = x.
Proof. intros H. unfold wrap16. now apply Z.mod_small. Qed.

Lemma wrap8_small x : 0 <= x < 256 -> wrap8 x = x.
Proof. intros H. unfold wrap8. now apply Z.mod_small. Qed.

Lemma worker_step_ok ids slot w w' a :
  worker_ok slot w ->
  ids !! slot = Some (Some (Z.of_nat slot + 1)) ->
  worker_step ids w = Some (w', a) -> worker_ok slot w'.
Proof.
  intros Hok Hid Hst. destruct w as [arg|num i|num i| |r]; simpl in *.
  - destruct (load ids arg) as [v|] eqn:E; [|discriminate].
    injection Hst as <- <-. subst arg. apply load_Some in E as [_ E].
    rewrite Nat2Z.id, Hid in E. injection E as <-. simpl. lia.
  - destruct Hok as [-> Hi]. destruct (i <? 5) eqn:E; injection Hst as <- <-;
      simpl; [lia | exact I].
  - destruct Hok as [-> Hi]. injection Hst as <- <-. simpl.
    rewrite wrap8_small; lia.
  - injection Hst as <- <-. reflexivity.
  - discriminate.
Qed.

Section Launch.

Variable n : Z.
Hypothesis n_range : 0 <= n < 65536.

Lemma init_state_inv : state_inv n (init n).
Proof.
  split; simpl.
  - rewrite length_replicate. lia.
  - rewrite length_replicate. lia.
  - intros i Hi. simpl in Hi. lia.
  - intros i w H. destruct i; discriminate.
  - reflexivity.
Qed.

Lemma thread_step_state_inv slot s s' :
  state_inv n s -> thread_step slot s = Some s' -> state_inv n s'.
Proof.
  intros [Hl1 Hl2 Hsl Hw Hpc] Hst. unfold thread_step in Hst.
  destruct (pool s !! slot) as [w|] eqn:Ew; [|discriminate].
  destruct (worker_step (thread_id s) w) as [[w' a]|] eqn:Es; [|discriminate].
  injection Hst as <-.
  pose proof (lookup_lt_Some _ _ _ Ew) as Hlt.
  assert (Hw' : worker_ok slot w').
  { eapply worker_step_ok; eauto. now apply Hsl. }
  split; simpl; try assumption.
  - intros i Hi. rewrite length_insert in Hi. now apply Hsl.
  - intros i w0 H0. destruct (decide (i = slot)) as [->|Hne].
    + rewrite list_lookup_insert_eq in H0 by assumption. now injection H0 as <-.
    + rewrite list_lookup_insert_ne in H0 by congruence. now apply Hw.
  - unfold main_ok in *. simpl. rewrite length_insert.
    destruct (pc s) as [|k|k| |rc|j|rc]; try assumption.
    + destruct Hpc as [H|(H1 & H2 & H3)]; [now left|]. right.
      specialize (H3 _ _ Ew). subst w. discriminate.
    + destruct Hpc as (H1 & H2 & H3).
      split; [assumption | split; [assumption|]].
      intros i Hi. specialize (H3 i Hi).
      destruct (decide (i = slot)) as [->|Hne].
      * rewrite Ew in H3. injection H3 as ->. discriminate.
      * now rewrite list_lookup_insert_ne by congruence.
    + destruct Hpc as [H|(H1 & H2 & H3)]; [now left|]. right.
      specialize (H3 _ _ Ew). subst w. discriminate.
Qed.

Lemma goto_state_inv p a s :
  state_inv n s -> main_ok n (goto p a s) -> state_inv n (goto p a s).
Proof. intros [H1 H2 H3 H4 _] H. now split. Qed.

Lemma main_step_state_inv r s s' :
  state_inv n s -> main_step n r s = Some s' -> state_inv n s'.
Proof.
  intros Hinv Hst. pose proof Hinv as [Hl1 Hl2 Hsl Hw Hpc].
  unfold main_step in Hst. unfold main_ok in Hpc.
  destruct (pc s) as [|k|k| |rc|j|rc] eqn:Epc.
  - (* line 25 *)
    injection Hst as <-. apply goto_state_inv; [assumption|].
    unfold main_ok; simpl. lia.
  - (* line 27, then line 29 or line 37 *)
    destruct Hpc as [Hk Hkn]. destruct (k <? n) eqn:Ek.
    + destruct (store (thread_id s) k (wrap16 (k + 1))) as [ids|] eqn:Est;
        [|discriminate].
      injection Hst as <-. apply store_Some in Est as [Hb ->].
      rewrite wrap16_small by lia.
      split; simpl.
      * now rewrite length_insert.
      * assumption.
      * intros i Hi. destruct (Hsl i Hi) as [Ha Hb'].
        split; [|assumption]. rewrite list_lookup_insert_ne by lia. assumption.
      * assumption.
      * unfold main_ok; simpl. split; [assumption|]. split; [lia|].
        apply load_Some. split; [lia|].
        apply list_lookup_insert_eq. lia.
    + injection Hst as <-. apply goto_state_inv; [assumption|].
      unfold main_ok; simpl. split; [lia|]. split; [lia|].
      intros i Hi. simpl in Hi. lia.
  - (* line 30 *)
    destruct Hpc as (Hk & Hkn & Hid). destruct (create_ret r =? 0).
    + destruct (store (threads s) k (length (pool s))) as [hs|] eqn:Est;
        [|discriminate].
      injection Hst as <-. apply store_Some in Est as [Hb ->].
      apply load_Some in Hid as [_ Hid].
      assert (Hkk : Z.to_nat k = length (pool s)) by lia.
      split; simpl.
      * assumption.
      * now rewrite length_insert.
      * intros i Hi. rewrite length_app in Hi. simpl in Hi.
        destruct (decide (i = length (pool s))) as [->|Hne].
        -- rewrite Hkk in Hid |- *. rewrite Hid, Hk.
           split; [reflexivity|]. apply list_lookup_insert_eq. lia.
        -- assert (Hi' : (i < length (pool s))%nat) by lia.
           destruct (Hsl i Hi') as [Ha Hb']. split; [assumption|].
           rewrite list_lookup_insert_ne by lia. assumption.
      * intros i w Hiw. apply lookup_app_Some in Hiw as [Hiw|[Hge Hiw]].
        -- now apply Hw.
        -- apply list_lookup_singleton_Some in Hiw as [Hz <-].
           simpl. lia.
      * unfold main_ok; simpl. rewrite length_app. simpl.
        rewrite wrap16_small by lia. lia.
    + injection Hst as <-. split; simpl; try assumption.
      unfold main_ok; simpl. lia.
  - (* line 32 *)
    injection Hst as <-. apply goto_state_inv; [assumption|].
    unfold main_ok; simpl. left. split; [reflexivity | assumption].
  - (* lines 33 and 45 *)
    injection Hst as <-. apply goto_state_inv; [assumption|].
    unfold main_ok; simpl. assumption.
  - (* line 39, then line 41 or line 44 *)
    destruct Hpc as (Hc & Hj & Hdone). destruct (j <? n) eqn:Ej.
    + destruct (load (threads s) j) as [h|] eqn:Eh; [|discriminate].
      destruct (pool s !! h) as [w|] eqn:Eph; [|discriminate].
      destruct w as [?|? ?|? ?| |ret]; try discriminate.
      injection Hst as <-. apply goto_state_inv; [assumption|].
      unfold main_ok; simpl. rewrite wrap16_small by lia.
      split; [assumption|]. split; [lia|].
      intros i Hi. destruct (decide (i = Z.to_nat j)) as [->|Hne].
      * apply load_Some in Eh as [_ Eh].
        assert (Hlt : (Z.to_nat j < length (pool s))%nat) by lia.
        destruct (Hsl _ Hlt) as [_ Hh]. rewrite Hh in Eh. injection Eh as <-.
        rewrite Eph. f_equal. f_equal. exact (Hw _ _ Eph).
      * apply Hdone. lia.
    + injection Hst as <-. apply goto_state_inv; [assumption|].
      unfold main_ok; simpl. right. split; [reflexivity|]. split; [assumption|].
      intros i w Hiw. pose proof (lookup_lt_Some _ _ _ Hiw) as Hlt.
      rewrite Hdone in Hiw by lia. congruence.
  - discriminate.
Qed.

Lemma step_state_inv c s s' :
  state_inv n s -> step n c s = Some s' -> state_inv n s'.
Proof.
  intros Hinv Hst. unfold step in Hst. destruct (exited s); [discriminate|].
  destruct c as [r|slot].
  - eapply main_step_state_inv; eauto.
  - eapply thread_step_state_inv; eauto.
Qed.

Lemma reachable_state_inv s : reachable n s -> state_inv n s.
Proof.
  apply reachable_ind'; [apply init_state_inv|].
  intros c s0 s' _ H Hst. eapply step_state_inv; eauto.
Qed.

End Launch.

(** ** Histories *)

Lemma acts_of_app a t1 t2 : acts_of a (t1 ++ t2) = acts_of a t1 ++ acts_of a t2.
Proof. apply omap_app. Qed.

Lemma acts_of_snoc_same a t x : acts_of a (t ++ [(a, x)]) = acts_of a t ++ [x].
Proof.
  rewrite acts_of_app. f_equal. unfold acts_of. simpl.
  destruct (decide (a = a)); [reflexivity | congruence].
Qed.

Lemma acts_of_snoc_other a b t x :
  a <> b -> acts_of a (t ++ [(b, x)]) = acts_of a t.
Proof.
  intros Hne. rewrite acts_of_app. unfold acts_of at 2. simpl.
  destruct (decide (b = a)); [congruence | apply app_nil_r].
Qed.

Lemma iterations_S_end k id :
  iterations (S k) id = iterations k id ++ iteration id.
Proof.
  unfold iterations. rewrite replicate_S_end, concat_app. reflexivity.
Qed.

Lemma spawns_S k : spawns (S k) = spawns k ++ spawn k.
Proof.
  unfold spawns. rewrite seq_S, flat_map_app. reflexivity.
Qed.

Lemma joins_S j : joins (S j) = joins j ++ [Join (Z.of_nat j)].
Proof. unfold joins. now rewrite seq_S, map_app. Qed.

Lemma worker_step_hist ids slot w w' a :
  worker_ok slot w ->
  ids !! slot = Some (Some (Z.of_nat slot + 1)) ->
  worker_step ids w = Some (w', a) ->
  worker_hist slot w' = worker_hist slot w ++ [a].
Proof.
  intros Hok Hid Hst. destruct w as [arg|num i|num i| |r]; simpl in *.
  - destruct (load ids arg) as [v|] eqn:E; [|discriminate].
    injection Hst as <- <-. subst arg. apply load_Some in E as [_ E].
    rewrite Nat2Z.id, Hid in E. now injection E as <-.
  - destruct Hok as [-> Hi]. destruct (i <? 5) eqn:E; injection Hst as <- <-.
    + reflexivity.
    + assert (i = 5) as -> by lia. reflexivity.
  - destruct Hok as [-> Hi]. injection Hst as <- <-. simpl.
    rewrite wrap8_small by lia.
    replace (Z.to_nat (i + 1)) with (S (Z.to_nat i)) by lia.
    rewrite iterations_S_end. unfold iteration. f_equal.
    now rewrite <- app_assoc.
  - injection Hst as <- <-. reflexivity.
  - discriminate.
Qed.

Lemma thread_step_Some slot s s' :
  thread_step slot s = Some s' ->
  exists w w' a,
    pool s !! slot = Some w /\ worker_step (thread_id s) w = Some (w', a) /\
    s' = {| pc := pc s; errno := errno s; thread_id := thread_id s;
            threads := threads s; pool := <[slot := w']> (pool s);
            trace := trace s ++ [(Thr slot, a)] |}.
Proof.
  unfold thread_step. intros H.
  destruct (pool s !! slot) as [w|]; [|discriminate].
  destruct (worker_step (thread_id s) w) as [[w' a]|] eqn:E; [|discriminate].
  injection H as <-. now exists w, w', a.
Qed.

Section History.

Variable n : Z.
Hypothesis n_range : 0 <= n < 65536.

Lemma init_hist_inv : hist_inv (init n).
Proof. split; simpl; [reflexivity | intros [|i] w H; discriminate | reflexivity]. Qed.

Lemma thread_step_hist_inv slot s s' :
  state_inv n s -> hist_inv s -> thread_step slot s = Some s' -> hist_inv s'.
Proof.
  intros Hinv [Hm Hw Hno] Hst.
  apply thread_step_Some in Hst as (w & w' & a & Ew & Es & ->).
  pose proof (lookup_lt_Some _ _ _ Ew) as Hlt.
  split; simpl.
  - rewrite length_insert, acts_of_snoc_other by discriminate. assumption.
  - intros i w0 H0. destruct (decide (i = slot)) as [->|Hne].
    + rewrite list_lookup_insert_eq in H0 by assumption. injection H0 as <-.
      rewrite acts_of_snoc_same, (Hw _ _ Ew). symmetry.
      eapply worker_step_hist; eauto.
      * eapply workers_ok; eauto.
      * now apply (slots_ok _ _ Hinv).
    + rewrite list_lookup_insert_ne in H0 by congruence.
      rewrite acts_of_snoc_other by congruence. now apply Hw.
  - intros i Hi. rewrite length_insert in Hi.
    rewrite acts_of_snoc_other by (intros [= ->]; lia). now apply Hno.
Qed.

Lemma goto_hist_inv p a s :
  hist_inv s ->
  main_hist p (length (pool s)) (errno s) (acts_of Main (trace s) ++ [a]) ->
  hist_inv (goto p a s).
Proof.
  intros [Hm Hw Hno] H. split; simpl.
  - now rewrite acts_of_snoc_same.
  - intros i w Hi. rewrite acts_of_snoc_other by discriminate. now apply Hw.
  - intros i Hi. rewrite acts_of_snoc_other by discriminate. now apply Hno.
Qed.

Lemma main_step_hist_inv r s s' :
  state_inv n s -> hist_inv s -> main_step n r s = Some s' -> hist_inv s'.
Proof.
  intros [Hl1 Hl2 Hsl Hwk Hpc] Hh Hst. pose proof Hh as [Hm Hw Hno].
  unfold main_step in Hst. unfold main_ok in Hpc.
  destruct (pc s) as [|k|k| |rc|j|rc] eqn:Epc; unfold main_hist in Hm.
  - injection Hst as <-. apply goto_hist_inv; [assumption|].
    rewrite Hm. simpl. replace (length (pool s)) with 0%nat by lia.
    reflexivity.
  - destruct Hpc as [Hk Hkn]. destruct (k <? n) eqn:Ek.
    + destruct (store (thread_id s) k (wrap16 (k + 1))) as [ids|] eqn:Est;
        [|discriminate].
      injection Hst as <-. rewrite wrap16_small by lia.
      split; simpl.
      * rewrite acts_of_snoc_same, Hm, Hk. reflexivity.
      * intros i w Hi. rewrite acts_of_snoc_other by discriminate. now apply Hw.
      * intros i Hi. rewrite acts_of_snoc_other by discriminate. now apply Hno.
    + injection Hst as <-. apply goto_hist_inv; [assumption|].
      rewrite Hm. reflexivity.
  - destruct Hpc as (Hk & Hkn & Hid). destruct (create_ret r =? 0) eqn:Er.
    + destruct (store (threads s) k (length (pool s))) as [hs|] eqn:Est;
        [|discriminate].
      injection Hst as <-. split; simpl.
      * rewrite acts_of_snoc_same, Hm, length_app. simpl.
        rewrite Nat.add_1_r. unfold launched. rewrite spawns_S. unfold spawn.
        simpl. rewrite <- app_assoc. simpl. now rewrite Hk.
      * intros i w Hi. rewrite acts_of_snoc_other by discriminate.
        apply lookup_app_Some in Hi as [Hi|[Hge Hi]]; [now apply Hw|].
        apply list_lookup_singleton_Some in Hi as [Hz <-]. simpl.
        apply Hno. lia.
      * intros i Hi. rewrite acts_of_snoc_other by discriminate.
        rewrite length_app in Hi. simpl in Hi. apply Hno. lia.
    + injection Hst as <-. split; simpl.
      * rewrite acts_of_snoc_same, Hm. exists (create_ret r).
        split; [lia|]. unfold failing. rewrite <- app_assoc. simpl.
        now rewrite Hk.
      * intros i w Hi. rewrite acts_of_snoc_other by discriminate. now apply Hw.
      * intros i Hi. rewrite acts_of_snoc_other by discriminate. now apply Hno.
  - injection Hst as <-. apply goto_hist_inv; [assumption|].
    destruct Hm as (ret & Hret & ->). simpl. now exists ret.
  - injection Hst as <-. apply goto_hist_inv; [assumption|].
    simpl. destruct (rc =? 0).
    + rewrite Hm, <- app_assoc. reflexivity.
    + destruct Hm as (ret & Hret & ->). exists ret. split; [assumption|].
      now rewrite <- app_assoc.
  - destruct Hpc as (Hc & Hj & Hdone). destruct (j <? n) eqn:Ej.
    + destruct (load (threads s) j) as [h|] eqn:Eh; [|discriminate].
      destruct (pool s !! h) as [w|] eqn:Eph; [|discriminate].
      destruct w as [?|? ?|? ?| |ret]; try discriminate.
      injection Hst as <-. apply goto_hist_inv; [assumption|].
      simpl. rewrite wrap16_small by lia. rewrite Hm.
      replace (Z.to_nat (j + 1)) with (S (Z.to_nat j)) by lia.
      unfold joined. rewrite joins_S, Z2Nat.id by lia.
      now rewrite <- app_assoc.
    + injection Hst as <-. apply goto_hist_inv; [assumption|].
      simpl. rewrite Hm. replace (Z.to_nat j) with (length (pool s)) by lia.
      reflexivity.
  - discriminate.
Qed.

Lemma reachable_inv s : reachable n s -> state_inv n s /\ hist_inv s.
Proof.
  revert s. apply (reachable_ind' n (fun s => state_inv n s /\ hist_inv s)).
  - split; [now apply init_state_inv | apply init_hist_inv].
  - intros c s0 s' _ [Hs Hh] Hst.
    split; [eapply step_state_inv; eauto|].
    unfold step in Hst. destruct (exited s0); [discriminate|].
    destruct c as [r|slot].
    + eapply main_step_hist_inv; eauto.
    + eapply thread_step_hist_inv; eauto.
Qed.

End History.

(** ** Every step adds exactly one entry to the history *)

Lemma main_step_trace n r s s' :
  main_step n r s = Some s' -> exists a, trace s' = trace s ++ [(Main, a)].
Proof.
  unfold main_step. intros H.
  destruct (pc s) as [|k|k| |rc|j|rc].
  - injection H as <-. now eexists.
  - destruct (k <? n).
    + destruct (store _ _ _); [|discriminate]. injection H as <-. now eexists.
    + injection H as <-. now eexists.
  - destruct (create_ret r =? 0).
    + destruct (store _ _ _); [|discriminate]. injection H as <-. now eexists.
    + injection H as <-. now eexists.
  - injection H as <-. now eexists.
  - injection H as <-. now eexists.
  - destruct (j <? n).
    + destruct (load _ _); [|discriminate].
      destruct (pool s !! _) as [[?|? ?|? ?| |?]|]; try discriminate.
      injection H as <-. now eexists.
    + injection H as <-. now eexists.
  - discriminate.
Qed.

Lemma step_trace n c s s' :
  step n c s = Some s' -> exists a, trace s' = trace s ++ [(actor_of c, a)].
Proof.
  unfold step. destruct (exited s); [discriminate|]. destruct c as [r|slot].
  - apply main_step_trace.
  - intros H. apply thread_step_Some in H as (w & w' & a & _ & _ & ->).
    now exists a.
Qed.

Lemma run_trace n sch s s' :
  run n sch s = Some s' ->
  exists t, trace s' = trace s ++ t /\ length t = length sch.
Proof.
  revert s. induction sch as [|c sch IH]; intros s H; simpl in H.
  - injection H as <-. exists []. now rewrite app_nil_r.
  - destruct (step n c s) as [s1|] eqn:E; [|discriminate].
    apply step_trace in E as [a Ea]. apply IH in H as (t & Ht & Hlen).
    exists ((actor_of c, a) :: t). rewrite Ht, Ea, <- app_assoc.
    split; [reflexivity | simpl; now rewrite Hlen].
Qed.

(** An entry of the history is the trace of one step of the run: the run
    splits there. *)
Lemma run_split n sch s0 s t1 e t2 :
  run n sch s0 = Some s ->
  trace s = trace s0 ++ t1 ++ e :: t2 ->
  exists sch1 c sch2 s1 s2,
    sch = sch1 ++ c :: sch2 /\
    run n sch1 s0 = Some s1 /\ trace s1 = trace s0 ++ t1 /\
    step n c s1 = Some s2 /\ trace s2 = trace s1 ++ [e] /\
    run n sch2 s2 = Some s.
Proof.
  revert s0 t1. induction sch as [|c sch IH]; intros s0 t1 Hrun Ht.
  - simpl in Hrun. injection Hrun as <-.
    apply (f_equal length) in Ht. rewrite !length_app in Ht. simpl in Ht. lia.
  - simpl in Hrun. destruct (step n c s0) as [s0'|] eqn:E; [|discriminate].
    pose proof (step_trace _ _ _ _ E) as [a Ea].
    pose proof (run_trace _ _ _ _ Hrun) as (t & Htr & _).
    rewrite Htr, Ea, <- app_assoc in Ht. apply app_inv_head in Ht.
    destruct t1 as [|e1 t1]; simpl in Ht.
    + injection Ht as He Ht2. subst e.
      exists [], c, sch, s0, s0'. simpl. rewrite app_nil_r, E.
      repeat split; [assumption | assumption].
    + injection Ht as He Ht2. subst e1.
      destruct (IH s0' t1 Hrun) as (sch1 & c' & sch2 & s1 & s2 & H).
      { rewrite Htr. now f_equal. }
      destruct H as (-> & H1 & H2 & H3 & H4 & H5).
      exists (c :: sch1), c', sch2, s1, s2. simpl. rewrite E.
      repeat split; try assumption.
      rewrite H2, Ea, <- app_assoc. reflexivity.
Qed.

Lemma launch_split n sch s t1 e t2 :
  launch n sch = Some s -> trace s = t1 ++ e :: t2 ->
  exists c s1 s2,
    reachable n s1 /\ trace s1 = t1 /\
    step n c s1 = Some s2 /\ trace s2 = t1 ++ [e] /\
    exists sch2, run n sch2 s2 = Some s.
Proof.
  intros Hrun Ht.
  destruct (run_split n sch (init n) s t1 e t2 Hrun Ht)
    as (sch1 & c & sch2 & s1 & s2 & -> & H1 & H2 & H3 & H4 & H5).
  simpl in H2. exists c, s1, s2. rewrite H4, H2.
  repeat split; try assumption; [now exists sch1 | now exists sch2].
Qed.

Lemma acts_of_In a x t : In x (acts_of a t) <-> In (a, x) t.
Proof.
  rewrite <- !list_elem_of_In. unfold acts_of. rewrite list_elem_of_omap.
  split.
  - intros ([b y] & Hin & H). simpl in H.
    destruct (decide (b = a)) as [->|]; [|discriminate].
    now injection H as <-.
  - intros Hin. exists (a, x). split; [assumption|]. simpl.
    destruct (decide (a = a)); [reflexivity | congruence].
Qed.

Lemma step_actor n c s s' e :
  step n c s = Some s' -> trace s' = trace s ++ [e] -> e.1 = actor_of c.
Proof.
  intros H Ht. apply step_trace in H as [a Ha]. rewrite Ha in Ht.
  apply app_inv_head in Ht. now injection Ht as <-.
Qed.

Lemma step_main n c s s' a :
  step n c s = Some s' -> trace s' = trace s ++ [(Main, a)] ->
  exists r, c = Run_main r /\ main_step n r s = Some s'.
Proof.
  intros H Ht. pose proof (step_actor _ _ _ _ _ H Ht) as Ha.
  destruct c as [r|slot]; [|discriminate]. exists r. split; [reflexivity|].
  unfold step in H. now destruct (exited s).
Qed.


(** Where [main] stands when it prints, calls [pthread_create] or comes
    back from [pthread_join]. *)
Lemma main_step_printf n r s s' text :
  main_step n r s = Some s' ->
  trace s' = trace s ++ [(Main, Printf text)] ->
  (pc s = M_start /\ text = creating_line) \/
  (exists k, pc s = M_spawn k /\ n <= k /\ text = waiting_line) \/
  (exists j, pc s = M_join j /\ n <= j /\ text = all_finished_line).
Proof.
  unfold main_step. intros H Ht.
  destruct (pc s) as [|k|k| |rc|j|rc].
  - injection H as <-. simpl in Ht. apply app_inv_head in Ht.
    injection Ht as <-. now left.
  - destruct (k <? n) eqn:Ek.
    + destruct (store _ _ _); [|discriminate]. injection H as <-.
      simpl in Ht. apply app_inv_head in Ht. discriminate.
    + injection H as <-. simpl in Ht. apply app_inv_head in Ht.
      injection Ht as <-. right. left. exists k. repeat split. lia.
  - destruct (create_ret r =? 0).
    + destruct (store _ _ _); [|discriminate]. injection H as <-.
      simpl in Ht. apply app_inv_head in Ht. discriminate.
    + injection H as <-. simpl in Ht. apply app_inv_head in Ht. discriminate.
  - injection H as <-. simpl in Ht. apply app_inv_head in Ht. discriminate.
  - injection H as <-. simpl in Ht. apply app_inv_head in Ht. discriminate.
  - destruct (j <? n) eqn:Ej.
    + destruct (load _ _); [|discriminate].
      destruct (pool s !! _) as [[?|? ?|? ?| |?]|]; try discriminate.
      injection H as <-. simpl in Ht. apply app_inv_head in Ht. discriminate.
    + injection H as <-. simpl in Ht. apply app_inv_head in Ht.
      injection Ht as <-. right. right. exists j. repeat split. lia.
  - discriminate.
Qed.

Lemma main_step_create n r s s' k ret :
  main_step n r s = Some s' ->
  trace s' = trace s ++ [(Main, Create k ret)] ->
  pc s = M_create k /\
  ((ret = 0 /\ create_ret r = 0 /\ pc s' = M_spawn (wrap16 (k + 1)) /\
    pool s' = pool s ++ [W_entry k]) \/
   (ret <> 0 /\ create_ret r = ret /\ pc s' = M_perror /\
    errno s' = create_errno r /\ pool s' = pool s)).
Proof.
  unfold main_step. intros H Ht.
  destruct (pc s) as [|k'|k'| |rc|j|rc].
  - injection H as <-. simpl in Ht. apply app_inv_head in Ht. discriminate.
  - destruct (k' <? n) eqn:Ek.
    + destruct (store _ _ _); [|discriminate]. injection H as <-.
      simpl in Ht. apply app_inv_head in Ht. discriminate.
    + injection H as <-. simpl in Ht. apply app_inv_head in Ht. discriminate.
  - destruct (create_ret r =? 0) eqn:Er.
    + destruct (store _ _ _); [|discriminate]. injection H as <-.
      simpl in Ht. apply app_inv_head in Ht. injection Ht as <- <-.
      split; [reflexivity|]. left. simpl. repeat split. lia.
    + injection H as <-. simpl in Ht. apply app_inv_head in Ht.
      injection Ht as <- <-. split; [reflexivity|]. right. simpl.
      repeat split. lia.
  - injection H as <-. simpl in Ht. apply app_inv_head in Ht. discriminate.
  - injection H as <-. simpl in Ht. apply app_inv_head in Ht. discriminate.
  - destruct (j <? n) eqn:Ej.
    + destruct (load _ _); [|discriminate].
      destruct (pool s !! _) as [[?|? ?|? ?| |?]|]; try discriminate.
      injection H as <-. simpl in Ht. apply app_inv_head in Ht. discriminate.
    + injection H as <-. simpl in Ht. apply app_inv_head in Ht. discriminate.
  - discriminate.
Qed.

Lemma joins_In i j : (i < j)%nat -> In (Join (Z.of_nat i)) (joins j).
Proof.
  intros H. unfold joins. apply in_map_iff. exists i. split; [reflexivity|].
  apply in_seq. lia.
Qed.


Lemma thread_step_done slot s :
  all_done (pool s) -> thread_step slot s = None.
Proof.
  intros Hd. unfold thread_step. destruct (pool s !! slot) as [w|] eqn:E;
    [|reflexivity].
  now rewrite (Hd _ _ E).
Qed.

(** Once [main] is about to return 0, only [main] can still run, and only
    once. *)
Lemma run_after_success n sch s s' :
  pc s = M_return 0 -> all_done (pool s) -> run n sch s = Some s' ->
  s' = s \/ s' = goto (M_exit 0) (Return 0) s.
Proof.
  intros Hpc Hd Hrun. destruct sch as [|c sch]; simpl in Hrun.
  - injection Hrun as <-. now left.
  - right. unfold step in Hrun. unfold exited in Hrun. rewrite Hpc in Hrun.
    destruct c as [r|slot].
    + unfold main_step in Hrun. rewrite Hpc in Hrun.
      destruct sch as [|c' sch]; simpl in Hrun; [now injection Hrun as <-|].
      discriminate.
    + now rewrite thread_step_done in Hrun.
Qed.

Section Ordering.

Variable n : Z.
Hypothesis n_range : 0 <= n < 65536.

(** The state in which [main] prints its last line. *)
Lemma before_all_finished c s1 s2 :
  reachable n s1 -> step n c s1 = Some s2 ->
  trace s2 = trace s1 ++ [(Main, Printf all_finished_line)] ->
  pc s1 = M_join n /\ pc s2 = M_return 0 /\ pool s2 = pool s1 /\
  Z.of_nat (length (pool s1)) = n /\ all_done (pool s1).
Proof.
  intros Hr Hst Ht. destruct (step_main _ _ _ _ _ Hst Ht) as (r & -> & Hm).
  destruct (reachable_inv n n_range _ Hr) as [[_ _ _ _ Hpc] _].
  destruct (main_step_printf _ _ _ _ _ Hm Ht)
    as [[_ H]|[(k & _ & _ & H)|(j & Hj & Hnj & _)]];
    [discriminate H ..|].
  unfold main_ok in Hpc. rewrite Hj in Hpc. destruct Hpc as (Hc & Hjn & Hd).
  assert (j = n) as -> by lia.
  unfold main_step in Hm. rewrite Hj in Hm.
  destruct (n <? n) eqn:E; [lia|]. injection Hm as <-. simpl.
  repeat split; try assumption.
  intros i w Hi. pose proof (lookup_lt_Some _ _ _ Hi) as Hlt.
  rewrite Hd in Hi by lia. congruence.
Qed.

End Ordering.


(** ** Termination *)

Lemma sum_fuel_insert (p : list worker_pc) i w w' :
  p !! i = Some w ->
  (sum_list_with worker_fuel (<[i := w']> p) + worker_fuel w =
   sum_list_with worker_fuel p + worker_fuel w')%nat.
Proof.
  revert i. induction p as [|x p IH]; intros [|i] H; try discriminate.
  - injection H as ->. simpl. lia.
  - simpl in H. specialize (IH i H). simpl. lia.
Qed.

Lemma worker_step_fuel ids slot w w' a :
  worker_ok slot w -> ids !! slot = Some (Some (Z.of_nat slot + 1)) ->
  worker_step ids w = Some (w', a) ->
  (worker_fuel w = S (worker_fuel w'))%nat.
Proof.
  intros Hok Hid Hst. destruct w as [arg|num i|num i| |r]; simpl in *.
  - destruct (load ids arg) as [v|]; [|discriminate].
    now injection Hst as <- <-.
  - destruct Hok as [_ Hi]. destruct (i <? 5) eqn:E; injection Hst as <- <-;
      simpl; lia.
  - destruct Hok as [_ Hi]. injection Hst as <- <-. simpl.
    rewrite wrap8_small by lia. lia.
  - now injection Hst as <- <-.
  - discriminate.
Qed.

Section Termination.

Variable n : Z.
Hypothesis n_range : 0 <= n < 65536.

Lemma step_measure c s s' :
  state_inv n s -> step n c s = Some s' -> (measure n s' < measure n s)%nat.
Proof.
  intros [Hl1 Hl2 Hsl Hwk Hpc] Hst. unfold step in Hst.
  destruct (exited s); [discriminate|]. destruct c as [r|slot].
  - unfold main_step in Hst. unfold main_ok in Hpc. unfold measure.
    destruct (pc s) as [|k|k| |rc|j|rc] eqn:Epc.
    + injection Hst as <-. simpl. lia.
    + destruct Hpc as [Hk Hkn]. destruct (k <? n) eqn:Ek.
      * destruct (store _ _ _); [|discriminate]. injection Hst as <-.
        simpl. lia.
      * injection Hst as <-. simpl. lia.
    + destruct Hpc as (Hk & Hkn & _). destruct (create_ret r =? 0).
      * destruct (store _ _ _); [|discriminate]. injection Hst as <-.
        simpl. rewrite wrap16_small by lia.
        rewrite sum_list_with_app, length_app. simpl. lia.
      * injection Hst as <-. simpl. lia.
    + injection Hst as <-. simpl. lia.
    + injection Hst as <-. simpl. lia.
    + destruct Hpc as (Hc & Hj & _). destruct (j <? n) eqn:Ej.
      * destruct (load _ _); [|discriminate].
        destruct (pool s !! _) as [[?|? ?|? ?| |?]|]; try discriminate.
        injection Hst as <-. simpl. rewrite wrap16_small by lia. lia.
      * injection Hst as <-. simpl. lia.
    + discriminate.
  - apply thread_step_Some in Hst as (w & w' & a & Ew & Es & ->).
    pose proof (lookup_lt_Some _ _ _ Ew) as Hlt.
    pose proof (worker_step_fuel _ _ _ _ _ (Hwk _ _ Ew) (proj1 (Hsl _ Hlt)) Es).
    pose proof (sum_fuel_insert _ _ _ w' Ew).
    unfold measure. simpl. rewrite length_insert. lia.
Qed.

Lemma run_measure sch s s' :
  reachable n s -> run n sch s = Some s' ->
  (length sch + measure n s' <= measure n s)%nat.
Proof.
  revert s. induction sch as [|c sch IH]; intros s Hr Hrun; simpl in Hrun.
  - injection Hrun as <-. simpl. lia.
  - destruct (step n c s) as [s1|] eqn:E; [|discriminate].
    pose proof (reachable_state_inv n n_range _ Hr) as Hinv.
    pose proof (step_measure _ _ _ Hinv E).
    pose proof (IH _ (reachable_step _ _ _ _ Hr E) Hrun). simpl. lia.
Qed.

(** No run of the launcher is longer than [16 * n + 4] steps. *)
Lemma launch_bounded sch s :
  launch n sch = Some s -> (length sch + measure n s <= 16 * Z.to_nat n + 4)%nat.
Proof.
  intros Hrun. pose proof (run_measure _ _ _ (reachable_init n) Hrun) as H.
  unfold measure at 2 in H. simpl in H. lia.
Qed.

(** A worker that has not returned can always take a step. *)
Lemma worker_enabled s slot w :
  reachable n s -> exited s = false -> pool s !! slot = Some w ->
  (forall ret, w <> W_done ret) -> is_Some (step n (Run_thread slot) s).
Proof.
  intros Hr Hex Hw Hnd.
  destruct (reachable_state_inv n n_range _ Hr) as [Hl1 Hl2 Hsl Hwk Hpc].
  pose proof (lookup_lt_Some _ _ _ Hw) as Hlt.
  unfold step. rewrite Hex. unfold thread_step. rewrite Hw.
  destruct w as [arg|num i|num i| |r]; simpl.
  - pose proof (Hwk _ _ Hw) as Hok. simpl in Hok. subst arg.
    assert (load (thread_id s) (Z.of_nat slot) = Some (Z.of_nat slot + 1)) as ->.
    { apply load_Some. split; [lia|]. rewrite Nat2Z.id. now apply Hsl. }
    now eexists.
  - destruct (i <? 5); now eexists.
  - now eexists.
  - now eexists.
  - now destruct (Hnd r).
Qed.

(** [main] can take a step unless it waits in [pthread_join] for a
    worker that has not returned. *)
Lemma main_enabled s r :
  reachable n s -> exited s = false ->
  is_Some (step n (Run_main r) s) \/
  exists j w, pc s = M_join j /\ 0 <= j < n /\
    pool s !! Z.to_nat j = Some w /\ forall ret, w <> W_done ret.
Proof.
  intros Hr Hex.
  destruct (reachable_state_inv n n_range _ Hr) as [Hl1 Hl2 Hsl Hwk Hpc].
  unfold step. rewrite Hex. unfold main_step. unfold main_ok in Hpc.
  unfold exited in Hex.
  destruct (pc s) as [|k|k| |rc|j|rc] eqn:Epc; try discriminate.
  - left. now eexists.
  - left. destruct Hpc as [Hk Hkn]. destruct (k <? n) eqn:Ek; [|now eexists].
    rewrite store_in_bounds by lia. now eexists.
  - left. destruct Hpc as (Hk & Hkn & _).
    destruct (create_ret r =? 0); [|now eexists].
    rewrite store_in_bounds by lia. now eexists.
  - left. now eexists.
  - left. now eexists.
  - destruct Hpc as (Hc & Hj & Hd). destruct (j <? n) eqn:Ej; [|left; now eexists].
    assert (Hlt : (Z.to_nat j < length (pool s))%nat) by lia.
    assert (load (threads s) j = Some (Z.to_nat j)) as ->.
    { apply load_Some. split; [lia|]. now apply Hsl. }
    assert (is_Some (pool s !! Z.to_nat j)) as [w Hw]
      by now apply lookup_lt_is_Some_2.
    rewrite Hw. destruct w as [arg|num i|num i| |ret];
      try (right; exists j; eexists; repeat split;
           [lia | lia | exact Hw | discriminate]).
    left. now eexists.
Qed.

(** A process that has not exited is never stuck. *)
Lemma progress s :
  reachable n s -> exited s = false -> exists c, is_Some (step n c s).
Proof.
  intros Hr Hex. destruct (main_enabled s (Reply 0 0) Hr Hex)
    as [H|(j & w & _ & _ & Hw & Hnd)].
  - now exists (Run_main (Reply 0 0)).
  - exists (Run_thread (Z.to_nat j)). eapply worker_enabled; eauto.
Qed.

End Termination.

(** ** The lines tell the workers apart *)

Lemma format_d_inj a b : format_d a = format_d b -> a = b.
Proof.
  unfold format_d. intros H.
  assert (Hi : forall z,
             NilZero.int_of_string (NilZero.string_of_int (Z.to_int z))
             = Some (Z.to_int z)).
  { intros z. apply NilZero.isi; destruct z as [|p|p]; try discriminate;
      unfold Z.to_int; intros [= Hp];
      now apply (DecimalPos.Unsigned.to_uint_nonnil p). }
  apply (f_equal NilZero.int_of_string) in H. rewrite !Hi in H.
  injection H as H. now apply DecimalZ.to_int_inj.
Qed.

Lemma list_ascii_app s1 s2 :
  list_ascii_of_string (s1 ++ s2)%string
  = list_ascii_of_string s1 ++ list_ascii_of_string s2.
Proof. induction s1 as [|c s1 IH]; simpl; [reflexivity | now rewrite IH]. Qed.

Lemma list_ascii_inj s1 s2 :
  list_ascii_of_string s1 = list_ascii_of_string s2 -> s1 = s2.
Proof.
  intros H. apply (f_equal string_of_list_ascii) in H.
  now rewrite !string_of_list_ascii_of_string in H.
Qed.

Lemma append_inv_tail a b s : (a ++ s)%string = (b ++ s)%string -> a = b.
Proof.
  intros H. apply list_ascii_inj. apply (f_equal list_ascii_of_string) in H.
  rewrite !list_ascii_app in H. now apply app_inv_tail in H.
Qed.

Lemma running_line_inj a b : running_line a = running_line b -> a = b.
Proof.
  unfold running_line. intros H. simpl in H. injection H as H.
  apply append_inv_tail in H. now apply format_d_inj.
Qed.

Lemma finished_line_inj a b : finished_line a = finished_line b -> a = b.
Proof.
  unfold finished_line. intros H. simpl in H. injection H as H.
  apply append_inv_tail in H. now apply format_d_inj.
Qed.

Lemma running_not_finished a b : running_line a <> finished_line b.
Proof.
  unfold running_line, finished_line. intros H. simpl in H. injection H as H.
  apply (f_equal list_ascii_of_string) in H. rewrite !list_ascii_app in H.
  apply (f_equal (@rev ascii)) in H. rewrite !rev_app_distr in H.
  simpl in H. discriminate.
Qed.

Lemma main_line_not_running x id : In x main_lines -> x <> running_line id.
Proof. intros [<-|[<-|[<-|[]]]]; discriminate. Qed.

Lemma main_line_not_finished x id : In x main_lines -> x <> finished_line id.
Proof. intros [<-|[<-|[<-|[]]]]; discriminate. Qed.

(** ** Counting lines on the standard output *)

Lemma stdout_app t1 t2 : stdout (t1 ++ t2) = stdout t1 ++ stdout t2.
Proof. apply omap_app. Qed.

Lemma stdout_snoc t a x :
  stdout (t ++ [(a, x)]) = stdout t ++ option_list' (printed x).
Proof. rewrite stdout_app. f_equal. Qed.

Lemma count_line_app x l1 l2 :
  count_line x (l1 ++ l2) = (count_line x l1 + count_line x l2)%nat.
Proof. apply count_occ_app. Qed.

Lemma count_line_one x y :
  count_line x [y] = if string_dec y x then 1%nat else 0%nat.
Proof. unfold count_line. simpl. now destruct (string_dec y x). Qed.

Lemma count_line_same x : count_line x [x] = 1%nat.
Proof. rewrite count_line_one. destruct (string_dec x x); congruence. Qed.

Lemma count_line_other x y : y <> x -> count_line x [y] = 0%nat.
Proof. intros H. rewrite count_line_one. destruct (string_dec y x); congruence. Qed.

(** What one statement of the worker adds to the standard output. *)
Lemma worker_step_printed ids slot w w' a :
  worker_ok slot w -> ids !! slot = Some (Some (Z.of_nat slot + 1)) ->
  worker_step ids w = Some (w', a) ->
  (printed a = None /\
   worker_runs w' = worker_runs w /\ worker_fins w' = worker_fins w) \/
  (printed a = Some (running_line (Z.of_nat slot + 1)) /\
   worker_runs w' = S (worker_runs w) /\ worker_fins w' = worker_fins w) \/
  (printed a = Some (finished_line (Z.of_nat slot + 1)) /\
   worker_runs w' = worker_runs w /\ worker_fins w' = S (worker_fins w)).
Proof.
  intros Hok Hid Hst. destruct w as [arg|num i|num i| |r]; simpl in *.
  - destruct (load ids arg) as [v|]; [|discriminate].
    injection Hst as <- <-. now left.
  - destruct Hok as [-> Hi]. destruct (i <? 5) eqn:E; injection Hst as <- <-.
    + right. left. now repeat split.
    + right. right. simpl. repeat split. lia.
  - destruct Hok as [-> Hi]. injection Hst as <- <-. left. simpl.
    rewrite wrap8_small by lia. repeat split. lia.
  - injection Hst as <- <-. now left.
  - discriminate.
Qed.

(** What one statement of [main] adds to the standard output. *)
Lemma main_step_printed n r s s' :
  main_step n r s = Some s' ->
  exists a,
    trace s' = trace s ++ [(Main, a)] /\
    main_printed (pc s') = main_printed (pc s) ++ option_list' (printed a) /\
    (forall x, printed a = Some x -> In x main_lines) /\
    (pool s' = pool s \/ exists k, pool s' = pool s ++ [W_entry k]).
Proof.
  unfold main_step. intros H.
  destruct (pc s) as [|k|k| |rc|j|rc].
  - injection H as <-. eexists. simpl. repeat split; [|now left].
    intros x [= <-]. simpl. tauto.
  - destruct (k <? n).
    + destruct (store _ _ _); [|discriminate]. injection H as <-.
      eexists. simpl. repeat split; [discriminate | now left].
    + injection H as <-. eexists. simpl. repeat split; [|now left].
      intros x [= <-]. simpl. tauto.
  - destruct (create_ret r =? 0).
    + destruct (store _ _ _); [|discriminate]. injection H as <-.
      eexists. simpl. repeat split; [discriminate | right; now eexists].
    + injection H as <-. eexists. simpl.
      repeat split; [discriminate | now left].
  - injection H as <-. eexists. simpl. repeat split; [discriminate | now left].
  - injection H as <-. eexists. simpl. split; [reflexivity|].
    split; [now rewrite app_nil_r|]. split; [discriminate | now left].
  - destruct (j <? n).
    + destruct (load _ _); [|discriminate].
      destruct (pool s !! _) as [[?|? ?|? ?| |?]|]; try discriminate.
      injection H as <-. eexists. simpl.
      repeat split; [discriminate | now left].
    + injection H as <-. eexists. simpl. repeat split; [|now left].
      intros x [= <-]. simpl. tauto.
  - discriminate.
Qed.

Lemma worker_step_counts ids slot w w' a :
  worker_ok slot w -> ids !! slot = Some (Some (Z.of_nat slot + 1)) ->
  worker_step ids w = Some (w', a) ->
  exists dr df : nat,
    worker_runs w' = (worker_runs w + dr)%nat /\
    worker_fins w' = (worker_fins w + df)%nat /\
    (forall id, count_line (running_line id) (option_list' (printed a))
                = if decide (id = Z.of_nat slot + 1) then dr else 0%nat) /\
    (forall id, count_line (finished_line id) (option_list' (printed a))
                = if decide (id = Z.of_nat slot + 1) then df else 0%nat) /\
    (forall x, In x main_lines ->
               count_line x (option_list' (printed a)) = 0%nat).
Proof.
  intros Hok Hid Hst.
  destruct (worker_step_printed _ _ _ _ _ Hok Hid Hst)
    as [(-> & Hr & Hf)|[(-> & Hr & Hf)|(-> & Hr & Hf)]]; simpl.
  - exists 0%nat, 0%nat. repeat split; try lia;
      intros; now destruct (decide _).
  - exists 1%nat, 0%nat. repeat split; try lia.
    + intros id. destruct (decide _) as [->|Hne].
      * apply count_line_same.
      * apply count_line_other. intros H. apply running_line_inj in H. congruence.
    + intros id. rewrite count_line_other by apply running_not_finished.
      now destruct (decide _).
    + intros x Hx. apply count_line_other. intros H.
      symmetry in H. revert H. now apply main_line_not_running.
  - exists 0%nat, 1%nat. repeat split; try lia.
    + intros id. rewrite count_line_other.
      * now destruct (decide _).
      * intros H. symmetry in H. revert H. apply running_not_finished.
    + intros id. destruct (decide _) as [->|Hne].
      * apply count_line_same.
      * apply count_line_other. intros H. apply finished_line_inj in H. congruence.
    + intros x Hx. apply count_line_other. intros H.
      symmetry in H. revert H. now apply main_line_not_finished.
Qed.

Lemma main_output_counts (o : option string) id :
  (forall x, o = Some x -> In x main_lines) ->
  count_line (running_line id) (option_list' o) = 0%nat /\
  count_line (finished_line id) (option_list' o) = 0%nat.
Proof.
  intros H. destruct o as [x|]; simpl; [|now split].
  specialize (H x eq_refl). split; apply count_line_other.
  - now apply main_line_not_running.
  - now apply main_line_not_finished.
Qed.

Section Counting.

Variable n : Z.
Hypothesis n_range : 0 <= n < 65536.

Lemma init_count_inv : count_inv (init n).
Proof. split; simpl; [reflexivity | intros [|?] ? [=] | now split]. Qed.

Lemma main_step_count_inv r s s' :
  count_inv s -> main_step n r s = Some s' -> count_inv s'.
Proof.
  intros [Hm Hw Hno] Hst.
  destruct (main_step_printed _ _ _ _ Hst) as (a & Ht & Hp & Hin & Hpool).
  assert (Hlen : (length (pool s) <= length (pool s'))%nat).
  { destruct Hpool as [->|[k ->]]; [lia | rewrite length_app; lia]. }
  assert (Hnew : forall id, ~ (1 <= id <= Z.of_nat (length (pool s))) ->
    count_line (running_line id) (stdout (trace s')) = 0%nat /\
    count_line (finished_line id) (stdout (trace s')) = 0%nat).
  { intros id Hid. rewrite Ht, stdout_snoc, !count_line_app.
    destruct (Hno id Hid) as [-> ->].
    destruct (main_output_counts _ id Hin) as [-> ->]. now split. }
  split.
  - intros x Hx. rewrite Ht, stdout_snoc, Hp, !count_line_app.
    now rewrite Hm.
  - intros slot w Hsw. destruct (pool s !! slot) as [w0|] eqn:E.
    + assert (w = w0) as ->.
      { destruct Hpool as [Hq|[k Hq]]; rewrite Hq in Hsw.
        - congruence.
        - rewrite lookup_app_l in Hsw by (eapply lookup_lt_Some; eauto).
          congruence. }
      rewrite Ht, stdout_snoc, !count_line_app.
      destruct (Hw _ _ E) as [-> ->].
      destruct (main_output_counts _ (Z.of_nat slot + 1) Hin) as [-> ->].
      split; lia.
    + apply lookup_ge_None in E. destruct Hpool as [Hq|[k Hq]].
      * rewrite Hq in Hsw. apply lookup_lt_Some in Hsw. lia.
      * rewrite Hq in Hsw. apply lookup_app_Some in Hsw as [Hsw|[_ Hsw]].
        -- apply lookup_lt_Some in Hsw. lia.
        -- apply list_lookup_singleton_Some in Hsw as [_ <-]. simpl.
           apply Hnew. lia.
  - intros id Hid. apply Hnew. lia.
Qed.

Lemma thread_step_count_inv slot s s' :
  state_inv n s -> count_inv s -> thread_step slot s = Some s' -> count_inv s'.
Proof.
  intros Hinv [Hm Hw Hno] Hst.
  apply thread_step_Some in Hst as (w & w' & a & Ew & Es & ->).
  pose proof (lookup_lt_Some _ _ _ Ew) as Hlt.
  destruct (worker_step_counts _ _ _ _ _ (workers_ok _ _ Hinv _ _ Ew)
              (proj1 (slots_ok _ _ Hinv _ Hlt)) Es)
    as (dr & df & Hr & Hf & Hcr & Hcf & Hcm).
  split; simpl.
  - intros x Hx. rewrite stdout_snoc, count_line_app, (Hcm x Hx), (Hm x Hx). lia.
  - intros slot0 w0 H0. rewrite !stdout_snoc, !count_line_app, Hcr, Hcf.
    destruct (decide (slot0 = slot)) as [->|Hne].
    + rewrite list_lookup_insert_eq in H0 by assumption. injection H0 as <-.
      destruct (Hw _ _ Ew) as [-> ->].
      destruct (decide _); [|congruence]. split; lia.
    + rewrite list_lookup_insert_ne in H0 by congruence.
      destruct (Hw _ _ H0) as [-> ->].
      destruct (decide _); [lia|]. split; lia.
  - intros id Hid. rewrite length_insert in Hid.
    rewrite !stdout_snoc, !count_line_app, Hcr, Hcf.
    destruct (Hno id Hid) as [-> ->].
    destruct (decide _); [lia|]. now split.
Qed.

Lemma reachable_count_inv s : reachable n s -> count_inv s.
Proof.
  revert s. apply (reachable_ind' n count_inv); [apply init_count_inv|].
  intros c s0 s' Hr H Hst. unfold step in Hst.
  destruct (exited s0); [discriminate|]. destruct c as [r|slot].
  - eapply main_step_count_inv; eauto.
  - eapply thread_step_count_inv; eauto. now apply reachable_state_inv.
Qed.

End Counting.

(** ** [thread_func] on its own *)

(** Handed the address of a cell holding [id], [thread_func] makes the
    calls of [thread_func_calls] and returns, within 13 steps. *)
Lemma worker_run_total ids arg id fuel :
  load ids arg = Some id -> (13 <= fuel)%nat ->
  thread_func fuel ids arg = (thread_func_calls arg id, W_done NULL).
Proof.
  unfold thread_func.
  intros Hl Hf. do 13 (destruct fuel as [|fuel]; [lia|]).
  simpl. rewrite Hl. simpl. now destruct fuel.
Qed.

(** The numeral [%d] writes reads back as the number written. *)
Lemma read_format_d z : read_d (format_d z) = Some z.
Proof.
  unfold read_d, format_d. rewrite NilZero.isi.
  - simpl. f_equal. apply DecimalZ.of_to.
  - destruct z as [|p|p]; try discriminate. unfold Z.to_int. intros [= Hp].
    now apply (DecimalPos.Unsigned.to_uint_nonnil p).
  - destruct z as [|p|p]; try discriminate. unfold Z.to_int. intros [= Hp].
    now apply (DecimalPos.Unsigned.to_uint_nonnil p).
Qed.

(** C1: whatever identifier [id] its argument points to, [thread_func]
    reads it, then five times prints "Thread: id running" and calls
    [sleep(1)], then prints "Thread: id finished" once, and returns NULL;
    13 steps are enough for it to return.  The lines carry the
    identifier: each is the fixed text around one decimal numeral, which
    reads back as [id]; so the lines of different identifiers differ, and
    no "running" line is a "finished" line. *)
Theorem thread_func_five_iterations ids arg id fuel :
  load ids arg = Some id -> (13 <= fuel)%nat ->
  thread_func fuel ids arg =
    (LoadId arg id
       :: concat (replicate 5 [Printf (running_line id); Sleep 1])
       ++ [Printf (finished_line id); Return NULL],
     W_done NULL) /\
  (exists numeral,
     read_d numeral = Some id /\
     running_line id
     = String.append "Thread: "
         (String.append numeral (String.append " running" nl)) /\
     finished_line id
     = String.append "Thread: "
         (String.append numeral (String.append " finished" nl))) /\
  (forall id', running_line id' = running_line id -> id' = id) /\
  (forall id', finished_line id' = finished_line id -> id' = id) /\
  (forall id', running_line id' <> finished_line id).
Proof.
  intros Hl Hf. split.
  { now rewrite (worker_run_total ids arg id fuel Hl Hf). }
  split.
  { exists (format_d id). split; [apply read_format_d|].
    split; reflexivity. }
  split; [intros id'; apply running_line_inj|].
  split; [intros id'; apply finished_line_inj|].
  intros id'. apply running_not_finished.
Qed.

Lemma thread_func_five_iterations_witness :
  load [Some 1; Some 2; Some 3] 1 = Some 2 /\
  thread_func 13 [Some 1; Some 2; Some 3] 1 =
    (LoadId 1 2
       :: concat (replicate 5
            [Printf (String.append "Thread: 2 running"
                       (String (ascii_of_nat 10) EmptyString)); Sleep 1])
       ++ [Printf (String.append "Thread: 2 finished"
                     (String (ascii_of_nat 10) EmptyString)); Return NULL],
     W_done NULL) /\
  read_d "2" = Some 2.
Proof.
  assert (H : load [Some 1; Some 2; Some 3] 1 = Some 2) by reflexivity.
  destruct (thread_func_five_iterations [Some 1; Some 2; Some 3] 1 2 13
              H ltac:(lia)) as (H1 & _).
  split; [exact H|]. split; [exact H1 | reflexivity].
Defined.

(** ** How often the loops run *)

Lemma tally_app f h1 h2 : tally f (h1 ++ h2) = (tally f h1 + tally f h2)%nat.
Proof. unfold tally. now rewrite List.filter_app, length_app. Qed.

Lemma tally_spawns k :
  tally is_store (spawns k) = k /\ tally is_create (spawns k) = k /\
  tally is_join (spawns k) = 0%nat.
Proof.
  induction k as [|k (IH1 & IH2 & IH3)]; [now repeat split|].
  rewrite spawns_S, !tally_app, IH1, IH2, IH3. unfold tally. simpl.
  repeat split; lia.
Qed.

Lemma tally_joins j :
  tally is_store (joins j) = 0%nat /\ tally is_create (joins j) = 0%nat /\
  tally is_join (joins j) = j.
Proof.
  induction j as [|j (IH1 & IH2 & IH3)]; [now repeat split|].
  rewrite joins_S, !tally_app, IH1, IH2, IH3. unfold tally. simpl.
  repeat split; lia.
Qed.

Lemma tally_iterations k id : tally is_sleep (iterations k id) = k.
Proof.
  induction k as [|k IH]; [reflexivity|].
  rewrite iterations_S_end, tally_app, IH. unfold tally. simpl. lia.
Qed.

Lemma tally_cons f x h :
  tally f (x :: h) = ((if f x then 1 else 0) + tally f h)%nat.
Proof. unfold tally. simpl. now destruct (f x). Qed.

Lemma tally_nil f : tally f [] = 0%nat.
Proof. reflexivity. Qed.

Ltac tally_main :=
  unfold failing, joined, launched;
  repeat (rewrite ?tally_app, ?tally_cons, ?tally_nil);
  repeat match goal with
         | |- context [tally _ (spawns ?k)] =>
             let H1 := fresh in let H2 := fresh in let H3 := fresh in
             destruct (tally_spawns k) as (H1 & H2 & H3);
             rewrite ?H1, ?H2, ?H3; clear H1 H2 H3
         | |- context [tally _ (joins ?j)] =>
             let H1 := fresh in let H2 := fresh in let H3 := fresh in
             destruct (tally_joins j) as (H1 & H2 & H3);
             rewrite ?H1, ?H2, ?H3; clear H1 H2 H3
         end;
  simpl.

Section LoopBounds.

Variable n : Z.
Hypothesis n_range : 0 <= n < 65536.

Lemma main_loop_bounds s :
  reachable n s ->
  (tally is_store (acts_of Main (trace s)) <= Z.to_nat n)%nat /\
  (tally is_create (acts_of Main (trace s)) <= Z.to_nat n)%nat /\
  (tally is_join (acts_of Main (trace s)) <= Z.to_nat n)%nat.
Proof.
  intros Hr.
  destruct (reachable_inv n n_range _ Hr) as [[_ _ _ _ Hpc] [Hm _ _]].
  unfold main_ok in Hpc. unfold main_hist in Hm.
  destruct (pc s) as [|k|k| |rc|j|rc].
  - rewrite Hm. tally_main. lia.
  - rewrite Hm. tally_main. lia.
  - rewrite Hm. tally_main. lia.
  - destruct Hm as (ret & _ & ->). tally_main. lia.
  - destruct Hpc as [[-> Hc]|(-> & Hc & _)]; simpl in Hm.
    + destruct Hm as (ret & _ & ->). tally_main. lia.
    + rewrite Hm. tally_main. lia.
  - rewrite Hm. tally_main. lia.
  - destruct Hpc as [[-> Hc]|(-> & Hc & _)]; simpl in Hm.
    + destruct Hm as (ret & _ & ->). tally_main. lia.
    + rewrite Hm. tally_main. lia.
Qed.

Lemma worker_loop_bound s slot :
  reachable n s -> (tally is_sleep (acts_of (Thr slot) (trace s)) <= 5)%nat.
Proof.
  intros Hr.
  destruct (reachable_inv n n_range _ Hr) as [[_ _ _ Hwk _] [_ Hw Hno]].
  destruct (pool s !! slot) as [w|] eqn:E.
  - rewrite (Hw _ _ E). specialize (Hwk _ _ E).
    destruct w as [arg|num i|num i| |r]; unfold worker_hist, thread_func_calls;
      repeat (rewrite ?tally_app, ?tally_cons, ?tally_nil, ?tally_iterations);
      simpl in *; lia.
  - apply lookup_ge_None in E. rewrite (Hno _ E), tally_nil. lia.
Qed.

End LoopBounds.

Lemma worker_step_enabled ids slot w :
  worker_ok slot w -> ids !! slot = Some (Some (Z.of_nat slot + 1)) ->
  (forall ret, w <> W_done ret) -> is_Some (worker_step ids w).
Proof.
  intros Hok Hid Hnd. destruct w as [arg|num i|num i| |r]; simpl in *.
  - subst arg.
    assert (load ids (Z.of_nat slot) = Some (Z.of_nat slot + 1)) as ->.
    { apply load_Some. split; [lia|]. now rewrite Nat2Z.id. }
    now eexists.
  - destruct (i <? 5); now eexists.
  - now eexists.
  - now eexists.
  - now destruct (Hnd r).
Qed.

(** From wherever it stands, a worker returns NULL within [worker_fuel]
    steps. *)
Lemma worker_finishes ids slot w :
  worker_ok slot w -> ids !! slot = Some (Some (Z.of_nat slot + 1)) ->
  (worker_run (worker_fuel w) ids w).2 = W_done NULL.
Proof.
  intros Hok Hid. remember (worker_fuel w) as k eqn:Hk.
  revert w Hok Hk. induction k as [|k IH]; intros w Hok Hk.
  - destruct w as [arg|num i|num i| |r]; simpl in Hk; try lia.
    simpl in *. now subst r.
  - assert (Hnd : forall ret, w <> W_done ret).
    { intros ret ->. discriminate. }
    destruct (worker_step_enabled ids slot w Hok Hid Hnd) as [[w' a] Hs].
    pose proof (worker_step_fuel _ _ _ _ _ Hok Hid Hs) as Hf.
    pose proof (worker_step_ok _ _ _ _ _ Hok Hid Hs) as Hok'.
    simpl. rewrite Hs.
    specialize (IH w' Hok' ltac:(lia)).
    destruct (worker_run k ids w') as [acts w'']. exact IH.
Qed.

Section Finishing.

Variable n : Z.
Hypothesis n_range : 0 <= n < 65536.

(** From every reachable state the process can run until [main] has
    returned. *)
Lemma can_finish s :
  reachable n s -> exists sch' s', run n sch' s = Some s' /\ exited s' = true.
Proof.
  remember (measure n s) as m eqn:Hm. assert (Hle : (measure n s <= m)%nat) by lia.
  clear Hm. revert s Hle. induction m as [|m IH]; intros s Hle Hr.
  - destruct (exited s) eqn:Hex; [now exists [], s|].
    destruct (progress n n_range s Hr Hex) as [c [s1 Hs]].
    pose proof (step_measure n n_range _ _ _
                  (reachable_state_inv n n_range _ Hr) Hs). lia.
  - destruct (exited s) eqn:Hex; [now exists [], s|].
    destruct (progress n n_range s Hr Hex) as [c [s1 Hs]].
    pose proof (step_measure n n_range _ _ _
                  (reachable_state_inv n n_range _ Hr) Hs) as Hlt.
    destruct (IH s1 ltac:(lia) (reachable_step _ _ _ _ Hr Hs))
      as (sch' & s' & Hrun & Hex').
    exists (c :: sch'), s'. simpl. rewrite Hs. now split.
Qed.

(** C9: every loop terminates.  No run of the launcher, under any
    schedule, takes more than [16 * n + 4] steps; the loop of line 27 and
    the loop of line 39 are each entered at most [num_threads] times and
    the loop of [thread_func] at most 5 times per worker; run on its
    own [thread_func] returns within 13 steps whatever identifier it is
    handed, after exactly 5 calls of [sleep]; a worker of a run
    returns within its remaining fuel from wherever it stands; a process
    that has not exited can always take a step and can be run to the
    end; and [main] is only ever held up in [pthread_join], by a worker
    that has not returned yet and that can itself take a step. *)
Theorem every_loop_terminates sch s :
  launch n sch = Some s ->
  (length sch <= 16 * Z.to_nat n + 4)%nat /\
  (calls is_store Main (trace s) <= Z.to_nat n)%nat /\
  (calls is_join Main (trace s) <= Z.to_nat n)%nat /\
  (forall slot, (calls is_sleep (Thr slot) (trace s) <= 5)%nat) /\
  (forall ids arg id, load ids arg = Some id ->
     exists acts, thread_func 13 ids arg = (acts, W_done NULL) /\
                  tally is_sleep acts = 5%nat) /\
  (forall slot w, pool s !! slot = Some w ->
     (worker_fuel w <= 13)%nat /\
     (worker_run (worker_fuel w) (thread_id s) w).2 = W_done NULL) /\
  (exited s = false -> exists c, is_Some (step n c s)) /\
  (exists sch' s', run n sch' s = Some s' /\ exited s' = true) /\
  (forall r, exited s = false -> step n (Run_main r) s = None ->
     exists j w, pc s = M_join j /\ 0 <= j < n /\
       pool s !! Z.to_nat j = Some w /\ (forall ret, w <> W_done ret) /\
       is_Some (step n (Run_thread (Z.to_nat j)) s)).
Proof.
  intros Hrun. assert (Hr : reachable n s) by now exists sch.
  pose proof (reachable_state_inv n n_range _ Hr) as Hinv.
  destruct (main_loop_bounds n n_range s Hr) as (Hb1 & _ & Hb3).
  split; [pose proof (launch_bounded n n_range _ _ Hrun); lia|].
  split; [exact Hb1|]. split; [exact Hb3|].
  split; [intros slot; now apply (worker_loop_bound n n_range)|].
  split.
  { intros ids arg id Hl. exists (thread_func_calls arg id).
    split; [now apply worker_run_total|]. unfold thread_func_calls.
    now rewrite tally_cons, tally_app, tally_iterations. }
  split.
  { intros slot w Hw. pose proof (lookup_lt_Some _ _ _ Hw) as Hlt.
    pose proof (workers_ok _ _ Hinv _ _ Hw) as Hok. split.
    - destruct w as [arg|num i|num i| |r]; simpl in *; lia.
    - eapply worker_finishes; [exact Hok|]. now apply (slots_ok _ _ Hinv). }
  split; [now apply progress|]. split; [now apply can_finish|].
  intros r Hex Hnone.
  destruct (main_enabled n n_range s r Hr Hex)
    as [[s' Hs]|(j & w & Hj & Hjn & Hw & Hnd)]; [congruence|].
  exists j, w. repeat split; try assumption; try lia.
  eapply worker_enabled; eauto.
Qed.

End Finishing.

Lemma every_loop_terminates_witness :
  launch 3 sched_main_first = Some waiting_state /\
  (length sched_main_first <= 16 * Z.to_nat 3 + 4)%nat /\
  (calls is_store Main (trace waiting_state) <= Z.to_nat 3)%nat /\
  (exists sch' s', run 3 sch' waiting_state = Some s' /\ exited s' = true) /\
  (forall r, exited waiting_state = false ->
     step 3 (Run_main r) waiting_state = None ->
     exists j w, pc waiting_state = M_join j /\ 0 <= j < 3 /\
       pool waiting_state !! Z.to_nat j = Some w /\
       (forall ret, w <> W_done ret) /\
       is_Some (step 3 (Run_thread (Z.to_nat j)) waiting_state)).
Proof.
  assert (H : launch 3 sched_main_first = Some waiting_state) by reflexivity.
  pose proof (every_loop_terminates 3 ltac:(lia) sched_main_first
                waiting_state H) as (H1 & H2 & _ & _ & _ & _ & _ & H3 & H4).
  repeat split; assumption.
Defined.

(** ** The shape of a successful run *)



Section Success.

Variable n : Z.
Hypothesis n_range : 0 <= n < 65536.


(** A run that ends with [main] returning 0 ends with main's last line
    and its return. *)
Lemma success_tail sch s :
  launch n sch = Some s -> pc s = M_exit 0 ->
  exists s1, reachable n s1 /\ pc s1 = M_join n /\ all_done (pool s1) /\
    Z.of_nat (length (pool s1)) = n /\ pool s = pool s1 /\
    trace s = trace s1 ++ [(Main, Printf all_finished_line); (Main, Return 0)].
Proof.
  intros Hrun Hpc. assert (Hr : reachable n s) by now exists sch.
  destruct (reachable_inv n n_range _ Hr) as [_ [Hm _ _]].
  rewrite Hpc in Hm. unfold main_hist in Hm. rewrite Z.eqb_refl in Hm.
  assert (Hin : In (Main, Printf all_finished_line) (trace s)).
  { apply acts_of_In. rewrite Hm. apply in_or_app. right. now left. }
  apply in_split in Hin as (t1 & t2 & Ht).
  destruct (launch_split _ _ _ _ _ _ Hrun Ht)
    as (c & s1 & s2 & Hr1 & Ht1 & Hst & Ht2 & sch2 & Hrun2).
  rewrite <- Ht1 in Ht2.
  destruct (before_all_finished n n_range _ _ _ Hr1 Hst Ht2)
    as (Hpc1 & Hpc2 & Hpool & Hlen & Hd).
  exists s1. repeat split; try assumption.
  - rewrite <- Hpool in Hd.
    destruct (run_after_success _ _ _ _ Hpc2 Hd Hrun2) as [->| ->];
      [congruence | now simpl].
  - rewrite <- Hpool in Hd.
    destruct (run_after_success _ _ _ _ Hpc2 Hd Hrun2) as [->| ->];
      [congruence|].
    simpl. rewrite Ht2, <- app_assoc. reflexivity.
Qed.



End Success.

Section Barrier.

Variable n : Z.
Hypothesis n_range : 0 <= n < 65536.

(** C4: in every run of the launcher, whatever the interleaving, when
    [main] prints "All threads finished" every worker has already printed
    its own "finished" line, has returned, and has been joined; and no
    worker does anything afterwards.  On the standard output the line
    comes last, after the "finished" line of every worker, and it is not
    printed before. *)
Theorem all_finished_after_every_worker sch s t1 t2 :
  launch n sch = Some s ->
  trace s = t1 ++ (Main, Printf all_finished_line) :: t2 ->
  (forall slot, (slot < Z.to_nat n)%nat ->
     In (Thr slot, Printf (finished_line (Z.of_nat slot + 1))) t1 /\
     In (Thr slot, Return NULL) t1 /\
     In (Main, Join (Z.of_nat slot)) t1) /\
  (forall slot x, ~ In (Thr slot, x) t2) /\
  stdout (trace s) = stdout t1 ++ [all_finished_line] /\
  (forall slot, (slot < Z.to_nat n)%nat ->
     In (finished_line (Z.of_nat slot + 1)) (stdout t1)) /\
  ~ In all_finished_line (stdout t1).
Proof.
  intros Hrun Ht.
  destruct (launch_split _ _ _ _ _ _ Hrun Ht)
    as (c & s1 & s2 & Hr1 & Ht1 & Hst & Ht2 & sch2 & Hrun2).
  rewrite <- Ht1 in Ht2.
  destruct (before_all_finished n n_range _ _ _ Hr1 Hst Ht2)
    as (Hpc1 & Hpc2 & Hpool & Hlen & Hd).
  destruct (reachable_inv n n_range _ Hr1) as [_ [Hm Hw _]].
  assert (Hbefore : forall slot, (slot < Z.to_nat n)%nat ->
     In (Thr slot, Printf (finished_line (Z.of_nat slot + 1))) t1 /\
     In (Thr slot, Return NULL) t1 /\
     In (Main, Join (Z.of_nat slot)) t1).
  { intros slot Hslot.
    assert (is_Some (pool s1 !! slot)) as [w Hw1]
      by (apply lookup_lt_is_Some_2; lia).
    pose proof (Hd _ _ Hw1) as ->. apply Hw in Hw1. rewrite Ht1 in Hw1.
    rewrite Hpc1 in Hm. unfold main_hist in Hm. rewrite Ht1 in Hm.
    rewrite <- !acts_of_In, Hw1, Hm. unfold worker_hist, thread_func_calls.
    repeat split.
    + right. apply in_or_app. right. now left.
    + right. apply in_or_app. right. right. now left.
    + unfold joined. apply in_or_app. right. right. apply joins_In. lia. }
  assert (Hafter : t2 = [] \/ t2 = [(Main, Return 0)]).
  { rewrite <- Hpool in Hd.
    destruct (run_after_success _ _ _ _ Hpc2 Hd Hrun2) as [->| ->].
    + rewrite Ht2, Ht1 in Ht. apply app_inv_head in Ht.
      injection Ht as <-. now left.
    + simpl in Ht. rewrite Ht2, Ht1, <- app_assoc in Ht.
      apply app_inv_head in Ht. injection Ht as <-. now right. }
  split; [exact Hbefore|]. split.
  { intros slot x Hin. destruct Hafter as [-> | ->]; [destruct Hin|].
    destruct Hin as [H|[]]. discriminate. }
  split.
  { rewrite Ht, stdout_app.
    change ((Main, Printf all_finished_line) :: t2)
      with ([(Main, Printf all_finished_line)] ++ t2).
    rewrite stdout_app. destruct Hafter as [-> | ->]; reflexivity. }
  split.
  { intros slot Hslot. destruct (Hbefore slot Hslot) as [Hin _].
    apply list_elem_of_In. unfold stdout. apply list_elem_of_omap.
    eexists. split; [apply list_elem_of_In; exact Hin | reflexivity]. }
  apply (count_occ_not_In string_dec).
  change (count_line all_finished_line (stdout t1) = 0%nat).
  destruct (reachable_count_inv n n_range _ Hr1) as [Hcm _ _].
  rewrite <- Ht1, Hcm, Hpc1 by (simpl; tauto). reflexivity.
Qed.

End Barrier.

Lemma all_finished_after_every_worker_witness :
  launch 3 sched_round_robin = Some final_round_robin /\
  trace final_round_robin
  = take 50 (trace final_round_robin)
    ++ (Main, Printf all_finished_line) :: drop 51 (trace final_round_robin) /\
  (forall slot, (slot < Z.to_nat 3)%nat ->
     In (Thr slot, Printf (finished_line (Z.of_nat slot + 1)))
        (take 50 (trace final_round_robin)) /\
     In (Thr slot, Return NULL) (take 50 (trace final_round_robin)) /\
     In (Main, Join (Z.of_nat slot)) (take 50 (trace final_round_robin))) /\
  (forall slot x, ~ In (Thr slot, x) (drop 51 (trace final_round_robin))) /\
  stdout (trace final_round_robin)
  = stdout (take 50 (trace final_round_robin)) ++ [all_finished_line].
Proof.
  assert (H1 : launch 3 sched_round_robin = Some final_round_robin)
    by reflexivity.
  assert (H2 : trace final_round_robin
    = take 50 (trace final_round_robin)
      ++ (Main, Printf all_finished_line)
         :: drop 51 (trace final_round_robin)) by reflexivity.
  pose proof (all_finished_after_every_worker 3 ltac:(lia) sched_round_robin
                final_round_robin _ _ H1 H2) as (H3 & H4 & H5 & _).
  split; [exact H1|]. split; [exact H2|]. split; [exact H3|].
  split; [exact H4 | exact H5].
Defined.

Lemma allowed_mono k k' x : (k <= k')%nat -> allowed k x -> allowed k' x.
Proof.
  intros Hle [H|(slot & Hs & H)]; [now left|]. right. exists slot.
  split; [lia | assumption].
Qed.

Section Lines.

Variable n : Z.
Hypothesis n_range : 0 <= n < 65536.

Lemma reachable_lines s :
  reachable n s ->
  forall x, In x (stdout (trace s)) -> allowed (length (pool s)) x.
Proof.
  revert s. apply (reachable_ind' n
    (fun s => forall x, In x (stdout (trace s)) -> allowed (length (pool s)) x)).
  - intros x [].
  - intros c s s' Hr IH Hst x Hx.
    pose proof (reachable_state_inv n n_range _ Hr) as Hinv.
    unfold step in Hst. destruct (exited s); [discriminate|].
    destruct c as [r|slot].
    + destruct (main_step_printed _ _ _ _ Hst) as (a & Ht & _ & Hin & Hpool).
      assert (Hlen : (length (pool s) <= length (pool s'))%nat).
      { destruct Hpool as [->|[k ->]]; [lia | rewrite length_app; lia]. }
      rewrite Ht, stdout_snoc in Hx. apply in_app_or in Hx as [Hx|Hx].
      * eapply allowed_mono; eauto.
      * left. destruct (printed a) as [y|]; [|destruct Hx].
        destruct Hx as [<-|[]]. now apply Hin.
    + apply thread_step_Some in Hst as (w & w' & a & Ew & Es & ->).
      pose proof (lookup_lt_Some _ _ _ Ew) as Hlt.
      simpl in *. rewrite length_insert.
      rewrite stdout_snoc in Hx. apply in_app_or in Hx as [Hx|Hx];
        [now apply IH|].
      destruct (worker_step_printed _ _ _ _ _ (workers_ok _ _ Hinv _ _ Ew)
                  (proj1 (slots_ok _ _ Hinv _ Hlt)) Es)
        as [(Hp & _)|[(Hp & _)|(Hp & _)]]; rewrite Hp in Hx.
      * destruct Hx.
      * destruct Hx as [<-|[]]. right. exists slot. split; [lia | now left].
      * destruct Hx as [<-|[]]. right. exists slot. split; [lia | now right].
Qed.

End Lines.


(** The counts at the end of a run of [launch n] that returned 0. *)
Lemma success_counts n sch s :
  0 <= n < 65536 -> launch n sch = Some s -> pc s = M_exit 0 ->
  (forall x, In x main_lines -> count_line x (stdout (trace s)) = 1%nat) /\
  (forall slot, (slot < Z.to_nat n)%nat ->
     count_line (running_line (Z.of_nat slot + 1)) (stdout (trace s)) = 5%nat /\
     count_line (finished_line (Z.of_nat slot + 1)) (stdout (trace s)) = 1%nat).
Proof.
  intros Hn Hrun Hpc. assert (Hr : reachable n s) by now exists sch.
  destruct (reachable_count_inv n Hn _ Hr) as [Hm Hw _].
  destruct (success_tail n Hn _ _ Hrun Hpc)
    as (s1 & _ & _ & Hd & Hlen & Hpool & _).
  split.
  - intros x Hx. rewrite (Hm x Hx), Hpc.
    destruct Hx as [<-|[<-|[<-|[]]]]; reflexivity.
  - intros slot Hslot.
    assert (is_Some (pool s !! slot)) as [w Hsw]
      by (apply lookup_lt_is_Some_2; rewrite Hpool; lia).
    destruct (Hw _ _ Hsw) as [-> ->].
    rewrite Hpool in Hsw. now rewrite (Hd _ _ Hsw).
Qed.



(** ** A failing [pthread_create] *)

Lemma spawns_elem x k :
  In x (spawns k) ->
  exists i, (i < k)%nat /\
    (x = StoreId (Z.of_nat i) (Z.of_nat i + 1) \/ x = Create (Z.of_nat i) 0).
Proof.
  unfold spawns. rewrite in_flat_map. intros (i & Hi & Hx).
  apply in_seq in Hi. exists i. split; [lia|].
  destruct Hx as [<-|[<-|[]]]; tauto.
Qed.

Lemma joins_elem x j :
  In x (joins j) -> exists i, (i < j)%nat /\ x = Join (Z.of_nat i).
Proof.
  unfold joins. rewrite in_map_iff. intros (i & <- & Hi).
  apply in_seq in Hi. exists i. split; [lia | reflexivity].
Qed.

Lemma launched_elem x k :
  In x (launched k) ->
  x = Printf creating_line \/
  exists i, (i < k)%nat /\
    (x = StoreId (Z.of_nat i) (Z.of_nat i + 1) \/ x = Create (Z.of_nat i) 0).
Proof.
  unfold launched. intros [<-|H]; [now left|]. right. now apply spawns_elem.
Qed.

(** After the failure nothing changes but the workers and main's way
    out. *)
Lemma step_failing n c s s' :
  failing_pc (pc s) = true -> step n c s = Some s' ->
  failing_pc (pc s') = true /\ errno s' = errno s /\
  length (pool s') = length (pool s) /\
  thread_id s' = thread_id s /\ threads s' = threads s.
Proof.
  intros Hf Hst. unfold step in Hst. destruct (exited s); [discriminate|].
  destruct c as [r|slot].
  - unfold main_step in Hst.
    destruct (pc s) as [|k|k| |rc|j|rc]; try discriminate;
      injection Hst as <-; now repeat split.
  - apply thread_step_Some in Hst as (w & w' & a & _ & _ & ->). simpl.
    rewrite length_insert. now repeat split.
Qed.

Lemma run_failing n sch s s' :
  failing_pc (pc s) = true -> run n sch s = Some s' ->
  failing_pc (pc s') = true /\ errno s' = errno s /\
  length (pool s') = length (pool s) /\
  thread_id s' = thread_id s /\ threads s' = threads s.
Proof.
  revert s. induction sch as [|c sch IH]; intros s Hf Hrun; simpl in Hrun.
  - injection Hrun as <-. now repeat split.
  - destruct (step n c s) as [s1|] eqn:E; [|discriminate].
    destruct (step_failing _ _ _ _ Hf E) as (Hf1 & H1 & H2 & H3 & H4).
    destruct (IH _ Hf1 Hrun) as (Hf' & -> & -> & -> & ->).
    now repeat split.
Qed.

Ltac elem_cases :=
  repeat match goal with
         | H : In _ (failing _ _) |- _ => unfold failing in H
         | H : In _ (joined _ _) |- _ => unfold joined in H
         | H : In _ (_ ++ _) |- _ => apply in_app_or in H as [H|H]
         | H : In _ (launched _) |- _ =>
             apply launched_elem in H as [H|(? & ? & [H|H])]
         | H : In _ (joins _) |- _ => apply joins_elem in H as (? & ? & H)
         | H : In _ (_ :: _) |- _ => destruct H as [H|H]
         | H : In _ [] |- _ => destruct H
         end.

Section Failure.

Variable n : Z.
Hypothesis n_range : 0 <= n < 65536.

(** Once a [pthread_create] has failed, [main] is on its way out, and
    its history is the successful starts, the failed one, and then at
    most the diagnostic and the return. *)
Lemma failure_history s k ret :
  reachable n s -> In (Main, Create k ret) (trace s) -> ret <> 0 ->
  0 <= k < n /\ Z.of_nat (length (pool s)) = k /\
  ((pc s = M_perror /\
    acts_of Main (trace s) = failing (length (pool s)) ret) \/
   (pc s = M_return (-1) /\
    acts_of Main (trace s)
    = failing (length (pool s)) ret ++ [Perror perror_msg (errno s)]) \/
   (pc s = M_exit (-1) /\
    acts_of Main (trace s)
    = failing (length (pool s)) ret
      ++ [Perror perror_msg (errno s); Return (-1)])).
Proof.
  intros Hr Hin Hret. apply acts_of_In in Hin.
  destruct (reachable_inv n n_range _ Hr) as [[_ _ _ _ Hpc] [Hm _ _]].
  unfold main_ok in Hpc. unfold main_hist in Hm.
  destruct (pc s) as [|k'|k'| |rc|j|rc].
  - rewrite Hm in Hin. destruct Hin.
  - rewrite Hm in Hin. elem_cases; try discriminate Hin.
    exfalso; congruence.
  - rewrite Hm in Hin. elem_cases; try discriminate Hin.
    exfalso; congruence.
  - destruct Hm as (ret' & Hret' & Hm). rewrite Hm in Hin.
    elem_cases; try discriminate Hin; try (exfalso; congruence).
    injection Hin as <- <-. split; [lia|]. split; [reflexivity|].
    left. now split.
  - destruct Hpc as [[-> Hc]|(-> & Hc & _)]; simpl Z.eqb in Hm; cbv iota in Hm.
    + destruct Hm as (ret' & Hret' & Hm). rewrite Hm in Hin.
      elem_cases; try discriminate Hin; try (exfalso; congruence).
      injection Hin as <- <-. split; [lia|]. split; [reflexivity|].
      right. left. now split.
    + rewrite Hm in Hin. elem_cases; try discriminate Hin.
      exfalso; congruence.
  - rewrite Hm in Hin. elem_cases; try discriminate Hin.
    exfalso; congruence.
  - destruct Hpc as [[-> Hc]|(-> & Hc & _)]; simpl Z.eqb in Hm; cbv iota in Hm.
    + destruct Hm as (ret' & Hret' & Hm). rewrite Hm in Hin.
      elem_cases; try discriminate Hin; try (exfalso; congruence).
      injection Hin as <- <-. split; [lia|]. split; [reflexivity|].
      right. right. now split.
    + rewrite Hm in Hin. elem_cases; try discriminate Hin.
      exfalso; congruence.
Qed.

(** The errno that [perror] reports is the one the failed call left. *)
Lemma failure_errno sch s t1 k ret t2 :
  launch n sch = Some s ->
  trace s = t1 ++ (Main, Create k ret) :: t2 -> ret <> 0 ->
  exists sch1 r sch2,
    sch = sch1 ++ Run_main r :: sch2 /\ length sch1 = length t1 /\
    create_ret r = ret /\ errno s = create_errno r /\
    exists s1, launch n sch1 = Some s1 /\ trace s1 = t1 /\
      pc s1 = M_create k /\ length (pool s) = length (pool s1) /\
      thread_id s = thread_id s1 /\ threads s = threads s1.
Proof.
  intros Hrun Ht Hret.
  destruct (run_split n sch (init n) s t1 _ t2 Hrun Ht)
    as (sch1 & c & sch2 & s1 & s2 & -> & H1 & H2 & H3 & H4 & H5).
  simpl in H2.
  destruct (step_main _ _ _ _ _ H3 H4) as (r & -> & Hm).
  destruct (main_step_create _ _ _ _ _ _ Hm H4)
    as [Hpc1 [(H0 & _)|(_ & Hr & Hpc2 & He & Hp)]]; [now destruct Hret|].
  assert (Hf : failing_pc (pc s2) = true) by now rewrite Hpc2.
  destruct (run_failing _ _ _ _ Hf H5) as (_ & He' & Hl' & Hi' & Hh').
  exists sch1, r, sch2. split; [reflexivity|].
  destruct (run_trace _ _ _ _ H1) as (t & Htr & Hlen). simpl in Htr.
  split; [rewrite <- Hlen, <- Htr, H2; reflexivity|].
  split; [assumption|]. split; [congruence|].
  exists s1. split; [exact H1|]. split; [assumption|]. split; [assumption|].
  unfold main_step in Hm. rewrite Hpc1 in Hm.
  destruct (create_ret r =? 0) eqn:E; [lia|]. injection Hm as <-.
  simpl in *. now repeat split.
Qed.

End Failure.

Lemma worker_step_quiet ids w w' a :
  worker_step ids w = Some (w', a) ->
  diagnosed a = None /\ is_join a = false /\ is_create a = false.
Proof.
  intros H. destruct w as [arg|num i|num i| |r]; simpl in H.
  - destruct (load ids arg); [|discriminate]. now injection H as <- <-.
  - destruct (i <? 5); now injection H as <- <-.
  - now injection H as <- <-.
  - now injection H as <- <-.
  - discriminate.
Qed.

Lemma stderr_snoc t a x :
  stderr (t ++ [(a, x)]) = stderr t ++ option_list' (diagnosed x).
Proof. unfold stderr. rewrite omap_app. f_equal. Qed.

(** Only [main] writes to the error stream, and only [main] creates and
    joins threads. *)
Lemma only_main_diagnoses n s :
  reachable n s ->
  stderr (trace s) = omap diagnosed (acts_of Main (trace s)) /\
  forall slot x, In (Thr slot, x) (trace s) ->
    is_join x = false /\ is_create x = false.
Proof.
  revert s. apply (reachable_ind' n (fun s =>
    stderr (trace s) = omap diagnosed (acts_of Main (trace s)) /\
    forall slot x, In (Thr slot, x) (trace s) ->
      is_join x = false /\ is_create x = false)).
  - split; [reflexivity | intros slot x []].
  - intros c s s' _ [IH1 IH2] Hst. unfold step in Hst.
    destruct (exited s); [discriminate|]. destruct c as [r|slot].
    + apply main_step_trace in Hst as [a ->]. split.
      * rewrite stderr_snoc, acts_of_snoc_same, omap_app, IH1. f_equal.
      * intros slot x Hin. apply in_app_or in Hin as [Hin|[Hin|[]]];
          [now apply (IH2 slot) | discriminate].
    + apply thread_step_Some in Hst as (w & w' & a & _ & Hs & ->). simpl.
      destruct (worker_step_quiet _ _ _ _ Hs) as (Hd & Hj & Hc). split.
      * rewrite stderr_snoc, acts_of_snoc_other by discriminate.
        rewrite Hd. simpl. now rewrite app_nil_r.
      * intros slot' x Hin. apply in_app_or in Hin as [Hin|[Hin|[]]];
          [now apply (IH2 slot')|]. injection Hin as _ <-. now split.
Qed.

Lemma failing_quiet k ret :
  omap diagnosed (failing k ret) = [] /\
  omap printed (failing k ret) = [creating_line].
Proof.
  assert (H : omap diagnosed (spawns k) = [] /\ omap printed (spawns k) = []).
  { induction k as [|k [IH1 IH2]]; [now split|].
    rewrite spawns_S, !omap_app, IH1, IH2. now split. }
  destruct H as [H1 H2]. unfold failing, launched.
  rewrite !omap_app.
  change (omap diagnosed (?x :: ?l))
    with (option_list' (diagnosed x) ++ omap diagnosed l).
  change (omap printed (?x :: ?l))
    with (option_list' (printed x) ++ omap printed l).
  rewrite H1, H2. now split.
Qed.

Section FailureClaims.

Variable n : Z.
Hypothesis n_range : 0 <= n < 65536.

(** C10: when [pthread_create] fails at index [k] and [main] has
    returned, it returned -1; all [main] ever did is print "Creating
    threads", start the [k] earlier threads, make the failed call, call
    [perror] and return: neither of its two other lines is on the
    standard output, no thread was ever joined, the [k] threads started
    earlier are all there are, and the error stream holds the one
    diagnostic. *)
Theorem failed_create_returns_minus_one sch s k ret :
  launch n sch = Some s -> In (Main, Create k ret) (trace s) -> ret <> 0 ->
  exited s = true ->
  0 <= k < n /\ pc s = M_exit (-1) /\
  acts_of Main (trace s)
  = Printf creating_line :: spawns (Z.to_nat k)
    ++ [StoreId k (k + 1); Create k ret;
        Perror perror_msg (errno s); Return (-1)] /\
  omap printed (acts_of Main (trace s)) = [creating_line] /\
  stderr (trace s) = [(perror_msg, errno s)] /\
  ~ In waiting_line (stdout (trace s)) /\
  ~ In all_finished_line (stdout (trace s)) /\
  (forall a j, ~ In (a, Join j) (trace s)) /\
  length (pool s) = Z.to_nat k.
Proof.
  intros Hrun Hin Hret Hex. assert (Hr : reachable n s) by now exists sch.
  destruct (failure_history n n_range _ _ _ Hr Hin Hret)
    as (Hk & Hlen & [[Hpc _]|[[Hpc _]|[Hpc Hm]]]);
    try (unfold exited in Hex; rewrite Hpc in Hex; discriminate).
  assert (Hkk : length (pool s) = Z.to_nat k) by lia.
  rewrite Hkk in Hm.
  assert (Hacts : acts_of Main (trace s)
    = Printf creating_line :: spawns (Z.to_nat k)
      ++ [StoreId k (k + 1); Create k ret;
          Perror perror_msg (errno s); Return (-1)]).
  { rewrite Hm. unfold failing, launched. rewrite Z2Nat.id by lia.
    simpl. now rewrite <- app_assoc. }
  assert (Hprinted : omap printed (spawns (Z.to_nat k)) = []).
  { generalize (Z.to_nat k). intros m. induction m as [|m IH];
      [reflexivity|]. rewrite spawns_S, omap_app, IH. reflexivity. }
  assert (Hdiag : omap diagnosed (spawns (Z.to_nat k)) = []).
  { generalize (Z.to_nat k). intros m. induction m as [|m IH];
      [reflexivity|]. rewrite spawns_S, omap_app, IH. reflexivity. }
  destruct (reachable_count_inv n n_range _ Hr) as [Hcm _ _].
  destruct (only_main_diagnoses n s Hr) as [Herr Hquiet].
  split; [assumption|]. split; [assumption|]. split; [assumption|].
  split.
  { rewrite Hacts. change (omap printed (?x :: ?l))
      with (option_list' (printed x) ++ omap printed l).
    rewrite omap_app, Hprinted. reflexivity. }
  split.
  { rewrite Herr, Hacts. change (omap diagnosed (?x :: ?l))
      with (option_list' (diagnosed x) ++ omap diagnosed l).
    rewrite omap_app, Hdiag. reflexivity. }
  split.
  { apply (count_occ_not_In string_dec).
    change (count_line waiting_line (stdout (trace s)) = 0%nat).
    rewrite Hcm, Hpc by (simpl; tauto). reflexivity. }
  split.
  { apply (count_occ_not_In string_dec).
    change (count_line all_finished_line (stdout (trace s)) = 0%nat).
    rewrite Hcm, Hpc by (simpl; tauto). reflexivity. }
  split; [|assumption].
  intros [|slot] j Hj.
  - apply acts_of_In in Hj. rewrite Hacts in Hj.
    destruct Hj as [Hj|Hj]; [discriminate|].
    apply in_app_or in Hj as [Hj|Hj].
    + apply spawns_elem in Hj as (i & _ & [Hj|Hj]); discriminate.
    + simpl in Hj. repeat (destruct Hj as [Hj|Hj]; [discriminate|]).
      destruct Hj.
  - now destruct (Hquiet _ _ Hj).
Qed.

End FailureClaims.

Lemma failed_create_returns_minus_one_witness :
  launch 3 sched_second_create_fails = Some final_second_create_fails /\
  In (Main, Create 1 11) (trace final_second_create_fails) /\
  pc final_second_create_fails = M_exit (-1) /\
  stderr (trace final_second_create_fails) = [(perror_msg, 11)] /\
  ~ In waiting_line (stdout (trace final_second_create_fails)) /\
  ~ In all_finished_line (stdout (trace final_second_create_fails)) /\
  (forall a j, ~ In (a, Join j) (trace final_second_create_fails)) /\
  length (pool final_second_create_fails) = 1%nat.
Proof.
  assert (H1 : launch 3 sched_second_create_fails
               = Some final_second_create_fails) by reflexivity.
  assert (H2 : In (Main, Create 1 11) (trace final_second_create_fails))
    by (simpl; tauto).
  pose proof (failed_create_returns_minus_one 3 ltac:(lia)
                sched_second_create_fails final_second_create_fails 1 11
                H1 H2 ltac:(discriminate) eq_refl)
    as (_ & H3 & _ & _ & H4 & H5 & H6 & H7 & H8).
  repeat split; assumption.
Defined.

Section StartFailure.

Variable n : Z.
Hypothesis n_range : 0 <= n < 65536.

(** C3: when a [pthread_create] fails, at index [k], [main] stops
    starting threads at once.  The errno it holds from then on is the one
    that call left; after the call [main] does nothing but call [perror]
    with that errno and return -1, and it is never held up on the way;
    the failed call was its last call of [pthread_create], so the
    threads of the indices after [k] are never started; the [k] threads
    started before are all still there, none is touched by [main], and
    each that has not returned can go on running until the process is
    over; and when the process is over [main] has returned -1 and the
    error stream holds exactly that one diagnostic. *)
Theorem failed_start_stops_launcher sch s t1 k ret t2 :
  launch n sch = Some s ->
  trace s = t1 ++ (Main, Create k ret) :: t2 -> ret <> 0 ->
  (exists sch1 r sch2,
     sch = sch1 ++ Run_main r :: sch2 /\ length sch1 = length t1 /\
     create_ret r = ret /\ errno s = create_errno r) /\
  ((acts_of Main t2 = [] /\ pc s = M_perror) \/
   (acts_of Main t2 = [Perror perror_msg (errno s)] /\
    pc s = M_return (-1)) \/
   (acts_of Main t2 = [Perror perror_msg (errno s); Return (-1)] /\
    pc s = M_exit (-1))) /\
  (exited s = false -> forall r, is_Some (step n (Run_main r) s)) /\
  0 <= k < n /\
  tally is_create (acts_of Main (trace s)) = S (Z.to_nat k) /\
  length (pool s) = Z.to_nat k /\
  (forall slot w, pool s !! slot = Some w ->
     acts_of (Thr slot) (trace s) = worker_hist slot w /\
     (exited s = false -> (forall r, w <> W_done r) ->
      is_Some (step n (Run_thread slot) s))) /\
  (exited s = true ->
   pc s = M_exit (-1) /\ stderr (trace s) = [(perror_msg, errno s)]).
Proof.
  intros Hrun Ht Hret. assert (Hr : reachable n s) by now exists sch.
  assert (Hin : In (Main, Create k ret) (trace s)).
  { rewrite Ht. apply in_or_app. right. now left. }
  destruct (failure_errno n sch s t1 k ret t2 Hrun Ht Hret)
    as (sch1 & r & sch2 & Hsch & Hlen1 & Hcr & Herrno & s1 & Hrun1 & Ht1
        & Hpc1 & Hpl & _).
  destruct (failure_history n n_range _ _ _ Hr Hin Hret) as (Hk & Hlen & Hcases).
  assert (Hkk : length (pool s) = Z.to_nat k) by lia.
  assert (Hr1 : reachable n s1) by now exists sch1.
  destruct (reachable_inv n n_range _ Hr1) as [_ [Hm1 _ _]].
  rewrite Hpc1, Ht1, <- Hpl in Hm1. unfold main_hist in Hm1.
  assert (Hsplit : acts_of Main (trace s)
    = failing (length (pool s)) ret ++ acts_of Main t2).
  { rewrite Ht, acts_of_app.
    change ((Main, Create k ret) :: t2) with ([(Main, Create k ret)] ++ t2).
    rewrite acts_of_app, Hm1. unfold failing. rewrite <- !app_assoc.
    f_equal. rewrite Hlen. reflexivity. }
  assert (Hspw : tally is_create (failing (length (pool s)) ret)
                 = S (Z.to_nat k)).
  { unfold failing, launched. rewrite tally_app, tally_cons.
    destruct (tally_spawns (length (pool s))) as (_ & -> & _).
    unfold tally. simpl. lia. }
  destruct (reachable_inv n n_range _ Hr) as [Hinv [_ Hw _]].
  split; [now exists sch1, r, sch2|].
  split.
  { destruct Hcases as [[Hpc Hm]|[[Hpc Hm]|[Hpc Hm]]];
      rewrite Hsplit in Hm.
    - left. split; [|assumption].
      rewrite <- (app_nil_r (failing _ _)) in Hm at 2.
      now apply app_inv_head in Hm.
    - right. left. split; [|assumption]. now apply app_inv_head in Hm.
    - right. right. split; [|assumption]. now apply app_inv_head in Hm. }
  split.
  { intros Hex r'.
    destruct (main_enabled n n_range s r' Hr Hex)
      as [H|(j & w & Hj & _)]; [assumption|].
    destruct Hcases as [[Hpc _]|[[Hpc _]|[Hpc _]]]; congruence. }
  split; [assumption|].
  split.
  { destruct Hcases as [[_ Hm]|[[_ Hm]|[_ Hm]]]; rewrite Hm;
      rewrite ?tally_app, Hspw; unfold tally; simpl; lia. }
  split; [assumption|].
  split.
  { intros slot w Hsw. split; [now apply Hw|].
    intros Hex Hnd. eapply worker_enabled; eauto. }
  intros Hex.
  destruct Hcases as [[Hpc _]|[[Hpc _]|[Hpc Hm]]];
    try (unfold exited in Hex; rewrite Hpc in Hex; discriminate).
  split; [assumption|].
  destruct (only_main_diagnoses n s Hr) as [-> _]. rewrite Hm.
  rewrite omap_app, (proj1 (failing_quiet _ _)). reflexivity.
Qed.

End StartFailure.

Lemma failed_start_stops_launcher_witness :
  launch 3 sched_second_create_fails = Some final_second_create_fails /\
  trace final_second_create_fails
  = take 6 (trace final_second_create_fails)
    ++ (Main, Create 1 11) :: drop 7 (trace final_second_create_fails) /\
  acts_of Main (drop 7 (trace final_second_create_fails))
  = [Perror perror_msg 11; Return (-1)] /\
  pc final_second_create_fails = M_exit (-1) /\
  length (pool final_second_create_fails) = 1%nat /\
  stderr (trace final_second_create_fails) = [(perror_msg, 11)].
Proof.
  assert (H1 : launch 3 sched_second_create_fails
               = Some final_second_create_fails) by reflexivity.
  assert (H2 : trace final_second_create_fails
    = take 6 (trace final_second_create_fails)
      ++ (Main, Create 1 11) :: drop 7 (trace final_second_create_fails))
    by reflexivity.
  pose proof (failed_start_stops_launcher 3 ltac:(lia)
                sched_second_create_fails final_second_create_fails
                _ 1 11 _ H1 H2 ltac:(discriminate))
    as (_ & H3 & _ & _ & _ & H4 & _ & H5).
  destruct (H5 eq_refl) as [H6 H7].
  destruct H3 as [[_ H3]|[[_ H3]|[H3 _]]]; try discriminate H3.
  repeat split; assumption.
Defined.

(** ** The two arrays of [main] *)

Lemma populated_prefix {A} (a : list (option A)) k :
  (k <= length a)%nat ->
  (forall i, (i < k)%nat -> exists v, a !! i = Some (Some v)) ->
  (forall i, (k <= i < length a)%nat -> a !! i = Some None) ->
  populated a = k.
Proof.
  revert k. induction a as [|x a IH]; intros k Hk Hlo Hhi.
  - simpl in Hk. unfold populated. simpl. lia.
  - destruct k as [|k].
    + assert (x = None) as ->.
      { specialize (Hhi 0%nat ltac:(simpl; lia)). now injection Hhi. }
      unfold populated. simpl. apply (IH 0%nat); [lia | intros i Hi; lia|].
      intros i Hi. apply (Hhi (S i)). simpl. lia.
    + destruct (Hlo 0%nat ltac:(lia)) as [v Hv]. injection Hv as ->.
      unfold populated. simpl. f_equal. apply IH.
      * simpl in Hk. lia.
      * intros i Hi. apply (Hlo (S i)). lia.
      * intros i Hi. apply (Hhi (S i)). simpl. lia.
Qed.

Section Arrays.

Variable n : Z.
Hypothesis n_range : 0 <= n < 65536.

Lemma init_array_inv : array_inv n (init n).
Proof.
  split; simpl; intros i Hi; try lia;
    apply lookup_replicate; (split; [reflexivity | lia]).
Qed.

Lemma goto_array_inv p a s :
  array_inv n s -> in_flight p = in_flight (pc s) -> array_inv n (goto p a s).
Proof. intros [H1 H2 H3] Hp. split; simpl; rewrite ?Hp; assumption. Qed.

Lemma main_step_array_inv r s s' :
  state_inv n s -> array_inv n s -> main_step n r s = Some s' ->
  array_inv n s'.
Proof.
  intros [Hl1 Hl2 Hsl Hwk Hpc] Ha Hst. pose proof Ha as [Hhf Hif His].
  unfold main_step in Hst. unfold main_ok in Hpc.
  destruct (pc s) as [|k|k| |rc|j|rc] eqn:Epc.
  - injection Hst as <-. apply goto_array_inv; [assumption|]. now rewrite Epc.
  - destruct Hpc as [Hk Hkn]. destruct (k <? n) eqn:Ek.
    + destruct (store (thread_id s) k (wrap16 (k + 1))) as [ids|] eqn:Est;
        [|discriminate].
      injection Hst as <-. apply store_Some in Est as [Hb ->].
      rewrite wrap16_small by lia. simpl in *.
      assert (Hkk : Z.to_nat k = length (pool s)) by lia.
      split; simpl.
      * assumption.
      * intros i Hi. rewrite list_lookup_insert_ne by lia. apply Hif. lia.
      * intros i Hi. destruct (decide (i = length (pool s))) as [->|Hne].
        -- rewrite Hkk, list_lookup_insert_eq by lia. now rewrite Hk.
        -- rewrite list_lookup_insert_ne by lia. apply His. lia.
    + injection Hst as <-. apply goto_array_inv; [assumption|]. now rewrite Epc.
  - destruct Hpc as (Hk & Hkn & Hid). simpl in *.
    destruct (create_ret r =? 0).
    + destruct (store (threads s) k (length (pool s))) as [hs|] eqn:Est;
        [|discriminate].
      injection Hst as <-. apply store_Some in Est as [Hb ->].
      split; simpl; rewrite length_app; simpl.
      * intros i Hi. rewrite list_lookup_insert_ne by lia. apply Hhf. lia.
      * intros i Hi. apply Hif. lia.
      * intros i Hi. apply His. lia.
    + injection Hst as <-. split; simpl; assumption.
  - injection Hst as <-. apply goto_array_inv; [assumption|]. now rewrite Epc.
  - injection Hst as <-. apply goto_array_inv; [assumption|]. now rewrite Epc.
  - destruct (j <? n).
    + destruct (load _ _); [|discriminate].
      destruct (pool s !! _) as [[?|? ?|? ?| |?]|]; try discriminate.
      injection Hst as <-. apply goto_array_inv; [assumption|].
      now rewrite Epc.
    + injection Hst as <-. apply goto_array_inv; [assumption|].
      now rewrite Epc.
  - discriminate.
Qed.

Lemma reachable_array_inv s : reachable n s -> array_inv n s.
Proof.
  revert s. apply (reachable_ind' n (array_inv n)); [apply init_array_inv|].
  intros c s s' Hr IH Hst. unfold step in Hst.
  destruct (exited s); [discriminate|]. destruct c as [r|slot].
  - eapply main_step_array_inv; eauto. now apply reachable_state_inv.
  - apply thread_step_Some in Hst as (w & w' & a & _ & _ & ->).
    destruct IH as [H1 H2 H3]. split; simpl; rewrite length_insert; assumption.
Qed.

(** The assignments of line 29 made so far are those of the started
    threads and of the call in flight. *)
Lemma stored_by_pc s :
  reachable n s ->
  tally is_store (acts_of Main (trace s))
  = (length (pool s) + in_flight (pc s))%nat.
Proof.
  intros Hr.
  destruct (reachable_inv n n_range _ Hr) as [[_ _ _ _ Hpc] [Hm _ _]].
  unfold main_ok in Hpc. unfold main_hist in Hm.
  destruct (pc s) as [|k|k| |rc|j|rc]; simpl in_flight.
  - rewrite Hm. tally_main. lia.
  - rewrite Hm. tally_main. lia.
  - rewrite Hm. tally_main. lia.
  - destruct Hm as (ret & _ & ->). tally_main. lia.
  - destruct Hpc as [[-> Hc]|(-> & Hc & _)]; simpl in Hm |- *.
    + destruct Hm as (ret & _ & ->). tally_main. lia.
    + rewrite Hm. tally_main. lia.
  - rewrite Hm. tally_main. lia.
  - destruct Hpc as [[-> Hc]|(-> & Hc & _)]; simpl in Hm |- *.
    + destruct Hm as (ret & _ & ->). tally_main. lia.
    + rewrite Hm. tally_main. lia.
Qed.

End Arrays.

Lemma iterations_elem x k id :
  In x (iterations k id) -> x = Printf (running_line id) \/ x = Sleep 1.
Proof.
  induction k as [|k IH]; [intros []|].
  rewrite iterations_S_end. intros H. apply in_app_or in H as [H|H];
    [now apply IH|].
  destruct H as [<-|[<-|[]]]; tauto.
Qed.

Lemma worker_hist_elem x slot w :
  In x (worker_hist slot w) ->
  x = LoadId (Z.of_nat slot) (Z.of_nat slot + 1) \/
  x = Printf (running_line (Z.of_nat slot + 1)) \/ x = Sleep 1 \/
  x = Printf (finished_line (Z.of_nat slot + 1)) \/ x = Return NULL.
Proof.
  destruct w as [arg|num i|num i| |r]; unfold worker_hist, thread_func_calls;
    intros H; try destruct H as [<-|H]; try tauto;
    repeat (apply in_app_or in H as [H|H]);
    try (apply iterations_elem in H as [-> | ->]; tauto);
    repeat (destruct H as [<-|H]; [tauto|]); destruct H.
Qed.


Section Identifiers.

Variable n : Z.
Hypothesis n_range : 0 <= n < 65536.

Lemma stored_le s :
  reachable n s -> (length (pool s) + in_flight (pc s) <= Z.to_nat n)%nat.
Proof.
  intros Hr. rewrite <- (stored_by_pc n n_range s Hr).
  now apply main_loop_bounds.
Qed.

(** A cell of [thread_id] that has been written holds its index plus
    one. *)
Lemma written_id s i v :
  reachable n s -> thread_id s !! i = Some (Some v) ->
  (i < length (pool s) + in_flight (pc s))%nat /\ v = Z.of_nat i + 1.
Proof.
  intros Hr Hv. destruct (reachable_array_inv n n_range s Hr) as [_ Hf Hs].
  pose proof (ids_len _ _ (reachable_state_inv n n_range s Hr)) as Hlen.
  pose proof (lookup_lt_Some _ _ _ Hv) as Hlt.
  destruct (decide (i < length (pool s) + in_flight (pc s))%nat) as [Hi|Hi].
  - rewrite (Hs i Hi) in Hv. injection Hv as <-. now split.
  - rewrite (Hf i) in Hv by lia. discriminate.
Qed.

(** C8: throughout a run the two arrays of [main] have [num_threads]
    cells each, never more threads exist than that, every started thread
    has its cell in both, [threads] has exactly one written cell per
    started thread, and [thread_id] has one written cell per assignment
    of line 29 made so far: one per started thread, and one more while a
    [pthread_create] is in flight or after it failed.  Once all threads
    are started all three numbers are [num_threads]. *)
Theorem arrays_sized_by_worker_count sch s :
  launch n sch = Some s ->
  length (thread_id s) = Z.to_nat n /\ length (threads s) = Z.to_nat n /\
  (length (pool s) <= Z.to_nat n)%nat /\
  (forall slot, (slot < length (pool s))%nat ->
     thread_id s !! slot = Some (Some (Z.of_nat slot + 1)) /\
     threads s !! slot = Some (Some slot)) /\
  populated (threads s) = length (pool s) /\
  populated (thread_id s) = (length (pool s) + in_flight (pc s))%nat /\
  populated (thread_id s) = calls is_store Main (trace s) /\
  (Z.of_nat (length (pool s)) = n ->
   populated (thread_id s) = Z.to_nat n /\
   populated (threads s) = Z.to_nat n).
Proof.
  intros Hrun. assert (Hr : reachable n s) by now exists sch.
  pose proof (reachable_state_inv n n_range s Hr) as [Hl1 Hl2 Hsl _ _].
  destruct (reachable_array_inv n n_range s Hr) as [Hhf Hif His].
  pose proof (stored_le s Hr) as Hle.
  assert (Hph : populated (threads s) = length (pool s)).
  { apply populated_prefix; [lia | |intros i Hi; apply Hhf; lia].
    intros i Hi. exists i. now apply Hsl. }
  assert (Hpi : populated (thread_id s)
                = (length (pool s) + in_flight (pc s))%nat).
  { apply populated_prefix; [lia | |intros i Hi; apply Hif; lia].
    intros i Hi. eexists. now apply His. }
  split; [lia|]. split; [lia|]. split; [lia|]. split; [assumption|].
  split; [assumption|]. split; [assumption|].
  split; [unfold calls; fold (tally is_store (acts_of Main (trace s)));
          now rewrite (stored_by_pc n n_range s Hr)|].
  intros Hall. split; lia.
Qed.

End Identifiers.

(** ** The lines of [main] *)





Section MainLines.

Variable n : Z.
Hypothesis n_range : 0 <= n < 65536.




End MainLines.

(** ** No worker at all *)






Lemma arrays_sized_by_worker_count_witness :
  launch 3 sched_second_create_fails = Some final_second_create_fails /\
  length (thread_id final_second_create_fails) = 3%nat /\
  length (threads final_second_create_fails) = 3%nat /\
  populated (threads final_second_create_fails) = 1%nat /\
  populated (thread_id final_second_create_fails) = 2%nat.
Proof.
  assert (H : launch 3 sched_second_create_fails
              = Some final_second_create_fails) by reflexivity.
  pose proof (arrays_sized_by_worker_count 3 ltac:(lia)
                sched_second_create_fails final_second_create_fails H)
    as (H1 & H2 & _ & _ & H3 & H4 & _).
  split; [exact H|]. split; [exact H1|]. split; [exact H2|].
  split; [exact H3 | exact H4].
Defined.

(** Against C8 read of every moment of a run: between line 29 and line
    30 of the first turn of the loop one identifier is written, and
    neither a handle nor a worker exists. *)
Lemma identifier_written_before_its_worker :
  launch 3 [Run_main ok; Run_main ok] = Some first_id_stored /\
  populated (thread_id first_id_stored) = 1%nat /\
  populated (threads first_id_stored) = 0%nat /\
  length (pool first_id_stored) = 0%nat.
Proof. repeat split. Qed.

(** * After [main] has returned *)

(** ** What a thread left behind reads and does *)

Lemma load_wrapped mem arg v :
  load (map (option_map wrap16) mem) arg = Some v -> 0 <= v < 65536.
Proof.
  intros H. apply load_Some in H as [_ H].
  change (map (option_map wrap16) mem) with (option_map wrap16 <$> mem) in H.
  rewrite list_lookup_fmap in H.
  destruct (mem !! Z.to_nat arg) as [[raw|]|]; try discriminate.
  simpl in H. injection H as <-. unfold wrap16.
  apply Z.mod_pos_bound. lia.
Qed.

(** One step of [thread_func], whatever value it read or reads. *)
Lemma worker_step_read ids slot v w w' a :
  worker_read_ok slot v w -> worker_step ids w = Some (w', a) ->
  exists v',
    worker_read_ok slot v' w' /\
    worker_hist_read slot v' w' = worker_hist_read slot v w ++ [a] /\
    match w with
    | W_entry arg => load ids arg = Some v'
    | _ => v' = v
    end.
Proof.
  intros Hok Hst. destruct w as [arg|num i|num i| |r]; simpl in *.
  - destruct (load ids arg) as [v'|] eqn:E; [|discriminate].
    injection Hst as <- <-. subst arg. exists v'. simpl.
    split; [lia|]. split; reflexivity.
  - destruct Hok as [-> Hi]. exists v.
    destruct (i <? 5) eqn:E; injection Hst as <- <-; simpl.
    + split; [lia|]. split; reflexivity.
    + assert (i = 5) as -> by lia. split; [exact I|]. split; reflexivity.
  - destruct Hok as [-> Hi]. injection Hst as <- <-. exists v. simpl.
    rewrite wrap8_small by lia. split; [lia|]. split; [|reflexivity].
    replace (Z.to_nat (i + 1)) with (S (Z.to_nat i)) by lia.
    rewrite iterations_S_end. unfold iteration. f_equal.
    now rewrite <- app_assoc.
  - injection Hst as <- <-. exists v. simpl.
    split; [reflexivity|]. split; reflexivity.
  - discriminate.
Qed.

Lemma worker_hist_read_elem x slot v w :
  In x (worker_hist_read slot v w) ->
  x = LoadId (Z.of_nat slot) v \/
  x = Printf (running_line v) \/ x = Sleep 1 \/
  x = Printf (finished_line v) \/ x = Return NULL.
Proof.
  assert (Hit : forall k, In x (iterations k v) ->
            x = Printf (running_line v) \/ x = Sleep 1)
    by (intros k; apply iterations_elem).
  destruct w as [arg|num i|num i| |r]; unfold worker_hist_read,
    thread_func_calls; intros H.
  - destruct H.
  - destruct H as [<-|H]; [tauto|]. destruct (Hit _ H); tauto.
  - destruct H as [<-|H]; [tauto|].
    apply in_app_or in H as [H|[<-|[]]]; [destruct (Hit _ H)|]; tauto.
  - destruct H as [<-|H]; [tauto|].
    apply in_app_or in H as [H|[<-|[]]]; [destruct (Hit _ H)|]; tauto.
  - destruct H as [<-|H]; [tauto|].
    apply in_app_or in H as [H|[<-|[<-|[]]]]; [destruct (Hit _ H)| |]; tauto.
Qed.


Lemma orphan_step_Some slot mem s s' :
  orphan_step slot mem s = Some s' ->
  exists w w' a,
    exited s = true /\ pool s !! slot = Some w /\
    worker_step (map (option_map wrap16) mem) w = Some (w', a) /\
    s' = {| pc := pc s; errno := errno s; thread_id := thread_id s;
            threads := threads s; pool := <[slot := w']> (pool s);
            trace := trace s ++ [(Thr slot, a)] |}.
Proof.
  unfold orphan_step. intros H. destruct (exited s); [|discriminate].
  destruct (pool s !! slot) as [w|]; [|discriminate].
  destruct (worker_step _ w) as [[w' a]|] eqn:E; [|discriminate].
  injection H as <-. now exists w, w', a.
Qed.

Lemma orphan_step_read_inv slot mem s s' :
  read_inv s -> orphan_step slot mem s = Some s' -> read_inv s'.
Proof.
  intros [Hw Hno] Hst.
  apply orphan_step_Some in Hst as (w & w' & a & _ & Ew & Es & ->).
  pose proof (lookup_lt_Some _ _ _ Ew) as Hlt.
  split; simpl.
  - intros i w0 H0. destruct (decide (i = slot)) as [->|Hne].
    + rewrite list_lookup_insert_eq in H0 by assumption. injection H0 as <-.
      destruct (Hw _ _ Ew) as (v & Hv & Hok & Hh).
      destruct (worker_step_read _ _ _ _ _ _ Hok Es) as (v' & Hok' & Hh' & Hv').
      exists v'. split.
      * destruct w; try (subst v'; exact Hv).
        now apply load_wrapped in Hv'.
      * split; [exact Hok'|]. now rewrite acts_of_snoc_same, Hh, Hh'.
    + rewrite list_lookup_insert_ne in H0 by congruence.
      rewrite acts_of_snoc_other by congruence. now apply Hw.
  - intros i Hi. rewrite length_insert in Hi.
    rewrite acts_of_snoc_other by (intros [= ->]; lia). now apply Hno.
Qed.

(** While the threads left behind run, [main]'s side of the state stays
    as [main] left it. *)
Lemma orphans_frame l s s' :
  orphans l s = Some s' ->
  pc s' = pc s /\ errno s' = errno s /\ thread_id s' = thread_id s /\
  threads s' = threads s /\ length (pool s') = length (pool s) /\
  acts_of Main (trace s') = acts_of Main (trace s) /\
  (l <> [] -> exited s = true).
Proof.
  revert s. induction l as [|[slot mem] l IH]; intros s H; simpl in H.
  - injection H as <-. repeat split; try reflexivity. now intros [].
  - destruct (orphan_step slot mem s) as [s1|] eqn:E; [|discriminate].
    apply IH in H as (H1 & H2 & H3 & H4 & H5 & H6 & _).
    apply orphan_step_Some in E as (w & w' & a & Hex & _ & _ & ->).
    simpl in *. rewrite length_insert in H5.
    rewrite acts_of_snoc_other in H6 by discriminate.
    repeat (split; [assumption|]). intros _. exact Hex.
Qed.

Lemma orphans_read_inv l s s' :
  read_inv s -> orphans l s = Some s' -> read_inv s'.
Proof.
  revert s. induction l as [|[slot mem] l IH]; intros s Hi H; simpl in H.
  - now injection H as <-.
  - destruct (orphan_step slot mem s) as [s1|] eqn:E; [|discriminate].
    eapply IH; [|exact H]. eapply orphan_step_read_inv; eauto.
Qed.

(** A thread that has returned makes no step. *)
Lemma orphans_all_done l s s' :
  all_done (pool s) -> orphans l s = Some s' -> s' = s.
Proof.
  intros Hd H. destruct l as [|[slot mem] l]; simpl in H.
  - now injection H as <-.
  - destruct (orphan_step slot mem s) as [s1|] eqn:E; [|discriminate].
    apply orphan_step_Some in E as (w & w' & a & _ & Ew & Es & _).
    rewrite (Hd _ _ Ew) in Es. discriminate.
Qed.

Lemma worker_step_fuel_read ids slot v w w' a :
  worker_read_ok slot v w -> worker_step ids w = Some (w', a) ->
  (worker_fuel w = S (worker_fuel w'))%nat.
Proof.
  intros Hok Hst. destruct w as [arg|num i|num i| |r]; simpl in *.
  - destruct (load ids arg) as [v'|]; [|discriminate].
    now injection Hst as <- <-.
  - destruct Hok as [_ Hi]. destruct (i <? 5) eqn:E; injection Hst as <- <-;
      simpl; lia.
  - destruct Hok as [_ Hi]. injection Hst as <- <-. simpl.
    rewrite wrap8_small by lia. lia.
  - now injection Hst as <- <-.
  - discriminate.
Qed.

(** The threads left behind stay, and only move forward. *)
Lemma orphans_keeps l s s' :
  read_inv s -> orphans l s = Some s' ->
  forall slot w, pool s !! slot = Some w ->
    exists w', pool s' !! slot = Some w' /\
      (worker_fuel w' <= worker_fuel w)%nat.
Proof.
  revert s. induction l as [|[slot mem] l IH]; intros s Hi H; simpl in H.
  - injection H as <-. intros slot w Hw. now exists w.
  - destruct (orphan_step slot mem s) as [s1|] eqn:E; [|discriminate].
    pose proof (orphan_step_read_inv _ _ _ _ Hi E) as Hi1.
    specialize (IH s1 Hi1 H).
    apply orphan_step_Some in E as (w & w' & a & _ & Ew & Es & ->).
    pose proof (lookup_lt_Some _ _ _ Ew) as Hlt.
    destruct (proj1 Hi _ _ Ew) as (v & _ & Hok & _).
    pose proof (worker_step_fuel_read _ _ _ _ _ _ Hok Es) as Hfuel.
    intros slot0 w0 H0. simpl in IH.
    destruct (decide (slot0 = slot)) as [->|Hne].
    + rewrite Ew in H0. injection H0 as <-.
      destruct (IH slot w') as (w2 & Hw2 & Hf2);
        [now apply list_lookup_insert_eq|].
      exists w2. split; [assumption | lia].
    + apply IH. now rewrite list_lookup_insert_ne by congruence.
Qed.

Section Orphans.

Variable n : Z.
Hypothesis n_range : 0 <= n < 65536.

(** Until [main] returns every thread has read its index plus one. *)
Lemma launch_read_inv s : reachable n s -> read_inv s.
Proof.
  intros Hr. destruct (reachable_inv n n_range s Hr) as [Hinv [_ Hw Hno]].
  pose proof (stored_le n n_range s Hr) as Hle.
  split; [|exact Hno].
  intros slot w Hsw. pose proof (lookup_lt_Some _ _ _ Hsw) as Hlt.
  exists (Z.of_nat slot + 1). split; [lia|]. split.
  - pose proof (workers_ok _ _ Hinv _ _ Hsw) as Hok.
    destruct w; simpl in *; assumption.
  - rewrite (Hw _ _ Hsw). now destruct w.
Qed.

Lemma process_read_inv sch l s0 s :
  launch n sch = Some s0 -> orphans l s0 = Some s -> read_inv s.
Proof.
  intros Hrun Ho. eapply orphans_read_inv; [|exact Ho].
  apply launch_read_inv. now exists sch.
Qed.

(** Threads are left behind only when [main] returns -1. *)
Lemma no_orphans_unless_failed l s0 s :
  reachable n s0 -> pc s0 <> M_exit (-1) -> orphans l s0 = Some s -> s = s0.
Proof.
  intros Hr Hpc Ho. destruct l as [|x l]; [now injection Ho as <-|].
  destruct (orphans_frame _ _ _ Ho) as (_ & _ & _ & _ & _ & _ & Hex).
  specialize (Hex ltac:(discriminate)).
  pose proof (pc_ok _ _ (reachable_state_inv n n_range s0 Hr)) as Hok.
  unfold main_ok in Hok. unfold exited in Hex.
  destruct (pc s0) as [| | | | | |rc]; try discriminate.
  destruct Hok as [[-> _]|(_ & _ & Hd)]; [now destruct Hpc|].
  now apply (orphans_all_done (x :: l)).
Qed.


End Orphans.



(** * Further properties of [main] and [thread_func] *)

(** ** Which memory accesses are defined *)

Lemma diagnosed_spawns k : omap diagnosed (spawns k) = [].
Proof.
  induction k as [|k IH]; [reflexivity|].
  now rewrite spawns_S, omap_app, IH.
Qed.

Lemma diagnosed_joins j : omap diagnosed (joins j) = [].
Proof.
  induction j as [|j IH]; [reflexivity|].
  now rewrite joins_S, omap_app, IH.
Qed.

Section Defined.

Variable n : Z.
Hypothesis n_range : 0 <= n < 65536.

(** X1: which memory accesses of the program are defined.  Those of
    [main] always are: the assignment of line 29 writes inside
    [thread_id], to a cell not written before; the call of line 30 is
    handed a cell inside [threads], not written before, and the address
    of an identifier cell that already holds its value; the handle read
    at line 41 is inside [threads], was written, and is the handle of a
    thread that exists.  A worker that stands at line 9 while [main] has
    not returned reads a cell inside [thread_id] that has been written.
    A worker can stand at line 9 after [main] has returned only when
    [main] returned -1; the array is gone by then, and the worker reads
    whatever the memory holds: the one access of the program made after
    the lifetime of its object. *)
Theorem accesses_are_defined sch s :
  launch n sch = Some s ->
  (forall k, pc s = M_spawn k -> k < n ->
     in_bounds (thread_id s) k = true /\
     thread_id s !! Z.to_nat k = Some None) /\
  (forall k, pc s = M_create k ->
     in_bounds (threads s) k = true /\
     threads s !! Z.to_nat k = Some None /\
     load (thread_id s) k = Some (k + 1)) /\
  (forall j, pc s = M_join j -> j < n ->
     load (threads s) j = Some (Z.to_nat j) /\
     is_Some (pool s !! Z.to_nat j)) /\
  (exited s = false ->
   forall slot arg, pool s !! slot = Some (W_entry arg) ->
     arg = Z.of_nat slot /\
     load (thread_id s) arg = Some (Z.of_nat slot + 1)) /\
  (exited s = true ->
   forall slot arg, pool s !! slot = Some (W_entry arg) ->
     pc s = M_exit (-1) /\ arg = Z.of_nat slot /\
     forall mem raw, mem !! slot = Some (Some raw) ->
       exists s', orphan_step slot mem s = Some s' /\
         pool s' !! slot = Some (W_loop (wrap16 raw) 0) /\
         trace s' = trace s ++ [(Thr slot, LoadId arg (wrap16 raw))]).
Proof.
  intros Hrun. assert (Hr : reachable n s) by now exists sch.
  destruct (reachable_state_inv n n_range s Hr) as [Hl1 Hl2 Hsl Hwk Hpc].
  destruct (reachable_array_inv n n_range s Hr) as [Hhf Hif His].
  unfold main_ok in Hpc.
  split.
  { intros k Hk Hkn. rewrite Hk in Hpc, Hif. destruct Hpc as [Hc _].
    split.
    - unfold in_bounds. apply andb_true_intro.
      split; [apply Z.leb_le | apply Z.ltb_lt]; lia.
    - apply Hif. simpl. lia. }
  split.
  { intros k Hk. rewrite Hk in Hpc. destruct Hpc as (Hc & Hkn & Hid).
    split; [|split; [|exact Hid]].
    - unfold in_bounds. apply andb_true_intro.
      split; [apply Z.leb_le | apply Z.ltb_lt]; lia.
    - apply Hhf. lia. }
  split.
  { intros j Hj Hjn. rewrite Hj in Hpc. destruct Hpc as (Hc & Hj0 & _).
    assert (Hlt : (Z.to_nat j < length (pool s))%nat) by lia.
    split.
    - apply load_Some. split; [lia|]. now apply Hsl.
    - now apply lookup_lt_is_Some_2. }
  split.
  { intros _ slot arg Hw. pose proof (lookup_lt_Some _ _ _ Hw) as Hlt.
    pose proof (Hwk _ _ Hw) as Hok. simpl in Hok. subst arg.
    split; [reflexivity|]. apply load_Some. split; [lia|].
    rewrite Nat2Z.id. now apply Hsl. }
  intros Hex slot arg Hw. pose proof (lookup_lt_Some _ _ _ Hw) as Hlt.
  pose proof (Hwk _ _ Hw) as Hok. simpl in Hok. subst arg.
  assert (Hrc : pc s = M_exit (-1)).
  { unfold exited in Hex. destruct (pc s) as [| | | | | |rc]; try discriminate.
    destruct Hpc as [[-> _]|(_ & _ & Hd)]; [reflexivity|].
    specialize (Hd _ _ Hw). discriminate. }
  split; [exact Hrc|]. split; [reflexivity|].
  intros mem raw Hmem. unfold orphan_step. rewrite Hex, Hw. simpl.
  assert (load (map (option_map wrap16) mem) (Z.of_nat slot)
          = Some (wrap16 raw)) as ->.
  { apply load_Some. split; [lia|]. rewrite Nat2Z.id.
    change (map (option_map wrap16) mem) with (option_map wrap16 <$> mem).
    now rewrite list_lookup_fmap, Hmem. }
  eexists. split; [reflexivity|]. simpl.
  split; [now apply list_lookup_insert_eq | reflexivity].
Qed.

(** X2: no counter of the program ever wraps around, in the whole life
    of the process.  [thread_num] and [join_num] of [main] stay within
    [0..num_threads], the increments of lines 27 and 39 and the sum of
    line 29 are taken on values whose successor still fits 16 bits, and
    every identifier [main] has stored is in [1..num_threads].  The
    counter [i] of [thread_func] stays within [0..5] and its increment
    fits 8 bits, also in a thread that runs on after [main] has returned,
    and the [thread_num] of a worker is a [uint16_t] whatever it read. *)
Theorem counters_never_wrap sch l s0 s :
  launch n sch = Some s0 -> orphans l s0 = Some s ->
  (forall k, pc s = M_spawn k ->
     0 <= k <= n /\ (k < n -> wrap16 (k + 1) = k + 1)) /\
  (forall k, pc s = M_create k -> 0 <= k < n /\ wrap16 (k + 1) = k + 1) /\
  (forall j, pc s = M_join j ->
     0 <= j <= n /\ (j < n -> wrap16 (j + 1) = j + 1)) /\
  (forall i v, thread_id s !! i = Some (Some v) -> 1 <= v <= n) /\
  (forall slot num i, pool s !! slot = Some (W_loop num i) ->
     0 <= i <= 5 /\ 0 <= num < 65536) /\
  (forall slot num i, pool s !! slot = Some (W_sleep num i) ->
     0 <= i < 5 /\ wrap8 (i + 1) = i + 1 /\ 0 <= num < 65536).
Proof.
  intros Hrun Ho. assert (Hr : reachable n s0) by now exists sch.
  destruct (reachable_state_inv n n_range s0 Hr) as [Hl1 Hl2 Hsl Hwk Hpc].
  pose proof (stored_le n n_range s0 Hr) as Hle.
  destruct (orphans_frame l s0 s Ho) as (Epc & _ & Eid & _ & Elen & _).
  destruct (process_read_inv n n_range sch l s0 s Hrun Ho) as [Hrw _].
  unfold main_ok in Hpc. rewrite Epc, Eid.
  split.
  { intros k Hk. rewrite Hk in Hpc. destruct Hpc as [Hc Hkn].
    split; [lia|]. intros Hlt. apply wrap16_small. lia. }
  split.
  { intros k Hk. rewrite Hk in Hpc. destruct Hpc as (Hc & Hkn & _).
    split; [lia|]. apply wrap16_small. lia. }
  split.
  { intros j Hj. rewrite Hj in Hpc. destruct Hpc as (Hc & Hj0 & _).
    split; [lia|]. intros Hlt. apply wrap16_small. lia. }
  split.
  { intros i v Hv.
    destruct (written_id n n_range s0 i v Hr Hv) as [Hi ->]. lia. }
  split.
  { intros slot num i Hw. destruct (Hrw _ _ Hw) as (v & Hv & [-> Hi] & _).
    split; lia. }
  intros slot num i Hw. destruct (Hrw _ _ Hw) as (v & Hv & [-> Hi] & _).
  split; [lia|]. split; [apply wrap8_small; lia | lia].
Qed.

(** X3: the value [main] returns tells what happened.  It is 0 exactly
    when no [pthread_create] failed: then all [num_threads] threads were
    started, all have returned, and nothing was written to the error
    stream.  Otherwise it is -1: some [pthread_create] failed, fewer than
    [num_threads] threads were started, and the error stream holds one
    diagnostic. *)
Theorem return_value_tells_outcome sch s rc :
  launch n sch = Some s -> pc s = M_exit rc ->
  (rc = 0 /\
   (forall k ret, In (Main, Create k ret) (trace s) -> ret = 0) /\
   Z.of_nat (length (pool s)) = n /\ all_done (pool s) /\
   stderr (trace s) = []) \/
  (rc = -1 /\
   (exists k ret, ret <> 0 /\ In (Main, Create k ret) (trace s)) /\
   Z.of_nat (length (pool s)) < n /\
   stderr (trace s) = [(perror_msg, errno s)]).
Proof.
  intros Hrun Hpc. assert (Hr : reachable n s) by now exists sch.
  destruct (reachable_inv n n_range s Hr) as [[_ _ _ _ Hok] [Hm _ _]].
  destruct (only_main_diagnoses n s Hr) as [Herr _].
  unfold main_ok in Hok. rewrite Hpc in Hok, Hm. unfold main_hist in Hm.
  destruct Hok as [[-> Hc]|(-> & Hc & Hd)]; simpl Z.eqb in Hm; cbv iota in Hm.
  - right. destruct Hm as (ret & Hret & Hm).
    split; [reflexivity|]. split.
    + exists (Z.of_nat (length (pool s))), ret. split; [assumption|].
      apply acts_of_In. rewrite Hm. apply in_or_app. left.
      unfold failing. apply in_or_app. right. right. now left.
    + split; [assumption|]. rewrite Herr, Hm, omap_app.
      now rewrite (proj1 (failing_quiet _ _)).
  - left. split; [reflexivity|]. split.
    + intros k ret Hin. apply acts_of_In in Hin. rewrite Hm in Hin.
      elem_cases; try discriminate Hin. now injection Hin as _ ->.
    + split; [assumption|]. split; [assumption|].
      rewrite Herr, Hm. unfold joined, launched.
      rewrite !omap_app.
      change (omap diagnosed (?x :: ?l))
        with (option_list' (diagnosed x) ++ omap diagnosed l).
      now rewrite diagnosed_spawns, diagnosed_joins.
Qed.

End Defined.

(** ** What is written stays *)

Section Stable.

Variable n : Z.
Hypothesis n_range : 0 <= n < 65536.

Lemma step_keeps c s s' :
  state_inv n s -> array_inv n s -> step n c s = Some s' ->
  (forall i v, thread_id s !! i = Some (Some v) ->
     thread_id s' !! i = Some (Some v)) /\
  (forall i h, threads s !! i = Some (Some h) ->
     threads s' !! i = Some (Some h)) /\
  (forall slot w, pool s !! slot = Some w ->
     exists w', pool s' !! slot = Some w' /\
       (worker_fuel w' <= worker_fuel w)%nat) /\
  (length (pool s) <= length (pool s'))%nat.
Proof.
  intros [Hl1 Hl2 Hsl Hwk Hpc] [Hhf Hif His] Hst. unfold step in Hst.
  destruct (exited s); [discriminate|]. destruct c as [r|slot].
  - assert (Hsame : forall p a,
      (forall i v, thread_id s !! i = Some (Some v) ->
         thread_id (goto p a s) !! i = Some (Some v)) /\
      (forall i h, threads s !! i = Some (Some h) ->
         threads (goto p a s) !! i = Some (Some h)) /\
      (forall slot w, pool s !! slot = Some w ->
         exists w', pool (goto p a s) !! slot = Some w' /\
           (worker_fuel w' <= worker_fuel w)%nat) /\
      (length (pool s) <= length (pool (goto p a s)))%nat).
    { intros p a. simpl. repeat split; try tauto; try lia.
      intros slot w Hw. now exists w. }
    unfold main_step in Hst. unfold main_ok in Hpc.
    destruct (pc s) as [|k|k| |rc|j|rc] eqn:Epc.
    + injection Hst as <-. apply Hsame.
    + destruct Hpc as [Hk Hkn]. destruct (k <? n) eqn:Ek.
      * destruct (store (thread_id s) k (wrap16 (k + 1))) as [ids|] eqn:Est;
          [|discriminate].
        injection Hst as <-. apply store_Some in Est as [Hb ->]. simpl.
        assert (Hfresh : thread_id s !! Z.to_nat k = Some None).
        { apply Hif. simpl. lia. }
        repeat split; try tauto; try lia.
        -- intros i v Hv. rewrite list_lookup_insert_ne; [assumption|].
           intros <-. congruence.
        -- intros slot w Hw. now exists w.
      * injection Hst as <-. apply Hsame.
    + destruct Hpc as (Hk & Hkn & Hid). destruct (create_ret r =? 0).
      * destruct (store (threads s) k (length (pool s))) as [hs|] eqn:Est;
          [|discriminate].
        injection Hst as <-. apply store_Some in Est as [Hb ->]. simpl.
        assert (Hfresh : threads s !! Z.to_nat k = Some None).
        { apply Hhf. lia. }
        repeat split; try tauto.
        -- intros i h Hh. rewrite list_lookup_insert_ne; [assumption|].
           intros <-. congruence.
        -- intros slot w Hw. exists w. split; [|lia].
           rewrite lookup_app_l; [assumption|]. eapply lookup_lt_Some; eauto.
        -- rewrite length_app. lia.
      * injection Hst as <-. simpl. repeat split; try tauto; try lia.
        intros slot w Hw. now exists w.
    + injection Hst as <-. apply Hsame.
    + injection Hst as <-. apply Hsame.
    + destruct (j <? n).
      * destruct (load _ _); [|discriminate].
        destruct (pool s !! _) as [[?|? ?|? ?| |?]|]; try discriminate.
        injection Hst as <-. apply Hsame.
      * injection Hst as <-. apply Hsame.
    + discriminate.
  - apply thread_step_Some in Hst as (w & w' & a & Ew & Es & ->). simpl.
    pose proof (lookup_lt_Some _ _ _ Ew) as Hlt.
    pose proof (worker_step_fuel _ _ _ _ _ (Hwk _ _ Ew) (proj1 (Hsl _ Hlt)) Es)
      as Hfuel.
    repeat split; try tauto.
    + intros slot0 w0 H0. destruct (decide (slot0 = slot)) as [->|Hne].
      * exists w'. rewrite list_lookup_insert_eq by assumption.
        split; [reflexivity|]. rewrite Ew in H0. injection H0 as <-. lia.
      * exists w0. rewrite list_lookup_insert_ne by congruence.
        split; [assumption | lia].
    + rewrite length_insert. lia.
Qed.

Lemma run_keeps sch s s' :
  reachable n s -> run n sch s = Some s' ->
  (forall i v, thread_id s !! i = Some (Some v) ->
     thread_id s' !! i = Some (Some v)) /\
  (forall i h, threads s !! i = Some (Some h) ->
     threads s' !! i = Some (Some h)) /\
  (forall slot w, pool s !! slot = Some w ->
     exists w', pool s' !! slot = Some w' /\
       (worker_fuel w' <= worker_fuel w)%nat) /\
  (length (pool s) <= length (pool s'))%nat.
Proof.
  revert s. induction sch as [|c sch IH]; intros s Hr Hrun; simpl in Hrun.
  - injection Hrun as <-. repeat split; try tauto; try lia.
    intros slot w Hw. now exists w.
  - destruct (step n c s) as [s1|] eqn:E; [|discriminate].
    destruct (step_keeps c s s1 (reachable_state_inv n n_range s Hr)
                (reachable_array_inv n n_range s Hr) E)
      as (H1 & H2 & H3 & H4).
    destruct (IH s1 (reachable_step _ _ _ _ Hr E) Hrun)
      as (K1 & K2 & K3 & K4).
    repeat split.
    + intros i v Hv. now apply K1, H1.
    + intros i h Hh. now apply K2, H2.
    + intros slot w Hw. destruct (H3 _ _ Hw) as (w1 & Hw1 & Hf1).
      destruct (K3 _ _ Hw1) as (w2 & Hw2 & Hf2). exists w2.
      split; [assumption | lia].
    + lia.
Qed.

(** X4: what has been written is not changed while [main] runs, and a
    thread never goes back.  However the run goes on, as long as [main]
    has not returned an identifier cell keeps its value, and so does a
    handle cell.  A thread that exists keeps existing and only moves
    forward in [thread_func], and one that has returned stays returned,
    in the whole life of the process. *)
Theorem written_cells_never_change sch1 sch2 l s s' s'' :
  launch n sch1 = Some s -> run n sch2 s = Some s' ->
  orphans l s' = Some s'' ->
  (exited s' = false ->
   (forall i v, thread_id s !! i = Some (Some v) ->
      thread_id s' !! i = Some (Some v)) /\
   (forall i h, threads s !! i = Some (Some h) ->
      threads s' !! i = Some (Some h))) /\
  (forall slot w, pool s !! slot = Some w ->
     exists w', pool s'' !! slot = Some w' /\
       (worker_fuel w' <= worker_fuel w)%nat) /\
  (forall slot ret, pool s !! slot = Some (W_done ret) ->
     pool s'' !! slot = Some (W_done ret)) /\
  (length (pool s) <= length (pool s''))%nat.
Proof.
  intros Hrun1 Hrun2 Ho. assert (Hr : reachable n s) by now exists sch1.
  destruct (run_keeps sch2 s s' Hr Hrun2) as (H1 & H2 & H3 & H4).
  assert (Hr' : reachable n s').
  { destruct Hr as [sch Hs]. exists (sch ++ sch2).
    unfold launch in *. now rewrite run_app, Hs. }
  pose proof (launch_read_inv n n_range s' Hr') as Hi'.
  pose proof (orphans_read_inv l s' s'' Hi' Ho) as Hi''.
  pose proof (orphans_keeps l s' s'' Hi' Ho) as H5.
  destruct (orphans_frame l s' s'' Ho) as (_ & _ & _ & _ & Elen & _).
  assert (H6 : forall slot w, pool s !! slot = Some w ->
            exists w', pool s'' !! slot = Some w' /\
              (worker_fuel w' <= worker_fuel w)%nat).
  { intros slot w Hw. destruct (H3 _ _ Hw) as (w1 & Hw1 & Hf1).
    destruct (H5 _ _ Hw1) as (w2 & Hw2 & Hf2). exists w2.
    split; [assumption | lia]. }
  split; [intros _; split; assumption|]. split; [exact H6|].
  split; [|lia].
  intros slot ret Hw. destruct (H6 _ _ Hw) as (w' & Hw' & Hf).
  pose proof (workers_ok _ _ (reachable_state_inv n n_range s Hr) _ _ Hw)
    as Hok.
  destruct (proj1 Hi'' _ _ Hw') as (v & _ & Hok' & _).
  simpl in Hok. subst ret. rewrite Hw'. f_equal.
  destruct w' as [arg|num i|num i| |r]; simpl in Hf, Hok'; try lia.
  now subst r.
Qed.

End Stable.

(** ** What happens before what *)

Lemma main_step_join n r s s' j :
  main_step n r s = Some s' ->
  trace s' = trace s ++ [(Main, Join j)] ->
  pc s = M_join j /\ j < n /\ pool s' = pool s /\
  exists h ret, load (threads s) j = Some h /\ pool s !! h = Some (W_done ret).
Proof.
  unfold main_step. intros H Ht.
  destruct (pc s) as [|k|k| |rc|j'|rc].
  - injection H as <-. simpl in Ht. apply app_inv_head in Ht. discriminate.
  - destruct (k <? n).
    + destruct (store _ _ _); [|discriminate]. injection H as <-.
      simpl in Ht. apply app_inv_head in Ht. discriminate.
    + injection H as <-. simpl in Ht. apply app_inv_head in Ht. discriminate.
  - destruct (create_ret r =? 0).
    + destruct (store _ _ _); [|discriminate]. injection H as <-.
      simpl in Ht. apply app_inv_head in Ht. discriminate.
    + injection H as <-. simpl in Ht. apply app_inv_head in Ht. discriminate.
  - injection H as <-. simpl in Ht. apply app_inv_head in Ht. discriminate.
  - injection H as <-. simpl in Ht. apply app_inv_head in Ht. discriminate.
  - destruct (j' <? n) eqn:Ej.
    + destruct (load (threads s) j') as [h|] eqn:Eh; [|discriminate].
      destruct (pool s !! h) as [[?|? ?|? ?| |ret]|] eqn:Ep; try discriminate.
      injection H as <-. simpl in Ht. apply app_inv_head in Ht.
      injection Ht as <-. repeat split; [lia|]. now exists h, ret.
    + injection H as <-. simpl in Ht. apply app_inv_head in Ht. discriminate.
  - discriminate.
Qed.

Section Order.

Variable n : Z.
Hypothesis n_range : 0 <= n < 65536.



(** X6: [pthread_join] returns only for a thread that has returned, and
    the threads are joined in the order of their indices.  When the join
    of index [j] returns, [main] has started all threads, printed its
    second line and joined exactly the threads of the indices below [j];
    the worker of index [j] has made all its calls; and that worker does
    nothing afterwards. *)
Theorem join_returns_after_worker sch s t1 j t2 :
  launch n sch = Some s ->
  trace s = t1 ++ (Main, Join j) :: t2 ->
  0 <= j < n /\
  acts_of Main t1
  = Printf creating_line :: spawns (Z.to_nat n)
    ++ Printf waiting_line :: joins (Z.to_nat j) /\
  acts_of (Thr (Z.to_nat j)) t1 = thread_func_calls j (j + 1) /\
  (forall x, ~ In (Thr (Z.to_nat j), x) t2).
Proof.
  intros Hrun Ht.
  destruct (launch_split _ _ _ _ _ _ Hrun Ht)
    as (c & s1 & s2 & Hr1 & Ht1 & Hst & Ht2 & sch2 & Hrun2).
  rewrite <- Ht1 in Ht2.
  destruct (step_main _ _ _ _ _ Hst Ht2) as (r & -> & Hm).
  destruct (main_step_join _ _ _ _ _ Hm Ht2)
    as (Hpc1 & Hjn & Hpool & h & ret & Hh & Hdone).
  destruct (reachable_inv n n_range s1 Hr1) as [Hinv [Hmh Hwh _]].
  pose proof (pc_ok _ _ Hinv) as Hok. unfold main_ok in Hok.
  rewrite Hpc1 in Hok. destruct Hok as (Hc & Hj0 & _).
  assert (Hlt : (Z.to_nat j < length (pool s1))%nat) by lia.
  apply load_Some in Hh as [_ Hh].
  rewrite (proj2 (slots_ok _ _ Hinv _ Hlt)) in Hh. injection Hh as <-.
  pose proof (workers_ok _ _ Hinv _ _ Hdone) as Hret. simpl in Hret.
  subst ret.
  rewrite Hpc1 in Hmh. unfold main_hist in Hmh. rewrite Ht1 in Hmh.
  pose proof (Hwh _ _ Hdone) as Hacts. rewrite Ht1 in Hacts.
  simpl in Hacts. rewrite Z2Nat.id in Hacts by lia.
  split; [lia|]. split.
  { rewrite Hmh. unfold joined, launched.
    replace (length (pool s1)) with (Z.to_nat n) by lia. reflexivity. }
  split; [exact Hacts|].
  intros x Hin.
  assert (Hr : reachable n s) by now exists sch.
  destruct (run_keeps n n_range (Run_main r :: sch2) s1 s Hr1) as (_ & _ & H3 & _).
  { simpl. now rewrite Hst. }
  destruct (H3 _ _ Hdone) as (w' & Hw' & Hf).
  destruct (reachable_inv n n_range s Hr) as [Hinv' [_ Hwh' _]].
  pose proof (workers_ok _ _ Hinv' _ _ Hw') as Hok'.
  assert (w' = W_done NULL) as ->.
  { destruct w' as [arg|num i|num i| |r']; simpl in Hf, Hok'; try lia.
    now subst r'. }
  pose proof (Hwh' _ _ Hw') as Hfinal. simpl in Hfinal.
  rewrite Z2Nat.id in Hfinal by lia.
  rewrite Ht, acts_of_app, Hacts in Hfinal.
  rewrite <- (app_nil_r (thread_func_calls j (j + 1))) in Hfinal at 2.
  apply app_inv_head in Hfinal.
  change ((Main, Join j) :: t2) with ([(Main, Join j)] ++ t2) in Hfinal.
  rewrite acts_of_app in Hfinal. simpl in Hfinal.
  apply acts_of_In in Hin. rewrite Hfinal in Hin. destruct Hin.
Qed.

End Order.

(** ** How much is printed, and how long a run is *)

Lemma sum_with_insert (f : worker_pc -> nat) (p : list worker_pc) i w w' :
  p !! i = Some w ->
  (sum_list_with f (<[i := w']> p) + f w = sum_list_with f p + f w')%nat.
Proof.
  revert i. induction p as [|x p IH]; intros [|i] H; try discriminate.
  - injection H as ->. simpl. lia.
  - simpl in H. specialize (IH i H). simpl. lia.
Qed.

Lemma sum_all_done (f : worker_pc -> nat) (p : list worker_pc) :
  all_done p -> sum_list_with f p = (length p * f (W_done NULL))%nat.
Proof.
  induction p as [|x p IH]; intros Hd; [reflexivity|].
  assert (x = W_done NULL) as -> by exact (Hd 0%nat x eq_refl).
  simpl. rewrite IH; [lia|]. intros i w Hi. exact (Hd (S i) w Hi).
Qed.

Section Totals.

Variable n : Z.
Hypothesis n_range : 0 <= n < 65536.

(** The standard output has as many lines as the threads have printed. *)
Lemma reachable_lines_printed s :
  reachable n s -> length (stdout (trace s)) = lines_printed s.
Proof.
  revert s. apply (reachable_ind' n
    (fun s => length (stdout (trace s)) = lines_printed s)).
  - reflexivity.
  - intros c s s' Hr IH Hst.
    pose proof (reachable_state_inv n n_range _ Hr) as Hinv.
    unfold step in Hst. destruct (exited s); [discriminate|].
    destruct c as [r|slot].
    + destruct (main_step_printed _ _ _ _ Hst) as (a & Ht & Hp & _ & Hpool).
      unfold lines_printed in *. rewrite Ht, stdout_snoc, length_app, Hp,
        length_app, IH.
      destruct Hpool as [->|[k ->]]; [lia|].
      rewrite sum_list_with_app. simpl. lia.
    + apply thread_step_Some in Hst as (w & w' & a & Ew & Es & ->).
      pose proof (lookup_lt_Some _ _ _ Ew) as Hlt.
      pose proof (sum_with_insert worker_lines _ _ _ w' Ew) as Hsum.
      unfold lines_printed in *. simpl. rewrite stdout_snoc, length_app, IH.
      destruct (worker_step_printed _ _ _ _ _ (workers_ok _ _ Hinv _ _ Ew)
                  (proj1 (slots_ok _ _ Hinv _ Hlt)) Es)
        as [(-> & Hr1 & Hf1)|[(-> & Hr1 & Hf1)|(-> & Hr1 & Hf1)]];
        pose proof (eq_refl : worker_lines w
                              = (worker_runs w + worker_fins w)%nat);
        pose proof (eq_refl : worker_lines w'
                              = (worker_runs w' + worker_fins w')%nat);
        simpl; lia.
Qed.

Lemma step_measure_exact c s s' :
  state_inv n s -> step n c s = Some s' -> not_failed (pc s') = true ->
  not_failed (pc s) = true /\ measure n s = S (measure n s').
Proof.
  intros [Hl1 Hl2 Hsl Hwk Hpc] Hst Hnf. unfold step in Hst.
  destruct (exited s); [discriminate|]. destruct c as [r|slot].
  - unfold main_step in Hst. unfold main_ok in Hpc. unfold measure.
    destruct (pc s) as [|k|k| |rc|j|rc] eqn:Epc.
    + injection Hst as <-. simpl. split; [reflexivity | lia].
    + destruct Hpc as [Hk Hkn]. destruct (k <? n) eqn:Ek.
      * destruct (store _ _ _); [|discriminate]. injection Hst as <-.
        simpl. split; [reflexivity | lia].
      * injection Hst as <-. simpl. split; [reflexivity | lia].
    + destruct Hpc as (Hk & Hkn & _). destruct (create_ret r =? 0).
      * destruct (store _ _ _); [|discriminate]. injection Hst as <-.
        simpl. rewrite wrap16_small by lia.
        rewrite sum_list_with_app, length_app. simpl.
        split; [reflexivity | lia].
      * injection Hst as <-. discriminate Hnf.
    + injection Hst as <-. discriminate Hnf.
    + injection Hst as <-. simpl in *. split; [assumption | lia].
    + destruct Hpc as (Hc & Hj & _). destruct (j <? n) eqn:Ej.
      * destruct (load _ _); [|discriminate].
        destruct (pool s !! _) as [[?|? ?|? ?| |?]|]; try discriminate.
        injection Hst as <-. simpl. rewrite wrap16_small by lia.
        split; [reflexivity | lia].
      * injection Hst as <-. simpl. split; [reflexivity | lia].
    + discriminate.
  - apply thread_step_Some in Hst as (w & w' & a & Ew & Es & ->).
    pose proof (lookup_lt_Some _ _ _ Ew) as Hlt.
    pose proof (worker_step_fuel _ _ _ _ _ (Hwk _ _ Ew) (proj1 (Hsl _ Hlt)) Es).
    pose proof (sum_fuel_insert _ _ _ w' Ew).
    simpl in Hnf. split; [assumption|].
    unfold measure. simpl. rewrite length_insert. lia.
Qed.

(** As long as no [pthread_create] has failed, the steps taken and the
    steps still to take add up to [16 * n + 4]. *)
Lemma reachable_steps_exact s :
  reachable n s -> not_failed (pc s) = true ->
  (length (trace s) + measure n s = 16 * Z.to_nat n + 4)%nat.
Proof.
  revert s. apply (reachable_ind' n (fun s => not_failed (pc s) = true ->
    (length (trace s) + measure n s = 16 * Z.to_nat n + 4)%nat)).
  - intros _. unfold measure. simpl. lia.
  - intros c s s' Hr IH Hst Hnf.
    destruct (step_measure_exact c s s' (reachable_state_inv n n_range _ Hr)
                Hst Hnf) as [Hnf0 Hm].
    specialize (IH Hnf0). apply step_trace in Hst as [a ->].
    rewrite length_app. simpl. lia.
Qed.

(** X7: as long as [main] does not return -1, at no moment has a worker
    printed too much.  In a process whose [main] has not returned, or has
    returned 0, for every identifier [printf] was called at most 5 times
    with the "running" line and at most once with the "finished" line,
    with the "finished" line only when all 5 "running" lines were
    printed; it was called with no line of an identifier whose thread
    does not exist; and with each of main's three lines at most once. *)
Theorem never_too_many_lines sch l s0 s :
  launch n sch = Some s0 -> orphans l s0 = Some s ->
  pc s0 <> M_exit (-1) ->
  (forall id,
     (count_line (running_line id) (stdout (trace s)) <= 5)%nat /\
     (count_line (finished_line id) (stdout (trace s)) <= 1)%nat /\
     (count_line (finished_line id) (stdout (trace s)) = 1%nat ->
      count_line (running_line id) (stdout (trace s)) = 5%nat) /\
     (~ 1 <= id <= Z.of_nat (length (pool s)) ->
      count_line (running_line id) (stdout (trace s)) = 0%nat /\
      count_line (finished_line id) (stdout (trace s)) = 0%nat)) /\
  (forall x, In x main_lines ->
     (count_line x (stdout (trace s)) <= 1)%nat).
Proof.
  intros Hrun Ho Hnf. assert (Hr : reachable n s0) by now exists sch.
  rewrite (no_orphans_unless_failed n n_range l s0 s Hr Hnf Ho).
  clear Ho Hnf s. rename s0 into s.
  destruct (reachable_count_inv n n_range s Hr) as [Hcm Hcw Hcn].
  pose proof (reachable_state_inv n n_range s Hr) as Hinv.
  split.
  - intros id.
    destruct (decide (1 <= id <= Z.of_nat (length (pool s)))) as [Hid|Hid].
    + assert (is_Some (pool s !! Z.to_nat (id - 1))) as [w Hw]
        by (apply lookup_lt_is_Some_2; lia).
      destruct (Hcw _ _ Hw) as [H1 H2].
      replace (Z.of_nat (Z.to_nat (id - 1)) + 1) with id in H1, H2 by lia.
      rewrite H1, H2. pose proof (workers_ok _ _ Hinv _ _ Hw) as Hok.
      destruct w as [arg|num i|num i| |r]; simpl in *;
        (split; [lia|]; split; [lia|]; split; [intros; lia | intros; lia]).
    + destruct (Hcn id Hid) as [-> ->].
      split; [lia|]. split; [lia|]. split; [intros; lia | now intros].
  - intros x Hx. rewrite (Hcm x Hx).
    destruct (pc s) as [|k|k| |rc|j|rc]; simpl; try destruct (rc =? 0);
      destruct Hx as [<-|[<-|[<-|[]]]]; vm_compute; lia.
Qed.

(** X8: whatever [num_threads] is, a run that ends with [main] returning
    0 took exactly [16 * num_threads + 4] steps and printed exactly
    [6 * num_threads + 3] lines: each of main's three lines once, and for
    every identifier of [1..num_threads] exactly 5 "running" lines and 1
    "finished" line. *)
Theorem successful_run_totals sch s :
  launch n sch = Some s -> pc s = M_exit 0 ->
  length sch = (16 * Z.to_nat n + 4)%nat /\
  length (trace s) = (16 * Z.to_nat n + 4)%nat /\
  length (stdout (trace s)) = (6 * Z.to_nat n + 3)%nat /\
  (forall x, In x main_lines -> count_line x (stdout (trace s)) = 1%nat) /\
  (forall id, 1 <= id <= n ->
     count_line (running_line id) (stdout (trace s)) = 5%nat /\
     count_line (finished_line id) (stdout (trace s)) = 1%nat).
Proof.
  intros Hrun Hpc. assert (Hr : reachable n s) by now exists sch.
  destruct (success_tail n n_range _ _ Hrun Hpc)
    as (s1 & _ & _ & Hd & Hlen & Hpool & _).
  rewrite <- Hpool in Hd, Hlen.
  assert (Hsteps : length (trace s) = (16 * Z.to_nat n + 4)%nat).
  { pose proof (reachable_steps_exact s Hr) as H. rewrite Hpc in H.
    specialize (H eq_refl). unfold measure in H. rewrite Hpc in H.
    rewrite (sum_all_done _ _ Hd) in H. simpl in H. lia. }
  destruct (success_counts n sch s n_range Hrun Hpc) as [Hcm Hcw].
  split.
  { destruct (run_trace _ _ _ _ Hrun) as (t & Ht & Htl). simpl in Ht.
    rewrite <- Htl, <- Ht. exact Hsteps. }
  split; [exact Hsteps|]. split.
  { rewrite (reachable_lines_printed s Hr). unfold lines_printed.
    rewrite Hpc, (sum_all_done _ _ Hd). simpl. unfold worker_lines. simpl.
    lia. }
  split; [exact Hcm|].
  intros id Hid. specialize (Hcw (Z.to_nat (id - 1)) ltac:(lia)).
  replace (Z.of_nat (Z.to_nat (id - 1)) + 1) with id in Hcw by lia.
  exact Hcw.
Qed.

End Totals.

(** ** The schedule decides the interleaving and nothing else *)

Section Agreement.

Variable n : Z.
Hypothesis n_range : 0 <= n < 65536.

(** The memory at the end of a run that returned 0. *)
Lemma final_memory s :
  reachable n s -> pc s = M_exit 0 ->
  thread_id s = (fun i => Some (Z.of_nat i + 1)) <$> seq 0 (Z.to_nat n) /\
  threads s = (fun i => Some i) <$> seq 0 (Z.to_nat n) /\
  pool s = replicate (Z.to_nat n) (W_done NULL).
Proof.
  intros Hr Hpc.
  destruct (reachable_state_inv n n_range s Hr) as [Hl1 Hl2 Hsl _ Hok].
  unfold main_ok in Hok. rewrite Hpc in Hok.
  destruct Hok as [[H _]|(_ & Hc & Hd)]; [discriminate|].
  repeat split; apply list_eq; intros i; rewrite ?list_lookup_fmap;
    destruct (decide (i < Z.to_nat n)%nat) as [Hi|Hi].
  - rewrite lookup_seq_lt by assumption. simpl.
    now apply Hsl; lia.
  - rewrite lookup_seq_ge, lookup_ge_None_2 by lia. reflexivity.
  - rewrite lookup_seq_lt by assumption. simpl.
    now apply Hsl; lia.
  - rewrite lookup_seq_ge, lookup_ge_None_2 by lia. reflexivity.
  - rewrite lookup_replicate_2 by assumption.
    assert (is_Some (pool s !! i)) as [w Hw]
      by (apply lookup_lt_is_Some_2; lia).
    now rewrite Hw, (Hd _ _ Hw).
  - rewrite !lookup_ge_None_2; [reflexivity | |lia].
    rewrite length_replicate. lia.
Qed.

(** X9: two runs that both end with [main] returning 0 differ only in
    how the threads were interleaved.  They leave the same memory (both
    arrays, and every worker returned), every thread has made the same
    calls in the same order, the runs have the same length, and the two
    standard outputs hold the same lines, in possibly different order. *)
Theorem successful_runs_agree sch1 sch2 s1 s2 :
  launch n sch1 = Some s1 -> launch n sch2 = Some s2 ->
  pc s1 = M_exit 0 -> pc s2 = M_exit 0 ->
  thread_id s1 = thread_id s2 /\ threads s1 = threads s2 /\
  pool s1 = pool s2 /\
  (forall a, acts_of a (trace s1) = acts_of a (trace s2)) /\
  length sch1 = length sch2 /\
  Permutation (stdout (trace s1)) (stdout (trace s2)).
Proof.
  intros Hrun1 Hrun2 Hpc1 Hpc2.
  assert (Hr1 : reachable n s1) by now exists sch1.
  assert (Hr2 : reachable n s2) by now exists sch2.
  destruct (final_memory s1 Hr1 Hpc1) as (Hi1 & Hh1 & Hp1).
  destruct (final_memory s2 Hr2 Hpc2) as (Hi2 & Hh2 & Hp2).
  assert (Hpool : pool s1 = pool s2) by congruence.
  split; [congruence|]. split; [congruence|]. split; [exact Hpool|].
  split.
  { destruct (reachable_inv n n_range s1 Hr1) as [_ [Hm1 Hw1 Hn1]].
    destruct (reachable_inv n n_range s2 Hr2) as [_ [Hm2 Hw2 Hn2]].
    intros [|slot].
    - rewrite Hpc1 in Hm1. rewrite Hpc2 in Hm2. unfold main_hist in *.
      simpl Z.eqb in *. cbv iota in *. rewrite Hm1, Hm2, Hpool. reflexivity.
    - destruct (pool s1 !! slot) as [w|] eqn:E.
      + rewrite (Hw1 _ _ E). rewrite Hpool in E. now rewrite (Hw2 _ _ E).
      + pose proof E as E2. rewrite Hpool in E2.
        apply lookup_ge_None in E, E2. now rewrite (Hn1 _ E), (Hn2 _ E2). }
  split.
  { destruct (run_trace _ _ _ _ Hrun1) as (t1 & Ht1 & Hl1).
    destruct (run_trace _ _ _ _ Hrun2) as (t2 & Ht2 & Hl2).
    simpl in Ht1, Ht2. rewrite <- Hl1, <- Hl2, <- Ht1, <- Ht2.
    pose proof (reachable_steps_exact n n_range s1 Hr1) as K1.
    pose proof (reachable_steps_exact n n_range s2 Hr2) as K2.
    rewrite Hpc1 in K1. rewrite Hpc2 in K2.
    specialize (K1 eq_refl). specialize (K2 eq_refl).
    unfold measure in K1, K2. rewrite Hpc1 in K1. rewrite Hpc2, <- Hpool in K2.
    lia. }
  destruct (success_counts n sch1 s1 n_range Hrun1 Hpc1) as [Hcm1 Hcw1].
  destruct (success_counts n sch2 s2 n_range Hrun2 Hpc2) as [Hcm2 Hcw2].
  assert (Hlen1 : length (pool s1) = Z.to_nat n)
    by (rewrite Hp1; apply length_replicate).
  assert (Hknown : forall s, reachable n s -> length (pool s) = Z.to_nat n ->
    (forall x, In x main_lines -> count_line x (stdout (trace s)) = 1%nat) ->
    (forall slot, (slot < Z.to_nat n)%nat ->
       count_line (running_line (Z.of_nat slot + 1)) (stdout (trace s)) = 5%nat /\
       count_line (finished_line (Z.of_nat slot + 1)) (stdout (trace s)) = 1%nat) ->
    forall x, In x (stdout (trace s)) ->
      In x main_lines \/
      exists slot, (slot < Z.to_nat n)%nat /\
        (x = running_line (Z.of_nat slot + 1) \/
         x = finished_line (Z.of_nat slot + 1))).
  { intros s Hr Hl _ _ x Hx. destruct (reachable_lines n n_range s Hr x Hx)
      as [H|(slot & Hs & H)]; [now left|]. right. exists slot.
    split; [lia | assumption]. }
  assert (Hsame : forall x,
    In x main_lines \/
    (exists slot, (slot < Z.to_nat n)%nat /\
       (x = running_line (Z.of_nat slot + 1) \/
        x = finished_line (Z.of_nat slot + 1))) ->
    count_line x (stdout (trace s1)) = count_line x (stdout (trace s2)) /\
    (0 < count_line x (stdout (trace s1)))%nat).
  { intros x [Hx|(slot & Hslot & [-> | ->])].
    - rewrite (Hcm1 x Hx), (Hcm2 x Hx). split; [reflexivity | lia].
    - destruct (Hcw1 slot Hslot) as [-> _].
      destruct (Hcw2 slot Hslot) as [-> _]. split; [reflexivity | lia].
    - destruct (Hcw1 slot Hslot) as [_ ->].
      destruct (Hcw2 slot Hslot) as [_ ->]. split; [reflexivity | lia]. }
  apply (Permutation_count_occ string_dec). intros x.
  destruct (in_dec string_dec x (stdout (trace s1))) as [Hin|Hnin].
  - apply Hsame. now apply (Hknown s1 Hr1 Hlen1 Hcm1 Hcw1).
  - transitivity 0%nat; [now apply count_occ_not_In|]. symmetry.
    apply count_occ_not_In. intros Hin2. apply Hnin.
    apply (count_occ_In string_dec).
    apply (Hknown s2 Hr2 ltac:(congruence) Hcm2 Hcw2), Hsame in Hin2.
    exact (proj2 Hin2).
Qed.

End Agreement.

(** ** [main] goes through its calls once *)

Lemma NoDup_spawns k : List.NoDup (spawns k).
Proof.
  induction k as [|k IH]; [constructor|].
  rewrite spawns_S. apply List.NoDup_app; [exact IH | |].
  - unfold spawn. constructor; [intros [H|[]]; discriminate|].
    constructor; [intros []|constructor].
  - intros a Hin Hin2. apply spawns_elem in Hin as (i & Hi & Ha).
    destruct Hin2 as [<-|[<-|[]]]; destruct Ha as [Ha|Ha];
      try discriminate Ha; injection Ha as Ha; lia.
Qed.

Lemma NoDup_joins j : List.NoDup (joins j).
Proof.
  induction j as [|j IH]; [constructor|].
  rewrite joins_S. apply List.NoDup_app; [exact IH | |].
  - constructor; [intros []|constructor].
  - intros a Hin Hin2. apply joins_elem in Hin as (i & Hi & ->).
    destruct Hin2 as [H|[]]. injection H as H. lia.
Qed.

Ltac no_dup_step :=
  match goal with
  | |- List.NoDup (_ ++ _) => apply List.NoDup_app
  | |- List.NoDup (spawns _) => apply NoDup_spawns
  | |- List.NoDup (joins _) => apply NoDup_joins
  | |- List.NoDup (launched _) => unfold launched
  | |- List.NoDup (_ :: _) => constructor
  | |- List.NoDup [] => constructor
  | |- ~ In _ _ => intros ?
  | |- forall a, In a _ -> ~ In a _ => intros ? ? ?
  end.

Ltac elem_contra :=
  repeat match goal with
         | H : In _ (spawns _) |- _ =>
             apply spawns_elem in H as (? & ? & [H|H])
         | H : In _ (joins _) |- _ => apply joins_elem in H as (? & ? & H)
         | H : In _ (launched _) |- _ => unfold launched in H
         | H : In _ (_ ++ _) |- _ => apply in_app_or in H as [H|H]
         | H : In _ (_ :: _) |- _ => destruct H as [H|H]
         | H : In _ [] |- _ => destruct H
         end;
  subst; try discriminate;
  try match goal with
      | H : StoreId _ _ = StoreId _ _ |- _ => injection H; intros; lia
      | H : Create _ _ = Create _ _ |- _ => injection H; intros; lia
      | H : Join _ = Join _ |- _ => injection H; intros; lia
      end.

Lemma NoDup_success_calls k : List.NoDup (success_calls k).
Proof.
  unfold success_calls, joined. rewrite <- app_assoc.
  repeat no_dup_step; elem_contra.
Qed.

Lemma NoDup_failure_calls k ret err : List.NoDup (failure_calls k ret err).
Proof.
  unfold failure_calls, failing.
  repeat no_dup_step; elem_contra.
Qed.

Lemma joins_prefix j k :
  (j <= k)%nat -> exists rest, joins k = joins j ++ rest.
Proof.
  intros H. replace k with (j + (k - j))%nat by lia.
  unfold joins. rewrite seq_app, map_app. now eexists.
Qed.

Section Sequence.

Variable n : Z.
Hypothesis n_range : 0 <= n < 65536.

(** X10: [main] goes through one fixed sequence of calls, whatever the
    workers do meanwhile.  Its history is always a beginning either of
    the calls of a run in which all threads start, or of the calls of a
    run in which the [pthread_create] of some index fails; and it never
    holds the same call twice: no index is assigned or started twice, no
    thread is joined twice, no line is printed twice. *)
Theorem main_follows_one_sequence sch s :
  launch n sch = Some s ->
  ((exists rest, success_calls (Z.to_nat n) = acts_of Main (trace s) ++ rest) \/
   (exists k ret err rest,
      Z.of_nat k < n /\ ret <> 0 /\
      failure_calls k ret err = acts_of Main (trace s) ++ rest)) /\
  List.NoDup (acts_of Main (trace s)).
Proof.
  intros Hrun. assert (Hr : reachable n s) by now exists sch.
  destruct (reachable_inv n n_range s Hr) as [[_ _ _ _ Hpc] [Hm _ _]].
  assert (Hpre :
    (exists rest, success_calls (Z.to_nat n) = acts_of Main (trace s) ++ rest) \/
    (exists k ret err rest,
       Z.of_nat k < n /\ ret <> 0 /\
       failure_calls k ret err = acts_of Main (trace s) ++ rest)).
  { unfold main_ok in Hpc. unfold main_hist in Hm.
    destruct (pc s) as [|k|k| |rc|j|rc].
    - left. rewrite Hm. now eexists.
    - destruct Hpc as [Hc Hk]. destruct (decide (k = n)) as [->|Hne].
      + left. rewrite Hm. replace (length (pool s)) with (Z.to_nat n) by lia.
        unfold success_calls, joined. rewrite <- app_assoc.
        eexists. reflexivity.
      + right. exists (length (pool s)), 1, 0. rewrite Hm.
        unfold failure_calls, failing. rewrite <- app_assoc.
        eexists. split; [lia | split; [lia | reflexivity]].
    - destruct Hpc as (Hc & Hk & _). right.
      exists (length (pool s)), 1, 0. rewrite Hm.
      unfold failure_calls, failing.
      eexists. split; [lia|]. split; [lia|].
      rewrite <- !app_assoc. reflexivity.
    - right. destruct Hm as (ret & Hret & ->).
      exists (length (pool s)), ret, 0. unfold failure_calls.
      eexists. split; [lia | split; [exact Hret | reflexivity]].
    - destruct Hpc as [[-> Hc]|(-> & Hc & _)]; simpl Z.eqb in Hm;
        cbv iota in Hm.
      + right. destruct Hm as (ret & Hret & ->).
        exists (length (pool s)), ret, (errno s). unfold failure_calls.
        eexists. split; [lia|]. split; [exact Hret|].
        rewrite <- app_assoc. reflexivity.
      + left. rewrite Hm. replace (length (pool s)) with (Z.to_nat n) by lia.
        exists [Return 0]. unfold success_calls. rewrite <- app_assoc.
        reflexivity.
    - destruct Hpc as (Hc & Hj & _). left. rewrite Hm.
      replace (length (pool s)) with (Z.to_nat n) by lia.
      destruct (joins_prefix (Z.to_nat j) (Z.to_nat n) ltac:(lia))
        as [rest Hrest].
      exists (rest ++ [Printf all_finished_line; Return 0]).
      unfold success_calls, joined, launched. rewrite Hrest. simpl.
      rewrite <- !app_assoc. simpl. rewrite <- !app_assoc. reflexivity.
    - destruct Hpc as [[-> Hc]|(-> & Hc & _)]; simpl Z.eqb in Hm;
        cbv iota in Hm.
      + right. destruct Hm as (ret & Hret & ->).
        exists (length (pool s)), ret, (errno s), [].
        split; [lia|]. split; [exact Hret|]. now rewrite app_nil_r.
      + left. rewrite Hm. replace (length (pool s)) with (Z.to_nat n) by lia.
        exists []. now rewrite app_nil_r. }
  split; [exact Hpre|].
  destruct Hpre as [[rest H]|(k & ret & err & rest & _ & _ & H)].
  - apply (NoDup_app_remove_r _ rest). rewrite <- H.
    apply NoDup_success_calls.
  - apply (NoDup_app_remove_r _ rest). rewrite <- H.
    apply NoDup_failure_calls.
Qed.

End Sequence.

(** ** Who printed a line *)

Lemma main_hist_printf p k err h x :
  main_hist p k err h -> In (Printf x) h -> In x main_lines.
Proof.
  unfold main_hist, main_lines. intros Hm Hin.
  assert (Hl : forall k', In (Printf x) (launched k') -> x = creating_line).
  { intros k' H. unfold launched in H. destruct H as [H|H]; [congruence|].
    apply spawns_elem in H as (? & ? & [H|H]); discriminate. }
  assert (Hf : forall k' ret, In (Printf x) (failing k' ret) ->
                              x = creating_line).
  { intros k' ret H. unfold failing in H. apply in_app_or in H as [H|H];
      [now apply (Hl k')|].
    destruct H as [H|[H|[]]]; discriminate. }
  assert (Hj : forall k' j, In (Printf x) (joined k' j) ->
                            x = creating_line \/ x = waiting_line).
  { intros k' j H. unfold joined in H. apply in_app_or in H as [H|H];
      [left; now apply (Hl k')|].
    destruct H as [H|H]; [right; congruence|].
    apply joins_elem in H as (? & ? & H). discriminate. }
  destruct p as [|k0|k0| |rc|j|rc].
  - subst h. destruct Hin.
  - subst h. left. symmetry. now apply (Hl k).
  - subst h. apply in_app_or in Hin as [H|[H|[]]]; [|discriminate].
    left. symmetry. now apply (Hl k).
  - destruct Hm as (ret & _ & ->). left. symmetry. now apply (Hf k ret).
  - destruct (rc =? 0).
    + subst h. apply in_app_or in Hin as [H|[H|[]]].
      * destruct (Hj _ _ H) as [->| ->]; simpl; tauto.
      * injection H as <-. simpl; tauto.
    + destruct Hm as (ret & _ & ->).
      apply in_app_or in Hin as [H|[H|[]]]; [|discriminate].
      left. symmetry. now apply (Hf k ret).
  - subst h. destruct (Hj _ _ Hin) as [->| ->]; simpl; tauto.
  - destruct (rc =? 0).
    + subst h. apply in_app_or in Hin as [H|[H|[H|[]]]].
      * destruct (Hj _ _ H) as [->| ->]; simpl; tauto.
      * injection H as <-. simpl; tauto.
      * discriminate.
    + destruct Hm as (ret & _ & ->).
      apply in_app_or in Hin as [H|[H|[H|[]]]]; [|discriminate..].
      left. symmetry. now apply (Hf k ret).
Qed.

Lemma prints_one_actor k a b x : prints k a x -> prints k b x -> a = b.
Proof.
  destruct a as [|i], b as [|j]; simpl; [reflexivity | | |].
  - intros Hm (_ & [H|H]); exfalso;
      [now apply (main_line_not_running _ _ Hm H)
      |now apply (main_line_not_finished _ _ Hm H)].
  - intros (_ & [H|H]) Hm; exfalso;
      [now apply (main_line_not_running _ _ Hm H)
      |now apply (main_line_not_finished _ _ Hm H)].
  - intros (_ & [->| ->]) (_ & [H|H]).
    + apply running_line_inj in H. f_equal. lia.
    + now apply running_not_finished in H.
    + symmetry in H. now apply running_not_finished in H.
    + apply finished_line_inj in H. f_equal. lia.
Qed.

Section Attribution.

Variable n : Z.
Hypothesis n_range : 0 <= n < 65536.

Lemma printed_by s a x :
  reachable n s -> In (a, Printf x) (trace s) -> prints (length (pool s)) a x.
Proof.
  intros Hr Hin. destruct (reachable_inv n n_range s Hr) as [_ [Hm Hw Hno]].
  apply acts_of_In in Hin. destruct a as [|slot]; simpl.
  - eapply main_hist_printf; eauto.
  - destruct (pool s !! slot) as [w|] eqn:E.
    + split; [now apply lookup_lt_Some in E|].
      rewrite (Hw _ _ E) in Hin.
      apply worker_hist_elem in Hin as [H|[H|[H|[H|H]]]];
        try discriminate; injection H as ->; tauto.
    + apply lookup_ge_None in E. rewrite (Hno _ E) in Hin. destruct Hin.
Qed.

(** X11: every line tells what its thread read.  In the whole life of
    the process a line printed by [main] is one of its three fixed lines,
    and a line printed by the worker of index [slot], a thread that
    exists and whose index is below [num_threads], is the "running" or
    the "finished" line of the value that worker read at line 9; that
    value is [slot + 1] when the worker read it before [main] returned.
    So as long as [main] does not return -1 a text that one thread has
    printed is printed by no other thread.  No worker ever calls
    [perror]. *)
Theorem every_line_names_its_thread sch l s0 s a x :
  launch n sch = Some s0 -> orphans l s0 = Some s ->
  In (a, Printf x) (trace s) ->
  match a with
  | Main => In x main_lines
  | Thr slot =>
      (slot < length (pool s))%nat /\ Z.of_nat slot < n /\
      exists v,
        In (Thr slot, LoadId (Z.of_nat slot) v) (trace s) /\
        (x = running_line v \/ x = finished_line v) /\
        (In (Thr slot, LoadId (Z.of_nat slot) v) (trace s0) ->
         v = Z.of_nat slot + 1)
  end /\
  (pc s0 <> M_exit (-1) -> forall b, In (b, Printf x) (trace s) -> b = a) /\
  (forall slot msg err, ~ In (Thr slot, Perror msg err) (trace s)).
Proof.
  intros Hrun Ho Hin. assert (Hr : reachable n s0) by now exists sch.
  destruct (reachable_inv n n_range s0 Hr) as [_ [Hm Hw0 Hno0]].
  pose proof (stored_le n n_range s0 Hr) as Hb.
  destruct (orphans_frame l s0 s Ho) as (_ & _ & _ & _ & Elen & Emain & _).
  destruct (process_read_inv n n_range sch l s0 s Hrun Ho) as [Hrw Hrno].
  split.
  { destruct a as [|slot].
    - apply acts_of_In in Hin. rewrite Emain in Hin.
      eapply main_hist_printf; eauto.
    - pose proof Hin as Hacts. apply acts_of_In in Hacts.
      destruct (pool s !! slot) as [w|] eqn:E.
      + pose proof (lookup_lt_Some _ _ _ E) as Hlt.
        split; [exact Hlt|]. split; [lia|].
        destruct (Hrw _ _ E) as (v & _ & _ & Hh). exists v.
        rewrite Hh in Hacts. split.
        * apply acts_of_In. rewrite Hh.
          destruct w as [arg|num i|num i| |r]; simpl in Hacts |- *;
            [destruct Hacts | now left ..].
        * split.
          -- apply worker_hist_read_elem in Hacts as [H|[H|[H|[H|H]]]];
               try discriminate H; injection H as ->; tauto.
          -- intros H0. apply acts_of_In in H0.
             destruct (pool s0 !! slot) as [w0|] eqn:E0.
             ++ rewrite (Hw0 _ _ E0) in H0.
                apply worker_hist_elem in H0 as [H|[H|[H|[H|H]]]];
                  try discriminate H. now injection H as ->.
             ++ apply lookup_ge_None in E0. rewrite (Hno0 _ E0) in H0.
                destruct H0.
      + apply lookup_ge_None in E. rewrite (Hrno _ E) in Hacts.
        destruct Hacts. }
  split.
  { intros Hnf b Hb'.
    rewrite (no_orphans_unless_failed n n_range l s0 s Hr Hnf Ho) in *.
    pose proof (printed_by s0 a x Hr Hin) as Ha.
    pose proof (printed_by s0 b x Hr Hb') as Hbp.
    exact (prints_one_actor _ _ _ x Hbp Ha). }
  intros slot msg err H.
  apply acts_of_In in H. destruct (pool s !! slot) as [w|] eqn:E.
  - destruct (Hrw _ _ E) as (v & _ & _ & Hh). rewrite Hh in H.
    apply worker_hist_read_elem in H as [H|[H|[H|[H|H]]]]; discriminate.
  - apply lookup_ge_None in E. rewrite (Hrno _ E) in H. destruct H.
Qed.

End Attribution.

(** ** Any [pthread_create] may be the one that fails *)

Section AnyFailure.

Variable n : Z.
Hypothesis n_range : 0 <= n < 65536.

Lemma step_at_spawn s k r :
  reachable n s -> pc s = M_spawn k -> k < n ->
  exists s', step n (Run_main r) s = Some s' /\ pc s' = M_create k /\
    errno s' = errno s /\ pool s' = pool s /\
    trace s' = trace s ++ [(Main, StoreId k (k + 1))].
Proof.
  intros Hr Hpc Hk.
  destruct (reachable_state_inv n n_range s Hr) as [Hl1 _ _ _ Hok].
  unfold main_ok in Hok. rewrite Hpc in Hok.
  unfold step, exited, main_step. rewrite Hpc.
  replace (k <? n) with true by (symmetry; lia).
  rewrite store_in_bounds by lia. rewrite wrap16_small by lia.
  eexists. split; [reflexivity|]. simpl. repeat split.
Qed.

Lemma step_at_create s k r :
  reachable n s -> pc s = M_create k ->
  exists s', step n (Run_main r) s = Some s' /\
    trace s' = trace s ++ [(Main, Create k (create_ret r))] /\
    if create_ret r =? 0
    then pc s' = M_spawn (k + 1) /\ errno s' = errno s /\
         pool s' = pool s ++ [W_entry k]
    else pc s' = M_perror /\ errno s' = create_errno r /\ pool s' = pool s.
Proof.
  intros Hr Hpc.
  destruct (reachable_state_inv n n_range s Hr) as [_ Hl2 _ _ Hok].
  unfold main_ok in Hok. rewrite Hpc in Hok.
  unfold step, exited, main_step. rewrite Hpc.
  destruct (create_ret r =? 0) eqn:E.
  - rewrite store_in_bounds by lia. rewrite wrap16_small by lia.
    eexists. split; [reflexivity|]. simpl.
    replace (create_ret r) with 0 by lia. repeat split.
  - eexists. split; [reflexivity|]. simpl. repeat split.
Qed.

Lemma step_at_perror s r :
  pc s = M_perror ->
  exists s', step n (Run_main r) s = Some s' /\ pc s' = M_return (-1) /\
    errno s' = errno s /\ pool s' = pool s /\
    trace s' = trace s ++ [(Main, Perror perror_msg (errno s))].
Proof.
  intros Hpc. unfold step, exited, main_step. rewrite Hpc.
  eexists. split; [reflexivity|]. simpl. repeat split.
Qed.

Lemma step_at_return s r rc :
  pc s = M_return rc ->
  exists s', step n (Run_main r) s = Some s' /\ pc s' = M_exit rc /\
    errno s' = errno s /\ pool s' = pool s /\
    trace s' = trace s ++ [(Main, Return rc)].
Proof.
  intros Hpc. unfold step, exited, main_step. rewrite Hpc.
  eexists. split; [reflexivity|]. simpl. repeat split.
Qed.

(** [main] alone, as far as having started [k] threads. *)
Lemma reach_spawn k :
  Z.of_nat k <= n ->
  exists s,
    launch n (Run_main ok :: concat (replicate k [Run_main ok; Run_main ok]))
    = Some s /\
    pc s = M_spawn (Z.of_nat k) /\
    pool s = map (fun i => W_entry (Z.of_nat i)) (seq 0 k) /\
    trace s = map (pair Main) (launched k).
Proof.
  induction k as [|k IH]; intros Hk.
  - eexists. split; [reflexivity|]. simpl. repeat split.
  - destruct (IH ltac:(lia)) as (s & Hrun & Hpc & Hpool & Htr).
    assert (Hr : reachable n s) by (eexists; exact Hrun).
    destruct (step_at_spawn s _ ok Hr Hpc ltac:(lia))
      as (s1 & Hs1 & Hpc1 & _ & Hpool1 & Htr1).
    assert (Hr1 : reachable n s1) by (eapply reachable_step; eauto).
    destruct (step_at_create s1 _ ok Hr1 Hpc1) as (s2 & Hs2 & Htr2 & H2).
    change (create_ret ok =? 0) with true in H2. cbv iota in H2.
    destruct H2 as (Hpc2 & _ & Hpool2).
    exists s2. split.
    { rewrite replicate_S_end, concat_app, app_comm_cons.
      unfold launch in *. rewrite run_app, Hrun.
      cbn [concat app run]. now rewrite Hs1, Hs2. }
    split; [rewrite Hpc2; f_equal; lia|]. split.
    + rewrite Hpool2, Hpool1, Hpool, seq_S, map_app. reflexivity.
    + rewrite Htr2, Htr1, Htr. unfold launched. rewrite spawns_S.
      change (Printf creating_line :: spawns k ++ spawn k)
        with ((Printf creating_line :: spawns k) ++ spawn k).
      rewrite map_app, <- app_assoc. reflexivity.
Qed.

Lemma main_alone l :
  stdout (map (pair Main) l) = omap printed l /\
  stderr (map (pair Main) l) = omap diagnosed l.
Proof.
  induction l as [|x l [IH1 IH2]]; [now split|].
  change (map (pair Main) (x :: l)) with ([(Main, x)] ++ map (pair Main) l).
  unfold stdout, stderr in *. rewrite !omap_app, IH1, IH2.
  split; simpl; [destruct (printed x) | destruct (diagnosed x)]; reflexivity.
Qed.

(** X12: for every index [k] below [num_threads] there is a run in which
    the [pthread_create] of that index is the one that fails, whatever
    non-zero value and errno the operating system answers.  In the run
    given here only [main] runs: it makes the calls of [failure_calls]
    and nothing else happens, the process is over with [main] having
    returned -1, the standard output holds the first line only, the error
    stream holds the one diagnostic, and the [k] threads that were
    started are still at the entry of [thread_func]: [main] returns
    without waiting for them. *)
Theorem any_create_may_fail k r :
  Z.of_nat k < n -> create_ret r <> 0 ->
  exists s,
    launch n (sched_fail_at k r) = Some s /\
    pc s = M_exit (-1) /\ errno s = create_errno r /\
    trace s
    = map (pair Main) (failure_calls k (create_ret r) (create_errno r)) /\
    stdout (trace s) = [creating_line] /\
    stderr (trace s) = [(perror_msg, create_errno r)] /\
    pool s = map (fun i => W_entry (Z.of_nat i)) (seq 0 k).
Proof.
  intros Hk Hret.
  destruct (reach_spawn k ltac:(lia)) as (s & Hrun & Hpc & Hpool & Htr).
  assert (Hr : reachable n s) by (eexists; exact Hrun).
  destruct (step_at_spawn s _ ok Hr Hpc Hk)
    as (s1 & Hs1 & Hpc1 & _ & Hpool1 & Htr1).
  assert (Hr1 : reachable n s1) by (eapply reachable_step; eauto).
  destruct (step_at_create s1 _ r Hr1 Hpc1) as (s2 & Hs2 & Htr2 & H2).
  replace (create_ret r =? 0) with false in H2 by (symmetry; lia).
  destruct H2 as (Hpc2 & He2 & Hpool2).
  destruct (step_at_perror s2 ok Hpc2)
    as (s3 & Hs3 & Hpc3 & He3 & Hpool3 & Htr3).
  destruct (step_at_return s3 ok _ Hpc3)
    as (s4 & Hs4 & Hpc4 & He4 & Hpool4 & Htr4).
  assert (Ht : trace s4
               = map (pair Main)
                   (failure_calls k (create_ret r) (create_errno r))).
  { rewrite Htr4, Htr3, Htr2, Htr1, Htr, He2.
    unfold failure_calls, failing. rewrite !map_app, <- !app_assoc.
    reflexivity. }
  exists s4. split.
  { unfold sched_fail_at, launch in *. rewrite run_app, Hrun.
    cbn [run]. now rewrite Hs1, Hs2, Hs3, Hs4. }
  split; [exact Hpc4|]. split; [congruence|]. split; [exact Ht|].
  rewrite Ht.
  destruct (main_alone (failure_calls k (create_ret r) (create_errno r)))
    as [-> ->].
  unfold failure_calls. rewrite !omap_app.
  destruct (failing_quiet k (create_ret r)) as [-> ->].
  split; [reflexivity|]. split; [reflexivity | congruence].
Qed.

End AnyFailure.

(** ** As long as nothing failed, the run can end well *)

Section Possible.

Variable n : Z.
Hypothesis n_range : 0 <= n < 65536.

Lemma step_keeps_ok c s s' :
  step n c s = Some s' ->
  (forall r, c = Run_main r -> create_ret r = 0) ->
  not_failed (pc s) = true -> not_failed (pc s') = true.
Proof.
  intros Hst Hc Hnf. unfold step in Hst.
  destruct (exited s); [discriminate|]. destruct c as [r|slot].
  - specialize (Hc r eq_refl). unfold main_step in Hst.
    destruct (pc s) as [|k|k| |rc|j|rc]; try discriminate.
    + now injection Hst as <-.
    + destruct (k <? n).
      * destruct (store _ _ _); [|discriminate]. now injection Hst as <-.
      * now injection Hst as <-.
    + rewrite Hc in Hst. simpl in Hst.
      destruct (store _ _ _); [|discriminate]. now injection Hst as <-.
    + now injection Hst as <-.
    + destruct (j <? n).
      * destruct (load _ _); [|discriminate].
        destruct (pool s !! _) as [[| | | |ret]|]; try discriminate.
        now injection Hst as <-.
      * now injection Hst as <-.
  - apply thread_step_Some in Hst as (w & w' & a & _ & _ & ->). exact Hnf.
Qed.

Lemma can_succeed s :
  reachable n s -> not_failed (pc s) = true ->
  exists sch' s', run n sch' s = Some s' /\ pc s' = M_exit 0.
Proof.
  remember (measure n s) as m eqn:Hm.
  assert (Hle : (measure n s <= m)%nat) by lia.
  clear Hm. revert s Hle. induction m as [|m IH]; intros s Hle Hr Hnf.
  - destruct (exited s) eqn:Hex.
    + exists [], s. split; [reflexivity|]. unfold exited in Hex.
      destruct (pc s); try discriminate. simpl in Hnf. f_equal. lia.
    + destruct (progress n n_range s Hr Hex) as [c [s1 Hs]].
      pose proof (step_measure n n_range _ _ _
                    (reachable_state_inv n n_range _ Hr) Hs). lia.
  - destruct (exited s) eqn:Hex.
    + exists [], s. split; [reflexivity|]. unfold exited in Hex.
      destruct (pc s); try discriminate. simpl in Hnf. f_equal. lia.
    + assert (exists c s1, step n c s = Some s1 /\
                (forall r, c = Run_main r -> create_ret r = 0))
        as (c & s1 & Hs & Hc).
      { destruct (main_enabled n n_range s ok Hr Hex)
          as [[s1 Hs]|(j & w & _ & _ & Hw & Hnd)].
        - exists (Run_main ok), s1. split; [exact Hs|].
          now intros r [= <-].
        - destruct (worker_enabled n n_range s _ w Hr Hex Hw Hnd)
            as [s1 Hs].
          exists (Run_thread (Z.to_nat j)), s1. split; [exact Hs|].
          intros r Hr'. discriminate Hr'. }
      pose proof (step_measure n n_range _ _ _
                    (reachable_state_inv n n_range _ Hr) Hs) as Hlt.
      destruct (IH s1 ltac:(lia) (reachable_step _ _ _ _ Hr Hs)
                  (step_keeps_ok _ _ _ Hs Hc Hnf))
        as (sch' & s' & Hrun & Hpc').
      exists (c :: sch'), s'. simpl. rewrite Hs. now split.
Qed.

Lemma no_failure_seen s :
  reachable n s ->
  (forall k ret, In (Main, Create k ret) (trace s) -> ret = 0) ->
  not_failed (pc s) = true.
Proof.
  intros Hr Hno. destruct (reachable_inv n n_range s Hr) as [_ [Hm _ _]].
  assert (Hf : forall ret, ret <> 0 ->
            ~ exists rest, acts_of Main (trace s)
                           = failing (length (pool s)) ret ++ rest).
  { intros ret Hret [rest H]. apply Hret.
    apply (Hno (Z.of_nat (length (pool s)))). apply acts_of_In.
    rewrite H. apply in_or_app. left. unfold failing. apply in_or_app.
    right. simpl. tauto. }
  unfold main_hist in Hm.
  destruct (pc s) as [|k|k| |rc|j|rc]; simpl; try reflexivity.
  - destruct Hm as (ret & Hret & H). destruct (Hf ret Hret).
    exists []. now rewrite app_nil_r.
  - destruct (rc =? 0); [reflexivity|].
    destruct Hm as (ret & Hret & H). destruct (Hf ret Hret).
    eexists. exact H.
  - destruct (rc =? 0); [reflexivity|].
    destruct Hm as (ret & Hret & H). destruct (Hf ret Hret).
    eexists. exact H.
Qed.

(** X13: as long as no [pthread_create] has failed, the run can still end
    well.  From wherever such a run stands there is a way to go on, the
    operating system accepting every further [pthread_create], that ends
    with [main] returning 0; it takes exactly [measure n s] more steps,
    which brings the whole run to [16 * n + 4] steps.  So neither a loop
    nor a [pthread_join] can keep the process from finishing. *)
Theorem success_stays_possible sch s :
  launch n sch = Some s ->
  (forall k ret, In (Main, Create k ret) (trace s) -> ret = 0) ->
  exists sch' s',
    launch n (sch ++ sch') = Some s' /\ pc s' = M_exit 0 /\
    length sch' = measure n s /\
    length (sch ++ sch') = (16 * Z.to_nat n + 4)%nat.
Proof.
  intros Hrun Hno. assert (Hr : reachable n s) by now exists sch.
  pose proof (no_failure_seen s Hr Hno) as Hnf.
  destruct (can_succeed s Hr Hnf) as (sch' & s' & Hrun' & Hpc').
  exists sch', s'.
  assert (Hall : launch n (sch ++ sch') = Some s')
    by (unfold launch in *; now rewrite run_app, Hrun).
  assert (Hr' : reachable n s') by (exists (sch ++ sch'); exact Hall).
  split; [exact Hall|]. split; [exact Hpc'|].
  pose proof (reachable_steps_exact n n_range s Hr Hnf) as K.
  pose proof (reachable_steps_exact n n_range s' Hr') as K'.
  rewrite Hpc' in K'. specialize (K' eq_refl).
  destruct (reachable_state_inv n n_range s' Hr') as [_ _ _ _ Hok].
  unfold main_ok in Hok. rewrite Hpc' in Hok.
  destruct Hok as [[Hok _]|(_ & Hlen & Hd)]; [discriminate Hok|].
  unfold measure in K' at 1. rewrite Hpc', (sum_all_done _ _ Hd) in K'.
  simpl in K'.
  destruct (run_trace _ _ _ _ Hrun) as (t & Ht & Htl). simpl in Ht.
  destruct (run_trace _ _ _ _ Hrun') as (t' & Ht' & Htl').
  rewrite Ht', length_app in K'. rewrite length_app, <- Htl, <- Ht.
  split; lia.
Qed.

End Possible.

(** * The further properties on the worked runs *)

Lemma accesses_are_defined_witness :
  launch 3 (sched_fail_at 1 (Reply 11 11)) = Some returned_early /\
  exited returned_early = true /\
  pool returned_early !! 0%nat = Some (W_entry 0) /\
  pc returned_early = M_exit (-1) /\
  exists s',
    orphan_step 0 [Some 7] returned_early = Some s' /\
    pool s' !! 0%nat = Some (W_loop (wrap16 7) 0) /\
    trace s' = trace returned_early ++ [(Thr 0, LoadId 0 (wrap16 7))].
Proof.
  assert (H1 : launch 3 (sched_fail_at 1 (Reply 11 11))
               = Some returned_early) by reflexivity.
  assert (H2 : exited returned_early = true) by reflexivity.
  assert (H3 : pool returned_early !! 0%nat = Some (W_entry 0))
    by reflexivity.
  pose proof (accesses_are_defined 3 ltac:(lia) _ _ H1)
    as (_ & _ & _ & _ & Hd).
  destruct (Hd H2 0%nat 0 H3) as (H4 & _ & H5).
  split; [exact H1|]. split; [exact H2|]. split; [exact H3|].
  split; [exact H4|]. exact (H5 [Some 7] 7 eq_refl).
Defined.

Lemma counters_never_wrap_witness :
  launch 3 (sched_fail_at 1 (Reply 11 11)) = Some returned_early /\
  orphans [(0%nat, [Some 0]); (0%nat, [])] returned_early
  = Some late_reader /\
  (forall i v, thread_id late_reader !! i = Some (Some v) -> 1 <= v <= 3) /\
  (forall slot num i, pool late_reader !! slot = Some (W_sleep num i) ->
     0 <= i < 5 /\ wrap8 (i + 1) = i + 1 /\ 0 <= num < 65536).
Proof.
  assert (H1 : launch 3 (sched_fail_at 1 (Reply 11 11))
               = Some returned_early) by reflexivity.
  assert (H2 : orphans [(0%nat, [Some 0]); (0%nat, [])] returned_early
               = Some late_reader) by reflexivity.
  pose proof (counters_never_wrap 3 ltac:(lia) _ _ _ _ H1 H2)
    as (_ & _ & _ & Hv & _ & Hs).
  split; [exact H1|]. split; [exact H2|]. split; [exact Hv | exact Hs].
Defined.

Lemma return_value_tells_outcome_witness :
  launch 3 sched_second_create_fails = Some final_second_create_fails /\
  pc final_second_create_fails = M_exit (-1) /\
  (exists k ret, ret <> 0 /\
     In (Main, Create k ret) (trace final_second_create_fails)) /\
  Z.of_nat (length (pool final_second_create_fails)) < 3 /\
  stderr (trace final_second_create_fails) = [(perror_msg, 11)].
Proof.
  assert (H1 : launch 3 sched_second_create_fails
               = Some final_second_create_fails) by reflexivity.
  assert (H2 : pc final_second_create_fails = M_exit (-1)) by reflexivity.
  split; [exact H1|]. split; [exact H2|].
  destruct (return_value_tells_outcome 3 ltac:(lia) sched_second_create_fails
              final_second_create_fails (-1) H1 H2)
    as [(H & _)|(_ & H3 & H4 & H5)]; [discriminate H|].
  split; [exact H3|]. split; [exact H4 | exact H5].
Defined.

Lemma written_cells_never_change_witness :
  launch 3 (sched_fail_at 1 (Reply 11 11)) = Some returned_early /\
  run 3 [] returned_early = Some returned_early /\
  orphans [(0%nat, [Some 0]); (0%nat, [])] returned_early
  = Some late_reader /\
  (forall slot w, pool returned_early !! slot = Some w ->
     exists w', pool late_reader !! slot = Some w' /\
       (worker_fuel w' <= worker_fuel w)%nat) /\
  (length (pool returned_early) <= length (pool late_reader))%nat.
Proof.
  assert (H1 : launch 3 (sched_fail_at 1 (Reply 11 11))
               = Some returned_early) by reflexivity.
  assert (H2 : run 3 [] returned_early = Some returned_early)
    by reflexivity.
  assert (H3 : orphans [(0%nat, [Some 0]); (0%nat, [])] returned_early
               = Some late_reader) by reflexivity.
  pose proof (written_cells_never_change 3 ltac:(lia) _ _ _ _ _ _ H1 H2 H3)
    as (_ & H4 & _ & H5).
  split; [exact H1|]. split; [exact H2|]. split; [exact H3|].
  split; [exact H4 | exact H5].
Defined.


Lemma join_returns_after_worker_witness :
  launch 3 sched_round_robin = Some final_round_robin /\
  trace final_round_robin
  = take 47 (trace final_round_robin)
    ++ (Main, Join 0) :: drop 48 (trace final_round_robin) /\
  acts_of (Thr 0) (take 47 (trace final_round_robin))
  = thread_func_calls 0 1 /\
  (forall x, ~ In (Thr 0, x) (drop 48 (trace final_round_robin))).
Proof.
  assert (H1 : launch 3 sched_round_robin = Some final_round_robin)
    by reflexivity.
  assert (H2 : trace final_round_robin
               = take 47 (trace final_round_robin)
                 ++ (Main, Join 0) :: drop 48 (trace final_round_robin))
    by reflexivity.
  split; [exact H1|]. split; [exact H2|].
  destruct (join_returns_after_worker 3 ltac:(lia) sched_round_robin
              final_round_robin _ 0 _ H1 H2) as (_ & _ & H3 & H4).
  split; [exact H3 | exact H4].
Defined.

Lemma never_too_many_lines_witness :
  launch 3 sched_round_robin = Some final_round_robin /\
  orphans [] final_round_robin = Some final_round_robin /\
  pc final_round_robin <> M_exit (-1) /\
  (forall id,
     (count_line (running_line id)
        (stdout (trace final_round_robin)) <= 5)%nat /\
     (count_line (finished_line id)
        (stdout (trace final_round_robin)) <= 1)%nat) /\
  (forall x, In x main_lines ->
     (count_line x (stdout (trace final_round_robin)) <= 1)%nat).
Proof.
  assert (H1 : launch 3 sched_round_robin = Some final_round_robin)
    by reflexivity.
  assert (H2 : orphans [] final_round_robin = Some final_round_robin)
    by reflexivity.
  assert (H3 : pc final_round_robin <> M_exit (-1)) by (simpl; discriminate).
  destruct (never_too_many_lines 3 ltac:(lia) _ _ _ _ H1 H2 H3) as [Hw Hm].
  split; [exact H1|]. split; [exact H2|]. split; [exact H3|].
  split; [|exact Hm].
  intros id. destruct (Hw id) as (Ha & Hb & _). split; [exact Ha | exact Hb].
Defined.

Lemma successful_run_totals_witness :
  launch 3 sched_round_robin = Some final_round_robin /\
  pc final_round_robin = M_exit 0 /\
  length sched_round_robin = 52%nat /\
  length (trace final_round_robin) = 52%nat /\
  length (stdout (trace final_round_robin)) = 21%nat.
Proof.
  assert (H1 : launch 3 sched_round_robin = Some final_round_robin)
    by reflexivity.
  assert (H2 : pc final_round_robin = M_exit 0) by reflexivity.
  split; [exact H1|]. split; [exact H2|].
  destruct (successful_run_totals 3 ltac:(lia) sched_round_robin
              final_round_robin H1 H2) as (H3 & H4 & H5 & _).
  split; [exact H3|]. split; [exact H4 | exact H5].
Defined.

Lemma successful_runs_agree_witness :
  launch 3 sched_round_robin = Some final_round_robin /\
  launch 3 (sched_main_first ++ sched_workers_then_joins)
  = Some final_main_first /\
  pc final_round_robin = M_exit 0 /\ pc final_main_first = M_exit 0 /\
  thread_id final_round_robin = thread_id final_main_first /\
  threads final_round_robin = threads final_main_first /\
  pool final_round_robin = pool final_main_first /\
  (forall a, acts_of a (trace final_round_robin)
             = acts_of a (trace final_main_first)) /\
  length sched_round_robin
  = length (sched_main_first ++ sched_workers_then_joins) /\
  Permutation (stdout (trace final_round_robin))
              (stdout (trace final_main_first)).
Proof.
  assert (H1 : launch 3 sched_round_robin = Some final_round_robin)
    by reflexivity.
  assert (H2 : launch 3 (sched_main_first ++ sched_workers_then_joins)
               = Some final_main_first) by reflexivity.
  assert (H3 : pc final_round_robin = M_exit 0) by reflexivity.
  assert (H4 : pc final_main_first = M_exit 0) by reflexivity.
  split; [exact H1|]. split; [exact H2|]. split; [exact H3|].
  split; [exact H4|].
  exact (successful_runs_agree 3 ltac:(lia) _ _ _ _ H1 H2 H3 H4).
Defined.

Lemma main_follows_one_sequence_witness :
  launch 3 sched_second_create_fails = Some final_second_create_fails /\
  List.NoDup (acts_of Main (trace final_second_create_fails)).
Proof.
  assert (H1 : launch 3 sched_second_create_fails
               = Some final_second_create_fails) by reflexivity.
  split; [exact H1|].
  exact (proj2 (main_follows_one_sequence 3 ltac:(lia)
                  sched_second_create_fails final_second_create_fails H1)).
Defined.

Lemma every_line_names_its_thread_witness :
  launch 3 (sched_fail_at 1 (Reply 11 11)) = Some returned_early /\
  orphans [(0%nat, [Some 0]); (0%nat, [])] returned_early
  = Some late_reader /\
  In (Thr 0, Printf (running_line 0)) (trace late_reader) /\
  exists v,
    In (Thr 0, LoadId (Z.of_nat 0) v) (trace late_reader) /\
    (running_line 0 = running_line v \/ running_line 0 = finished_line v).
Proof.
  assert (H1 : launch 3 (sched_fail_at 1 (Reply 11 11))
               = Some returned_early) by reflexivity.
  assert (H2 : orphans [(0%nat, [Some 0]); (0%nat, [])] returned_early
               = Some late_reader) by reflexivity.
  assert (H3 : In (Thr 0, Printf (running_line 0)) (trace late_reader))
    by (vm_compute; tauto).
  destruct (every_line_names_its_thread 3 ltac:(lia) _ _ _ _ (Thr 0) _
              H1 H2 H3) as ((_ & _ & v & Hv & Hx & _) & _).
  split; [exact H1|]. split; [exact H2|]. split; [exact H3|].
  exists v. split; [exact Hv | exact Hx].
Defined.

Lemma any_create_may_fail_witness :
  Z.of_nat 1 < 3 /\ create_ret (Reply 11 11) <> 0 /\
  exists s,
    launch 3 (sched_fail_at 1 (Reply 11 11)) = Some s /\
    pc s = M_exit (-1) /\ errno s = 11 /\
    trace s = map (pair Main) (failure_calls 1 11 11) /\
    stdout (trace s) = [creating_line] /\
    stderr (trace s) = [(perror_msg, 11)] /\
    pool s = [W_entry 0].
Proof.
  assert (H1 : Z.of_nat 1 < 3) by (simpl; lia).
  assert (H2 : create_ret (Reply 11 11) <> 0) by (simpl; lia).
  split; [exact H1|]. split; [exact H2|].
  exact (any_create_may_fail 3 ltac:(lia) 1%nat (Reply 11 11) H1 H2).
Defined.

Lemma success_stays_possible_witness :
  launch 3 sched_main_first = Some waiting_state /\
  (forall k ret, In (Main, Create k ret) (trace waiting_state) -> ret = 0) /\
  exists sch' s',
    launch 3 (sched_main_first ++ sch') = Some s' /\ pc s' = M_exit 0 /\
    length sch' = measure 3 waiting_state /\
    length (sched_main_first ++ sch') = (16 * Z.to_nat 3 + 4)%nat.
Proof.
  assert (H1 : launch 3 sched_main_first = Some waiting_state) by reflexivity.
  assert (H2 : forall k ret,
            In (Main, Create k ret) (trace waiting_state) -> ret = 0).
  { intros k ret H. simpl in H.
    repeat (destruct H as [H|H];
            [try discriminate H; injection H as _ <-; reflexivity|]).
    destruct H. }
  split; [exact H1|]. split; [exact H2|].
  exact (success_stays_possible 3 ltac:(lia) sched_main_first waiting_state
           H1 H2).
Defined.
